(** * webrtc-client: WHIP / WHEP / duplex signalling

    A shallow embedding of [src/webrtc.ts]: the [WebRtcClient] base class
    (offer/answer exchange, trickled ICE candidates, relay-server discovery
    from the [Link] header) and the role classes [WhepClient], [WhipClient]
    and [DuplexClient] (track pairing, start-up).

    Conventions.
    - Every [async] method is cut at its [await]s.  A method runs
      synchronously from its call (or from the settlement of the promise it
      awaits) to its next [await]; that run is one transition of the client.
      What the environment does (calls of [sendOffer], DOM events of the
      peer connection, promise settlements) is an [event]; what the client
      does to the outside (console, [fetch], peer-connection calls,
      [dispatchEvent]) is an [effect], recorded in call order.
    - [sendOffer] has no guard against being called again: every call is
      an activation of its own, with its own locals and its own
      [sendCachedCandidates], all sharing the fields of the client.
    - Header values are byte strings, so [string] (8-bit characters) is the
      exact carrier for everything [receiveIceServers] parses. *)

From Stdlib Require Import List String Ascii Bool Arith Lia Permutation ZArith.
From Stdlib Require QArith.
Import ListNotations.
Local Open Scope string_scope.
Local Open Scope list_scope.

(** ** JavaScript string primitives used by the source *)

Module JsString.

Definition dquote : ascii := ascii_of_nat 34.
Definition quoted (s : string) : string :=
  String dquote (s ++ String dquote EmptyString)%string.

Definition CRLF : string :=
  String (ascii_of_nat 13) (String (ascii_of_nat 10) EmptyString).

(** [s.split(sep)] for a one-character separator: never empty, the empty
    string splits into one empty piece. *)
Fixpoint split (sep : ascii) (s : string) : list string :=
  match s with
  | EmptyString => [EmptyString]
  | String c rest =>
      if Ascii.eqb c sep then EmptyString :: split sep rest
      else match split sep rest with
           | [] => [String c EmptyString]
           | piece :: pieces => String c piece :: pieces
           end
  end.

(** [l.join(sep)]. *)
Fixpoint join (sep : string) (l : list string) : string :=
  match l with
  | [] => EmptyString
  | [x] => x
  | x :: rest => (x ++ sep ++ join sep rest)%string
  end.

(** WhiteSpace and LineTerminator code units below 256: TAB, LF, VT, FF,
    CR, SP and NBSP. *)
Definition is_white_space (c : ascii) : bool :=
  let n := nat_of_ascii c in
  ((9 <=? n) && (n <=? 13) || (n =? 32) || (n =? 160))%nat.

Fixpoint trimStart (s : string) : string :=
  match s with
  | EmptyString => EmptyString
  | String c rest => if is_white_space c then trimStart rest else s
  end.

Fixpoint trimEnd (s : string) : string :=
  match s with
  | EmptyString => EmptyString
  | String c rest =>
      match trimEnd rest with
      | EmptyString => if is_white_space c then EmptyString
                       else String c EmptyString
      | kept => String c kept
      end
  end.

Definition trim (s : string) : string := trimEnd (trimStart s).

(** ASCII lower-casing, for header-name comparison. *)
Definition lower (c : ascii) : ascii :=
  let n := nat_of_ascii c in
  if ((65 <=? n) && (n <=? 90))%nat then ascii_of_nat (n + 32) else c.

Fixpoint toLowerCase (s : string) : string :=
  match s with
  | EmptyString => EmptyString
  | String c rest => String (lower c) (toLowerCase rest)
  end.

(** ToString of a [string | null] operand of [+]. *)
Definition ToString (v : option string) : string :=
  match v with
  | Some s => s
  | None => "null"
  end.

(** The part of [s] before its first [c], and the part after it. *)
Fixpoint break_at (c : ascii) (s : string) : option (string * string) :=
  match s with
  | EmptyString => None
  | String d rest =>
      if Ascii.eqb d c then Some (EmptyString, rest)
      else match break_at c rest with
           | Some (before, after) => Some (String d before, after)
           | None => None
           end
  end.

(** The part of [s] before its last [c]. *)
Fixpoint before_last (c : ascii) (s : string) : option string :=
  match s with
  | EmptyString => None
  | String d rest =>
      match before_last c rest with
      | Some before => Some (String d before)
      | None => if Ascii.eqb d c then Some EmptyString else None
      end
  end.

(** What [.] refuses: the line terminators LF and CR. *)
Definition is_line_terminator (c : ascii) : bool :=
  let n := nat_of_ascii c in ((n =? 10) || (n =? 13))%nat.

(** The longest prefix [.*] can take. *)
Fixpoint dot_run (s : string) : string :=
  match s with
  | EmptyString => EmptyString
  | String c rest =>
      if is_line_terminator c then EmptyString else String c (dot_run rest)
  end.

End JsString.

(** ** Regular expressions of [receiveIceServers] *)

Module Regex.
Import JsString.

(** [/<(.+)>/] tried right after a ['<']: [.+] is greedy, so the capture
    runs to the last ['>'] of the line, and it holds one character at
    least. *)
Definition angle_after (rest : string) : option string :=
  match before_last ">" (dot_run rest) with
  | Some EmptyString => None
  | Some capture => Some capture
  | None => None
  end.

(** [s.match(/<(.+)>/)]: capture group 1 of the leftmost match. *)
Fixpoint match_angle (s : string) : option string :=
  match s with
  | EmptyString => None
  | String c rest =>
      if Ascii.eqb c "<" then
        match angle_after rest with
        | Some capture => Some capture
        | None => match_angle rest
        end
      else match_angle rest
  end.

(** The attribute pattern of the source, [/([^=]+)=Q([^Q]+)Q/] with Q
    standing for the double quote, anchored at the head of [s].  Both
    classes exclude the character that must follow them, so only their
    longest run can be continued: no shorter attempt succeeds. *)
Definition pair_here (s : string) : option (string * string) :=
  match break_at "=" s with
  | Some (EmptyString, _) => None
  | Some (key, String q after) =>
      if Ascii.eqb q dquote then
        match break_at dquote after with
        | Some (EmptyString, _) => None
        | Some (value, _) => Some (key, value)
        | None => None
        end
      else None
  | _ => None
  end.

(** [s.match] of the attribute pattern: groups 1 and 2 of the leftmost
    match. *)
Fixpoint match_pair (s : string) : option (string * string) :=
  match pair_here s with
  | Some groups => Some groups
  | None =>
      match s with
      | EmptyString => None
      | String _ rest => match_pair rest
      end
  end.

End Regex.

(** ** HTTP values *)

Module Http.
Import JsString.

(** A [Headers] object: its header list, in order. *)
Definition Headers := list (string * string).

(** [headers.get(name)]: names match ASCII case-insensitively; the values
    of all matching headers are combined with [", "]; [null] when none. *)
Definition get (name : string) (headers : Headers) : option string :=
  match filter (fun h => toLowerCase (fst h) =? toLowerCase name) headers with
  | [] => None
  | found => Some (join ", " (map snd found))
  end.

Record Response := mkResponse {
  status : nat;
  headers : Headers
}.

(** [response.ok]. *)
Definition ok (r : Response) : bool :=
  ((200 <=? status r) && (status r <=? 299))%nat.

Record Request := mkRequest {
  url : string;
  method : string;
  contentType : string;
  body : string
}.

End Http.

Import JsString Http.

(** ** Collaborator values *)

Record RTCIceServer := mkServer {
  urls : list string;
  username : option string;
  credential : option string;
  credentialType : option string
}.

Record RTCIceCandidate := mkCandidate {
  candidate : string;
  sdpMid : option string;
  usernameFragment : option string
}.

(** The peer connection, as far as the client reads it back:
    [getConfiguration().iceServers].  [setConfiguration] is taken to be
    accepted by the engine and replaces the list. *)
Record RTCPeerConnection := mkPeer {
  iceServers : list RTCIceServer
}.

Record MediaStreamTrack := mkTrack {
  kind : string;
  id : string
}.

(** A [MediaStream], by its tracks ([getTracks()]). *)
Definition MediaStream := list MediaStreamTrack.

(** [event.track] and [event.streams] of a 'track' event; a stream is
    named by its id. *)
Record RTCTrackEvent := mkTrackEvent {
  track : MediaStreamTrack;
  streams : list string
}.

(** A container element, by its name in the document. *)
Definition HTMLElement := string.

Record HTMLVideoElement := mkVideo {
  controls : bool;
  muted : bool;
  autoplay : bool;
  srcObject : MediaStream
}.

(** What a console call is given besides its text. *)
Inductive logged :=
| LNone
| LCandidate (c : RTCIceCandidate)
| LText (text : string)
| LServers (existing discovered : list RTCIceServer)
| LTrack (ev : RTCTrackEvent)
| LMedia (media : MediaStream).

(** Calls the client makes to the outside, in call order. *)
Inductive effect :=
| Console (text : string) (arg : logged)
| CreateOffer
| SetLocalDescription (sdp : string)
| SetRemoteDescription (type sdp : string)
| Fetch (request : Request)
| SetConfiguration (servers : list RTCIceServer)
| DispatchEvent (type : string) (detail : Response)
| AddTransceiver (kind direction : string)
| AddTrack (track : MediaStreamTrack)
| GetUserMedia (audio video : bool)
| NewMediaStream (tracks : list MediaStreamTrack)
| CreateElement (tag : string)
| AppendChild (container : HTMLElement) (element : HTMLVideoElement).

(** ** [class WebRtcClient] *)

Record WebRtcClient := mkClient {
  cachedCandidates : list RTCIceCandidate;
  endpointUrl : string;
  sessionUrl : option string;
  client : RTCPeerConnection
}.

Definition set_cachedCandidates (this : WebRtcClient) (l : list RTCIceCandidate) :=
  mkClient l (endpointUrl this) (sessionUrl this) (client this).
Definition set_sessionUrl (this : WebRtcClient) (u : string) :=
  mkClient (cachedCandidates this) (endpointUrl this) (Some u) (client this).
Definition set_client (this : WebRtcClient) (p : RTCPeerConnection) :=
  mkClient (cachedCandidates this) (endpointUrl this) (sessionUrl this) p.

(** How a synchronous stretch of an async method ends. *)
Inductive completion :=
| Awaiting
| Throws (message : string).

(** *** [sendCandidate] (lines 88-120) *)

Definition sending_text (isCached : bool) : string :=
  if isCached then "sending cached client ice candidate"
  else "sending client ice candidate".

Definition trickle_body (c : RTCIceCandidate) : string :=
  join CRLF
    [ "m=audio 9 RTP/AVP 0";
      ("a=ice-ufrag:" ++ ToString (usernameFragment c))%string;
      ("a=mid:" ++ ToString (sdpMid c))%string;
      ("a=" ++ candidate c)%string ].

Definition sendCandidate (this : WebRtcClient) (c : RTCIceCandidate)
    (isCached : bool) : list effect * completion :=
  let log := Console (sending_text isCached) (LCandidate c) in
  match sessionUrl this with
  | None => ([log], Throws "Session url not set when expected")
  | Some session =>
      ([log;
        Fetch (mkRequest session "PATCH" "application/trickle-ice-sdpfrag"
                 (trickle_body c))],
       Awaiting)
  end.

(** *** [handleIceCandidateFromClient] (lines 33-46)

    [ev] is [event.candidate].  The promise the handler returns is dropped
    by the listener, so nothing follows the settlement of its [fetch]. *)

Definition handleIceCandidateFromClient (this : WebRtcClient)
    (ev : option RTCIceCandidate) : WebRtcClient * list effect :=
  match ev with
  | None => (this, [Console "client ice candidate gathering is done" LNone])
  | Some c =>
      if candidate c =? EmptyString then
        (this, [Console "client ice candidate gathering is done" LNone])
      else
        match sessionUrl this with
        | None =>
            (set_cachedCandidates this (cachedCandidates this ++ [c]),
             [Console "received candidate before response from session create, caching"
                (LCandidate c)])
        | Some _ => (this, fst (sendCandidate this c false))
        end
  end.

(** *** [receiveIceServers] (lines 137-182) *)

Definition rel_ice_server : string := ("rel=" ++ quoted "ice-server")%string.

(** The [switch] on [pair[1]], lines 151-164. *)
Definition read_attribute (server : RTCIceServer) (f : string) : RTCIceServer :=
  match Regex.match_pair f with
  | Some (key, value) =>
      if key =? "username" then
        mkServer (urls server) (Some value) (credential server) (credentialType server)
      else if key =? "credential" then
        mkServer (urls server) (username server) (Some value) (credentialType server)
      else if key =? "credential-type" then
        mkServer (urls server) (username server) (credential server) (Some value)
      else server
  | None => server
  end.

(** The body of [for (let link of links)], lines 145-168. *)
Definition read_link (servers : list RTCIceServer) (link : string)
    : list RTCIceServer :=
  let split := map trim (JsString.split ";" link) in
  if existsb (fun x => x =? rel_ice_server) split then
    match Regex.match_angle (hd EmptyString split) with
    | Some url =>
        servers ++ [fold_left read_attribute split (mkServer [url] None None None)]
    | None => servers
    end
  else servers.

Definition parse_link_header (linkHeader : string) : list RTCIceServer :=
  fold_left read_link (JsString.split "," linkHeader) [].

Definition receiveIceServers (this : WebRtcClient) (headers : Headers)
    : WebRtcClient * list effect :=
  match get "link" headers with
  | None => (this, [])
  | Some linkHeader =>
      if linkHeader =? EmptyString then (this, [])
      else
        let servers := parse_link_header linkHeader in
        if (0 <? List.length servers)%nat then
          let existingIceServers := iceServers (client this) in
          if (List.length existingIceServers =? 0)%nat then
            (set_client this (mkPeer servers),
             [Console "Received ICE server configuration from server, applying"
                (LServers [] servers);
              SetConfiguration servers])
          else
            (this,
             [Console "Received ICE server configuration from server but have explicit configuration, ignoring"
                (LServers existingIceServers servers)])
        else (this, [])
  end.

(** *** [onResponseError] (lines 184-189) *)

Definition onResponseError (response : Response) : list effect :=
  [DispatchEvent "responseerror" response].

(** ** The client with its async activations

    Every call of [sendOffer] is an activation of its own: it is suspended
    at its own [await], and so is the [sendCachedCandidates] it calls at
    line 85.  Activations are numbered in call order; they share [this]. *)

Inductive sendOffer_pc :=
| OfferNotCalled
| AwaitCreateOffer                         (* line 50 *)
| AwaitSetLocalDescription (sdp : string)  (* line 51 *)
| AwaitFetch                               (* lines 55-61 *)
| AwaitText                                (* line 74 *)
| AwaitSetRemoteDescription                (* lines 77-80 *)
| OfferReturned
| OfferThrown (message : string).

(** [FlushAwaitSend array i]: the [for]-[of] iterator of line 123 stands at
    index [i], whose PATCH is being awaited.  The iterator holds the array
    object it was created on, not the field.  [array] is [None] while the
    field [cachedCandidates] still refers to that object, so that the
    iterator sees what line 41 pushes; it is [Some items] once line 126 has
    reassigned the field: the object is then reachable from its iterators
    only and holds [items] for good. *)
Inductive flush_pc :=
| FlushNotCalled
| FlushAwaitSend (array : option (list RTCIceCandidate)) (i : nat)
| FlushReturned
| FlushThrown.

(** One call of [sendOffer] with the [sendCachedCandidates] it calls. *)
Record activation := mkActivation {
  offer : sendOffer_pc;
  flush : flush_pc
}.

Record system := mkSystem {
  this : WebRtcClient;
  activations : list activation
}.

(** A call that has not been made. *)
Definition not_called : activation := mkActivation OfferNotCalled FlushNotCalled.

(** The activation of the call number [k], counted from 0. *)
Definition call (s : system) (k : nat) : activation :=
  nth k (activations s) not_called.

Fixpoint update {A : Type} (k : nat) (f : A -> A) (l : list A) {struct l}
    : list A :=
  match l with
  | [] => []
  | x :: rest =>
      match k with
      | 0 => f x :: rest
      | S n => x :: update n f rest
      end
  end.

Definition set_offer (s : system) (k : nat) (pc : sendOffer_pc) : system :=
  mkSystem (this s)
    (update k (fun a => mkActivation pc (flush a)) (activations s)).

Definition set_flush (s : system) (k : nat) (fl : flush_pc) : system :=
  mkSystem (this s)
    (update k (fun a => mkActivation (offer a) fl) (activations s)).

(** What settles the promise an activation awaits. *)
Inductive settlement :=
| OfferCreated (sdp : string)                  (* createOffer() fulfils *)
| LocalDescriptionSet                          (* setLocalDescription() fulfils *)
| Responded (response : Response)              (* the POST fetch fulfils *)
| BodyRead (text : string)                     (* response.text() fulfils *)
| RemoteDescriptionSet                         (* setRemoteDescription() fulfils *)
| OfferRejected (reason : string)              (* the promise sendOffer awaits rejects *)
| TrickleSettled (fulfilled : bool).           (* the PATCH sendCachedCandidates awaits settles *)

(** What the environment delivers. *)
Inductive event :=
| IceCandidate (ev : option RTCIceCandidate)  (* 'icecandidate' of the peer connection *)
| CallSendOffer                                (* sendOffer() is called *)
| Settled (k : nat) (p : settlement).          (* a promise of call [k] settles *)

(** *** [sendCachedCandidates] (lines 122-127) *)

(** The array an iterator stands on. *)
Definition iterated (s : system) (array : option (list RTCIceCandidate))
    : list RTCIceCandidate :=
  match array with
  | Some items => items
  | None => cachedCandidates (this s)
  end.

(** An iterator on the array the field referred to, once the field refers
    to another one. *)
Definition detach (items : list RTCIceCandidate) (a : activation) : activation :=
  match flush a with
  | FlushAwaitSend None i => mkActivation (offer a) (FlushAwaitSend (Some items) i)
  | _ => a
  end.

(** Line 126, [this.cachedCandidates = []]: the field gets a new, empty
    array; the old one stays with the iterators that stand on it. *)
Definition reassign_cachedCandidates (s : system) : system :=
  mkSystem (set_cachedCandidates (this s) [])
    (map (detach (cachedCandidates (this s))) (activations s)).

(** The loop of call [k] from iterator index [i] to its next [await]. *)
Definition sendCachedCandidates_from (s : system) (k : nat)
    (array : option (list RTCIceCandidate)) (i : nat) : system * list effect :=
  match nth_error (iterated s array) i with
  | Some cachedCandidate =>
      match sendCandidate (this s) cachedCandidate true with
      | (out, Awaiting) => (set_flush s k (FlushAwaitSend array i), out)
      | (out, Throws _) => (set_flush s k FlushThrown, out)
      end
  | None => (set_flush (reassign_cachedCandidates s) k FlushReturned, [])
  end.

Definition sendCachedCandidates (s : system) (k : nat) : system * list effect :=
  sendCachedCandidates_from s k None 0.

Section Signalling.

(** [new URL(input, base)]: the URL parser of the platform; [None] is its
    [TypeError]. *)
Variable new_URL : string -> string -> option string.

(** *** [sendOffer] (lines 48-86) *)

(** Lines 63-74 of call [k], run when its POST fulfils. *)
Definition sendOffer_response (s : system) (k : nat) (response : Response)
    : system * list effect :=
  if negb (ok response) then
    (set_offer s k OfferReturned, onResponseError response)
  else
    let (this1, out) := receiveIceServers (this s) (headers response) in
    match get "Location" (headers response) with
    | None =>
        (set_offer (mkSystem this1 (activations s)) k
           (OfferThrown "Session not provided in Location header"), out)
    | Some sessionUrl =>
        match new_URL sessionUrl (endpointUrl this1) with
        | None =>
            (set_offer (mkSystem this1 (activations s)) k
               (OfferThrown "TypeError: Invalid URL"), out)
        | Some session =>
            (set_offer (mkSystem (set_sessionUrl this1 session) (activations s))
               k AwaitText, out)
        end
    end.

(** The continuation of call [k] at the [await] it is suspended at; a
    settlement it does not await changes nothing. *)
Definition sendOffer_resume (s : system) (k : nat) (p : settlement)
    : system * list effect :=
  match offer (call s k), p with
  | AwaitCreateOffer, OfferCreated sdp =>
      (set_offer s k (AwaitSetLocalDescription sdp), [SetLocalDescription sdp])
  | AwaitSetLocalDescription sdp, LocalDescriptionSet =>
      (set_offer s k AwaitFetch,
       [Console "received local offer, sending to server" (LText sdp);
        Fetch (mkRequest (endpointUrl (this s)) "POST" "application/sdp" sdp)])
  | AwaitFetch, Responded response => sendOffer_response s k response
  | AwaitText, BodyRead remoteOffer =>
      (set_offer s k AwaitSetRemoteDescription,
       [Console "Got response" (LText remoteOffer);
        SetRemoteDescription "answer" remoteOffer])
  | AwaitSetRemoteDescription, RemoteDescriptionSet =>
      let (s1, out) := sendCachedCandidates (set_offer s k OfferReturned) k in
      (s1, Console "Applied remote description" LNone
             :: Console "Peer connection state" LNone :: out)
  | AwaitCreateOffer, OfferRejected reason
  | AwaitSetLocalDescription _, OfferRejected reason
  | AwaitFetch, OfferRejected reason
  | AwaitText, OfferRejected reason
  | AwaitSetRemoteDescription, OfferRejected reason =>
      (set_offer s k (OfferThrown reason), [])
  | _, _ => (s, [])
  end.

(** *** The event loop *)

Definition step (s : system) (e : event) : system * list effect :=
  match e with
  | IceCandidate ev =>
      let (this1, out) := handleIceCandidateFromClient (this s) ev in
      (mkSystem this1 (activations s), out)
  | CallSendOffer =>
      (mkSystem (this s)
         (activations s ++ [mkActivation AwaitCreateOffer FlushNotCalled]),
       [CreateOffer])
  | Settled k (TrickleSettled fulfilled) =>
      match flush (call s k) with
      | FlushAwaitSend array i =>
          if fulfilled then sendCachedCandidates_from s k array (S i)
          else (set_flush s k FlushThrown, [])
      | _ => (s, [])
      end
  | Settled k p => sendOffer_resume s k p
  end.

Fixpoint run (s : system) (evs : list event) : system * list effect :=
  match evs with
  | [] => (s, [])
  | e :: rest =>
      let (s1, out1) := step s e in
      let (s2, out2) := run s1 rest in
      (s2, out1 ++ out2)
  end.

End Signalling.

(** The client as its constructor leaves it (lines 9-31): no call of
    [sendOffer] yet. *)
Definition constructed (endpointUrl : string) (servers : list RTCIceServer)
    : system :=
  mkSystem (mkClient [] endpointUrl None (mkPeer servers)) [].

(** *** Reading a run *)

(** The requests of the relays that went out under [isCached]: the
    [fetch] that directly follows a [sendCandidate] log line. *)
Fixpoint relayed (isCached : bool) (out : list effect) : list Request :=
  match out with
  | [] => []
  | e :: rest =>
      match e, rest with
      | Console text (LCandidate _), Fetch request :: _ =>
          if text =? sending_text isCached then request :: relayed isCached rest
          else relayed isCached rest
      | _, _ => relayed isCached rest
      end
  end.

(** Every request of a trace, in the order of the [fetch] calls. *)
Fixpoint fetched (out : list effect) : list Request :=
  match out with
  | [] => []
  | Fetch request :: rest => request :: fetched rest
  | _ :: rest => fetched rest
  end.

(** The PATCH requests among them. *)
Definition patches (out : list effect) : list Request :=
  filter (fun request => method request =? "PATCH") (fetched out).

(** A notification that carries a candidate (line 34). *)
Definition carried (e : event) : option RTCIceCandidate :=
  match e with
  | IceCandidate (Some c) => if candidate c =? EmptyString then None else Some c
  | _ => None
  end.

Definition is_unset (u : option string) : bool :=
  match u with None => true | Some _ => false end.

(** The candidate [e] adds to the arrivals at [s]: [early = true] selects a
    candidate arriving while [sessionUrl] is unset, [early = false] one
    arriving while it is set. *)
Definition arrival (early : bool) (s : system) (e : event)
    : list RTCIceCandidate :=
  match carried e with
  | Some c =>
      if Bool.eqb (is_unset (sessionUrl (this s))) early then [c] else []
  | None => []
  end.

Section Arrivals.
Variable new_URL : string -> string -> option string.

(** The arrivals of a run from [s], in order. *)
Fixpoint arrivals (early : bool) (s : system) (evs : list event)
    : list RTCIceCandidate :=
  match evs with
  | [] => []
  | e :: rest =>
      arrival early s e ++ arrivals early (fst (step new_URL s e)) rest
  end.
End Arrivals.

(** The number of calls of [sendOffer] in [evs]. *)
Fixpoint calls_of (evs : list event) : nat :=
  match evs with
  | [] => 0
  | CallSendOffer :: rest => S (calls_of rest)
  | _ :: rest => calls_of rest
  end.

(** ** Numbers

    [simulcastVideoCount] is a JavaScript number: NaN, an infinity, or a
    finite value (the two zeros are not told apart: both are falsy and both
    are the length 0). *)

Inductive number :=
| NaN
| Infinity (negative : bool)
| Finite (q : QArith_base.Q).

(** A whole number. *)
Definition integer (z : Z) : number := Finite (QArith_base.inject_Z z).

(** ToBoolean of a number: NaN and zero are falsy. *)
Definition truthy (n : number) : bool :=
  match n with
  | NaN => false
  | Infinity _ => true
  | Finite q => negb (QArith_base.Qeq_bool q (QArith_base.inject_Z 0))
  end.

(** [Array(len)] for a number [len]: the length of the new array, which
    has no elements but is iterated over its whole length; [None] is the
    [RangeError] thrown unless [len] is a whole number from 0 to 2^32-1. *)
Definition Array (len : number) : option nat :=
  match len with
  | Finite q =>
      let r := Qreduction.Qred q in
      if ((QArith_base.Qden r =? 1)%positive
          && (0 <=? QArith_base.Qnum r)%Z
          && (QArith_base.Qnum r <? 2 ^ 32)%Z)%bool
      then Some (Z.to_nat (QArith_base.Qnum r))
      else None
  | _ => None
  end.

(** ** Module-level helpers (lines 366-391) *)

(** [navigator.mediaDevices]: absent in an insecure context; otherwise what
    [getUserMedia] settles to ([None] when it rejects). *)
Inductive mediaDevices :=
| NoMediaDevices
| MediaDevices (granted : option MediaStream).

(** [requestAccess()]: the media, or [null]. *)
Definition requestAccess (devices : mediaDevices)
    : option MediaStream * list effect :=
  match devices with
  | NoMediaDevices =>
      (None, [Console "Can't request user media (insecure context?)" LNone])
  | MediaDevices (Some media) =>
      (Some media,
       [Console "Requesting access to user media" LNone;
        GetUserMedia true true;
        Console EmptyString (LMedia media)])
  | MediaDevices None =>
      (None,
       [Console "Requesting access to user media" LNone;
        GetUserMedia true true;
        Console "Couldn't get user media" LNone])
  end.

(** [createPlayerElement(stream, container)]: the element as it is
    returned, and the DOM calls made. *)
Definition createPlayerElement (stream : MediaStream) (container : HTMLElement)
    : HTMLVideoElement * list effect :=
  let element := mkVideo true true true stream in
  (element, [CreateElement "video"; AppendChild container element]).

(** What an async method's promise settles to. *)
Inductive value :=
| undefined
| boolean (b : bool).

Inductive settled :=
| Fulfils (v : value)
| Rejects (reason : string).

(** What a role's [start] did: the media it holds afterwards, its calls,
    whether it reached [sendOffer], and how its promise settles. *)
Record started := mkStarted {
  media_after : option MediaStream;
  calls : list effect;
  negotiates : bool;
  settles : settled
}.

(** [for (const track of media.getTracks())], lines 285-288 and 329-332. *)
Definition add_tracks (media : MediaStream) : list effect :=
  flat_map (fun t => [Console "Adding track" (LText (id t)); AddTrack t]) media.

(** Lines 226-229 and 323-326, [slots] being the length of the array the
    loop runs over. *)
Definition add_transceivers (slots : nat) : list effect :=
  repeat (AddTransceiver "video" "recvonly") slots
  ++ [AddTransceiver "audio" "recvonly"].

(** [config.simulcastVideoCount || 1], lines 219 and 308. *)
Definition or_one (count : option number) : number :=
  match count with
  | Some n => if truthy n then n else integer 1
  | None => integer 1
  end.

(** ** [class WhepClient] (lines 210-259) *)

Module WhepClient.

(** The fields the subclass adds to [WebRtcClient]. *)
Record WhepClient := mk {
  outputVideoTracks : list MediaStreamTrack;
  outputAudioTrack : option MediaStreamTrack;
  videoElements : list HTMLVideoElement;
  container : option HTMLElement;
  simulcastVideoCount : number
}.

(** Lines 217-221. *)
Definition constructor (count : option number) (container : option HTMLElement)
    : WhepClient :=
  mk [] None [] container (or_one count).

(** Lines 223-232.  [Array(this.simulcastVideoCount)] is evaluated before
    any transceiver is added; when it throws, the promise of [start]
    rejects and [sendOffer] is not reached. *)
Definition start (this : WhepClient) : started :=
  match Array (simulcastVideoCount this) with
  | Some slots =>
      mkStarted None (add_transceivers slots) true (Fulfils undefined)
  | None => mkStarted None [] false (Rejects "RangeError: Invalid array length")
  end.

(** The loop of lines 245-256 from index [i], [videos] being
    [outputVideoTracks[i..]]. *)
Fixpoint pair_from (i : nat) (videos : list MediaStreamTrack)
    (audio : MediaStreamTrack) (this : WhepClient)
    : WhepClient * list effect :=
  match videos with
  | [] => (this, [])
  | video :: later =>
      match nth_error (videoElements this) i with
      | Some _ => pair_from (S i) later audio this
      | None =>
          let stream := if (i =? 0)%nat then [audio; video] else [video] in
          match container this with
          | Some c =>
              let (element, dom) := createPlayerElement stream c in
              let this1 :=
                mk (outputVideoTracks this) (outputAudioTrack this)
                   (videoElements this ++ [element]) (container this)
                   (simulcastVideoCount this) in
              let (this2, out) := pair_from (S i) later audio this1 in
              (this2, NewMediaStream stream :: dom ++ out)
          | None =>
              let (this2, out) := pair_from (S i) later audio this in
              (this2, NewMediaStream stream :: out)
          end
      end
  end.

Definition handleGotTrack (this : WhepClient) (ev : RTCTrackEvent)
    : WhepClient * list effect :=
  let videos :=
    if (kind (track ev) =? "video") && (0 <? List.length (streams ev))%nat
    then outputVideoTracks this ++ [track ev]
    else outputVideoTracks this in
  let audio :=
    if kind (track ev) =? "audio" then Some (track ev)
    else outputAudioTrack this in
  let this1 :=
    mk videos audio (videoElements this) (container this)
       (simulcastVideoCount this) in
  match audio with
  | Some a =>
      if (List.length (videoElements this1) <? List.length videos)%nat then
        let (this2, out) := pair_from 0 videos a this1 in
        (this2, Console "Got a track" (LTrack ev) :: out)
      else (this1, [Console "Got a track" (LTrack ev)])
  | None => (this1, [Console "Got a track" (LTrack ev)])
  end.

(** The handler over successive 'track' events: the client afterwards and
    what each notification did. *)
Fixpoint handleGotTracks (this : WhepClient) (evs : list RTCTrackEvent)
    : WhepClient * list (list effect) :=
  match evs with
  | [] => (this, [])
  | ev :: later =>
      let (this1, out) := handleGotTrack this ev in
      let (this2, outs) := handleGotTracks this1 later in
      (this2, out :: outs)
  end.

End WhepClient.

(** ** [class WhipClient] (lines 264-293) *)

Module WhipClient.

Record WhipClient := mk {
  media : option MediaStream
}.

(** [start()]; [devices] is what the platform answers to [requestAccess],
    [negotiation] how the awaited [sendOffer] settles: [None] when it
    fulfils, the reason when it rejects. *)
Definition start (this : WhipClient) (devices : mediaDevices)
    (negotiation : option string) : started :=
  let (media1, out1) :=
    match media this with
    | None => requestAccess devices
    | Some m => (Some m, [])
    end in
  match media1 with
  | None =>
      mkStarted None (out1 ++ [Console "Could not access media devices" LNone])
        false (Fulfils (boolean false))
  | Some m =>
      mkStarted (Some m) (out1 ++ add_tracks m) true
        match negotiation with
        | Some reason => Rejects reason
        | None => Fulfils (boolean true)
        end
  end.

End WhipClient.

(** ** [class DuplexClient] (lines 297-364) *)

Module DuplexClient.

Record DuplexClient := mk {
  media : option MediaStream;
  outputVideoTracks : list MediaStreamTrack;
  outputAudioTrack : option MediaStreamTrack;
  videoElements : list HTMLVideoElement;
  container : option HTMLElement;
  simulcastVideoCount : number
}.

(** Lines 306-310; [inDocument] is
    [document.getElementById('container')]. *)
Definition constructor (count : option number) (container : option HTMLElement)
    (inDocument : option HTMLElement) : DuplexClient :=
  mk None [] None []
     match container with
     | Some c => Some c
     | None => inDocument
     end
     (or_one count).

(** Lines 316-336.  [Array(this.simulcastVideoCount)] is evaluated after
    the media request; when it throws, the promise of [start] rejects and
    neither a transceiver nor a track is added. *)
Definition start (this : DuplexClient) (devices : mediaDevices) : started :=
  let (media1, out1) :=
    match media this with
    | None => requestAccess devices
    | Some m => (Some m, [])
    end in
  match Array (simulcastVideoCount this) with
  | Some slots =>
      mkStarted media1
        (out1 ++ add_transceivers slots
         ++ match media1 with
            | Some m => add_tracks m
            | None => []
            end)
        true (Fulfils undefined)
  | None =>
      mkStarted media1 out1 false (Rejects "RangeError: Invalid array length")
  end.

Fixpoint pair_from (i : nat) (videos : list MediaStreamTrack)
    (audio : MediaStreamTrack) (this : DuplexClient)
    : DuplexClient * list effect :=
  match videos with
  | [] => (this, [])
  | video :: later =>
      match nth_error (videoElements this) i with
      | Some _ => pair_from (S i) later audio this
      | None =>
          let stream := if (i =? 0)%nat then [audio; video] else [video] in
          match container this with
          | Some c =>
              let (element, dom) := createPlayerElement stream c in
              let this1 :=
                mk (media this) (outputVideoTracks this) (outputAudioTrack this)
                   (videoElements this ++ [element]) (container this)
                   (simulcastVideoCount this) in
              let (this2, out) := pair_from (S i) later audio this1 in
              (this2, NewMediaStream stream :: dom ++ out)
          | None =>
              let (this2, out) := pair_from (S i) later audio this in
              (this2, NewMediaStream stream :: out)
          end
      end
  end.

Definition handleGotTrack (this : DuplexClient) (ev : RTCTrackEvent)
    : DuplexClient * list effect :=
  let videos :=
    if (kind (track ev) =? "video") && (0 <? List.length (streams ev))%nat
    then outputVideoTracks this ++ [track ev]
    else outputVideoTracks this in
  let audio :=
    if kind (track ev) =? "audio" then Some (track ev)
    else outputAudioTrack this in
  let this1 :=
    mk (media this) videos audio (videoElements this) (container this)
       (simulcastVideoCount this) in
  match audio with
  | Some a =>
      if (List.length (videoElements this1) <? List.length videos)%nat then
        let (this2, out) := pair_from 0 videos a this1 in
        (this2, Console "Got a track" (LTrack ev) :: out)
      else (this1, [Console "Got a track" (LTrack ev)])
  | None => (this1, [Console "Got a track" (LTrack ev)])
  end.

Fixpoint handleGotTracks (this : DuplexClient) (evs : list RTCTrackEvent)
    : DuplexClient * list (list effect) :=
  match evs with
  | [] => (this, [])
  | ev :: later =>
      let (this1, out) := handleGotTrack this ev in
      let (this2, outs) := handleGotTracks this1 later in
      (this2, out :: outs)
  end.

End DuplexClient.

(** An instance of the URL parser for the examples: an absolute-path
    reference resolved against a base with an authority keeps the base's
    origin (the text before its third slash). *)
Fixpoint origin_of (slashes : nat) (s : string) : string :=
  match s with
  | EmptyString => EmptyString
  | String c rest =>
      if Ascii.eqb c "/" then
        match slashes with
        | 0 => EmptyString
        | S n => String c (origin_of n rest)
        end
      else String c (origin_of slashes rest)
  end.

Definition resolve_path (input base : string) : option string :=
  match input with
  | String c _ =>
      if Ascii.eqb c "/" then Some (origin_of 2 base ++ input)%string else None
  | EmptyString => None
  end.

(** A chunk of output that does not open with a [fetch]: appending it
    cannot complete a relay begun before it. *)
Definition opens_clean (out : list effect) : Prop :=
  match out with
  | Fetch _ :: _ => False
  | _ => True
  end.

(** The request of line 109 for candidate [c], spelled out. *)
Definition trickle_request (session : string) (c : RTCIceCandidate) : Request :=
  mkRequest session "PATCH" "application/trickle-ice-sdpfrag"
    ("m=audio 9 RTP/AVP 0" ++ CRLF
     ++ "a=ice-ufrag:" ++ ToString (usernameFragment c) ++ CRLF
     ++ "a=mid:" ++ ToString (sdpMid c) ++ CRLF
     ++ "a=" ++ candidate c)%string.

(** The requests [sendCandidate] makes for the candidates [cs] while
    [sessionUrl] is [session], in order; none while it is unset. *)
Definition requests (session : option string) (cs : list RTCIceCandidate)
    : list Request :=
  match session with
  | Some u => map (trickle_request u) cs
  | None => []
  end.

(** *** A client on which [sendOffer] is called once

    The call is number 0.  How its suspension point bounds [sessionUrl]
    and its flush: the session URL is assigned by line 72 only, and the
    flush is called by line 85 only. *)
Definition pc_ok (s : system) : Prop :=
  match offer (call s 0) with
  | OfferNotCalled | AwaitCreateOffer | AwaitSetLocalDescription _ | AwaitFetch =>
      sessionUrl (this s) = None /\ flush (call s 0) = FlushNotCalled
  | AwaitText | AwaitSetRemoteDescription =>
      sessionUrl (this s) <> None /\ flush (call s 0) = FlushNotCalled
  | OfferReturned =>
      flush (call s 0) = FlushNotCalled <-> sessionUrl (this s) = None
  | OfferThrown _ => flush (call s 0) = FlushNotCalled
  end.

(** The queue against the trace: [queued] are the candidates that arrived
    before [sessionUrl] was set, [out] the output so far. *)
Definition queue_ok (s : system) (out : list effect)
    (queued : list RTCIceCandidate) : Prop :=
  let sent := requests (sessionUrl (this s)) in
  match flush (call s 0) with
  | FlushNotCalled =>
      cachedCandidates (this s) = queued /\ relayed true out = []
  | FlushAwaitSend array i =>
      array = None /\ cachedCandidates (this s) = queued /\
      relayed true out = sent (firstn (S i) queued) /\ i < List.length queued
  | FlushReturned =>
      cachedCandidates (this s) = [] /\ relayed true out = sent queued
  | FlushThrown =>
      cachedCandidates (this s) = queued /\
      exists k, relayed true out = sent (firstn k queued)
  end.

(** [direct] are the candidates that arrived after [sessionUrl] was set.
    Every PATCH of the trace is one of the relays. *)
Definition invariant (s : system) (out : list effect)
    (queued direct : list RTCIceCandidate) : Prop :=
  List.length (activations s) <= 1 /\
  pc_ok s /\ queue_ok s out queued /\
  relayed false out = requests (sessionUrl (this s)) direct /\
  (sessionUrl (this s) = None -> direct = []) /\
  Permutation (patches out) (relayed true out ++ relayed false out).

(** Events that let the flush of call 0 run on: further candidate
    notifications, and PATCH requests of the flush that fulfil. *)
Definition benign (e : event) : Prop :=
  match e with
  | IceCandidate _ | Settled 0 (TrickleSettled true) => True
  | _ => False
  end.

(** The number of fulfilled PATCH settlements of call 0 in [evs]. *)
Fixpoint fulfilments (evs : list event) : nat :=
  match evs with
  | [] => 0
  | Settled 0 (TrickleSettled true) :: rest => S (fulfilments rest)
  | _ :: rest => fulfilments rest
  end.

(** Every candidate the notifications of [evs] carry, in arrival order. *)
Fixpoint discovered (evs : list event) : list RTCIceCandidate :=
  match evs with
  | [] => []
  | e :: rest =>
      match carried e with
      | Some c => c :: discovered rest
      | None => discovered rest
      end
  end.
Definition is_console (e : effect) : Prop :=
  match e with
  | Console _ _ => True
  | _ => False
  end.

(** The one call of [sendOffer] has ended without a session: it returned
    from line 65 or threw, [sessionUrl] is unset and the flush was never
    called. *)
Definition halted (s : system) : Prop :=
  List.length (activations s) <= 1 /\
  (offer (call s 0) = OfferReturned \/
   exists message, offer (call s 0) = OfferThrown message) /\
  flush (call s 0) = FlushNotCalled /\
  sessionUrl (this s) = None.

(** An activation as [sendOffer] makes it: it has been called, and its
    flush is called by line 85 only, after which [sendOffer] returns. *)
Definition sane (a : activation) : Prop :=
  offer a <> OfferNotCalled /\
  (flush a <> FlushNotCalled -> offer a = OfferReturned).

(** A call of [sendOffer] that is over, and so is its flush if it called
    one: nothing is awaited any more. *)
Definition over (a : activation) : Prop :=
  (offer a = OfferReturned \/ exists message, offer a = OfferThrown message) /\
  (flush a = FlushNotCalled \/ flush a = FlushReturned \/ flush a = FlushThrown).

(** A call of [sendOffer] that has not got past line 72. *)
Definition unanswered (a : activation) : Prop :=
  flush a = FlushNotCalled /\
  offer a <> AwaitText /\ offer a <> AwaitSetRemoteDescription.

(** An iterator that stands on an array the field has left stands on
    candidates that were notified in [evs]. *)
Definition stands_on_discovered (evs : list event) (a : activation) : Prop :=
  forall items i,
    flush a = FlushAwaitSend (Some items) i ->
    forall c, In c items -> In c (discovered evs).

(** [session] is the [Location] of a 2xx answer delivered in [evs],
    resolved against [endpoint]. *)
Definition answered_with (new_URL : string -> string -> option string)
    (endpoint : string) (evs : list event) (session : string) : Prop :=
  exists k response location,
    In (Settled k (Responded response)) evs /\ ok response = true /\
    get "Location" (headers response) = Some location /\
    new_URL location endpoint = Some session.

(** The stream groupings of lines 248-252 for the recorded video tracks:
    the first with the audio track, every other on its own. *)
Definition groupings (audio : MediaStreamTrack) (videos : list MediaStreamTrack)
    : list MediaStream :=
  match videos with
  | [] => []
  | first :: others => [audio; first] :: map (fun video => [video]) others
  end.

(** The same groupings by loop index, from index [i] on. *)
Fixpoint groupings_from (i : nat) (audio : MediaStreamTrack)
    (videos : list MediaStreamTrack) : list MediaStream :=
  match videos with
  | [] => []
  | video :: later =>
      (if (i =? 0)%nat then [audio; video] else [video])
      :: groupings_from (S i) audio later
  end.

(** A duplex client seen as a subscriber: the fields the two classes
    share. *)
Definition as_whep (d : DuplexClient.DuplexClient) : WhepClient.WhepClient :=
  WhepClient.mk (DuplexClient.outputVideoTracks d) (DuplexClient.outputAudioTrack d)
    (DuplexClient.videoElements d) (DuplexClient.container d)
    (DuplexClient.simulcastVideoCount d).

(** One pairing handed to the rendering collaborator: the stream is
    created and [createPlayerElement] puts its player into [container]. *)
Definition rendered (container : HTMLElement) (stream : MediaStream)
    : list effect :=
  [NewMediaStream stream; CreateElement "video";
   AppendChild container (mkVideo true true true stream)].

(** An 'icecandidate' notification without a candidate line: the end of
    gathering (line 34). *)
Definition end_of_gathering (e : event) : bool :=
  match e with
  | IceCandidate None => true
  | IceCandidate (Some c) => candidate c =? EmptyString
  | _ => false
  end.

(** The calls of a trace other than console lines. *)
Definition outward (out : list effect) : list effect :=
  filter (fun e => match e with Console _ _ => false | _ => true end) out.

(** An optional descriptor field that, when present, is not empty. *)
Definition present (v : option string) : Prop :=
  match v with
  | Some s => s <> EmptyString
  | None => True
  end.

(** The shape of every descriptor [receiveIceServers] builds. *)
Definition well_formed (server : RTCIceServer) : Prop :=
  (exists url, urls server = [url] /\ url <> EmptyString) /\
  present (username server) /\ present (credential server) /\
  present (credentialType server).

(** [s] has no occurrence of [c]. *)
Fixpoint lacks (c : ascii) (s : string) : bool :=
  match s with
  | EmptyString => true
  | String d rest => negb (Ascii.eqb d c) && lacks c rest
  end.

(** A value free of the characters the header syntax uses: comma,
    semicolon, equals sign, double quote and the line terminators. *)
Definition plain (s : string) : bool :=
  lacks "," s && lacks ";" s && lacks "=" s && lacks dquote s
  && lacks (ascii_of_nat 10) s && lacks (ascii_of_nat 13) s.

(** A [Link] entry as a server writes it for a relay server with a user
    name and a credential. *)
Definition link_entry (url user secret : string) : string :=
  ("<" ++ url ++ ">; rel=" ++ quoted "ice-server"
   ++ "; username=" ++ quoted user ++ "; credential=" ++ quoted secret)%string.

(** A 'track' notification whose track is recorded as a video track
    (line 237). *)
Definition recordable (ev : RTCTrackEvent) : bool :=
  (kind (track ev) =? "video") && (0 <? List.length (streams ev))%nat.

(** A 'track' notification of an audio track (line 240). *)
Definition is_audio (ev : RTCTrackEvent) : bool := kind (track ev) =? "audio".

(** What a subscriber with container [c] has made of the notifications
    [evs], given the calls [out] of all its handlers: one player per
    recorded video track, each rendered once and in order, the first with
    an audio track that arrived, and none before an audio track arrived. *)
Definition paired_once (c : HTMLElement) (evs : list RTCTrackEvent)
    (this : WhepClient.WhepClient) (out : list effect) : Prop :=
  WhepClient.container this = Some c /\
  WhepClient.outputVideoTracks this = map track (filter recordable evs) /\
  exists streams,
    outward out = flat_map (rendered c) streams /\
    WhepClient.videoElements this = map (mkVideo true true true) streams /\
    match WhepClient.outputAudioTrack this with
    | None => streams = []
    | Some audio =>
        In audio (map track (filter is_audio evs)) /\
        exists first,
          In first (map track (filter is_audio evs)) /\
          streams = groupings first (WhepClient.outputVideoTracks this)
    end.

(** *** The paths of a step

    What one step does, path by path through the source: the state after
    it and the calls made.  [receiveIceServers] is left as it is. *)

Definition awaiting (pc : sendOffer_pc) : Prop :=
  match pc with
  | AwaitCreateOffer | AwaitSetLocalDescription _ | AwaitFetch | AwaitText
  | AwaitSetRemoteDescription => True
  | _ => False
  end.

Definition line_85 : list effect :=
  [Console "Applied remote description" LNone;
   Console "Peer connection state" LNone].

Section Paths.
Variable new_URL : string -> string -> option string.

Inductive transition (s : system) : event -> system -> list effect -> Prop :=
| path_ice_done : forall ev,
    carried (IceCandidate ev) = None ->
    transition s (IceCandidate ev) s
      [Console "client ice candidate gathering is done" LNone]
| path_ice_cache : forall c,
    carried (IceCandidate (Some c)) = Some c ->
    sessionUrl (this s) = None ->
    transition s (IceCandidate (Some c))
      (mkSystem (set_cachedCandidates (this s) (cachedCandidates (this s) ++ [c]))
         (activations s))
      [Console "received candidate before response from session create, caching"
         (LCandidate c)]
| path_ice_send : forall c session,
    carried (IceCandidate (Some c)) = Some c ->
    sessionUrl (this s) = Some session ->
    transition s (IceCandidate (Some c)) s
      [Console (sending_text false) (LCandidate c);
       Fetch (trickle_request session c)]
| path_called :
    transition s CallSendOffer
      (mkSystem (this s)
         (activations s ++ [mkActivation AwaitCreateOffer FlushNotCalled]))
      [CreateOffer]
| path_ignored : forall k p,
    transition s (Settled k p) s []
| path_created : forall k sdp,
    offer (call s k) = AwaitCreateOffer ->
    transition s (Settled k (OfferCreated sdp))
      (set_offer s k (AwaitSetLocalDescription sdp)) [SetLocalDescription sdp]
| path_local_set : forall k sdp,
    offer (call s k) = AwaitSetLocalDescription sdp ->
    transition s (Settled k LocalDescriptionSet)
      (set_offer s k AwaitFetch)
      [Console "received local offer, sending to server" (LText sdp);
       Fetch (mkRequest (endpointUrl (this s)) "POST" "application/sdp" sdp)]
| path_refused : forall k response,
    offer (call s k) = AwaitFetch ->
    ok response = false ->
    transition s (Settled k (Responded response))
      (set_offer s k OfferReturned) [DispatchEvent "responseerror" response]
| path_no_location : forall k response,
    offer (call s k) = AwaitFetch ->
    ok response = true ->
    get "Location" (headers response) = None ->
    transition s (Settled k (Responded response))
      (set_offer
         (mkSystem (fst (receiveIceServers (this s) (headers response)))
            (activations s))
         k (OfferThrown "Session not provided in Location header"))
      (snd (receiveIceServers (this s) (headers response)))
| path_bad_location : forall k response location,
    offer (call s k) = AwaitFetch ->
    ok response = true ->
    get "Location" (headers response) = Some location ->
    new_URL location (endpointUrl (this s)) = None ->
    transition s (Settled k (Responded response))
      (set_offer
         (mkSystem (fst (receiveIceServers (this s) (headers response)))
            (activations s))
         k (OfferThrown "TypeError: Invalid URL"))
      (snd (receiveIceServers (this s) (headers response)))
| path_located : forall k response location session,
    offer (call s k) = AwaitFetch ->
    ok response = true ->
    get "Location" (headers response) = Some location ->
    new_URL location (endpointUrl (this s)) = Some session ->
    transition s (Settled k (Responded response))
      (set_offer
         (mkSystem
            (set_sessionUrl (fst (receiveIceServers (this s) (headers response)))
               session)
            (activations s))
         k AwaitText)
      (snd (receiveIceServers (this s) (headers response)))
| path_body_read : forall k remoteOffer,
    offer (call s k) = AwaitText ->
    transition s (Settled k (BodyRead remoteOffer))
      (set_offer s k AwaitSetRemoteDescription)
      [Console "Got response" (LText remoteOffer);
       SetRemoteDescription "answer" remoteOffer]
| path_rejected : forall k reason,
    awaiting (offer (call s k)) ->
    transition s (Settled k (OfferRejected reason))
      (set_offer s k (OfferThrown reason)) []
| path_flush_first : forall k c session,
    offer (call s k) = AwaitSetRemoteDescription ->
    nth_error (cachedCandidates (this s)) 0 = Some c ->
    sessionUrl (this s) = Some session ->
    transition s (Settled k RemoteDescriptionSet)
      (set_flush (set_offer s k OfferReturned) k (FlushAwaitSend None 0))
      (line_85 ++ [Console (sending_text true) (LCandidate c);
                   Fetch (trickle_request session c)])
| path_flush_first_throws : forall k c,
    offer (call s k) = AwaitSetRemoteDescription ->
    nth_error (cachedCandidates (this s)) 0 = Some c ->
    sessionUrl (this s) = None ->
    transition s (Settled k RemoteDescriptionSet)
      (set_flush (set_offer s k OfferReturned) k FlushThrown)
      (line_85 ++ [Console (sending_text true) (LCandidate c)])
| path_flush_nothing : forall k,
    offer (call s k) = AwaitSetRemoteDescription ->
    cachedCandidates (this s) = [] ->
    transition s (Settled k RemoteDescriptionSet)
      (set_flush (reassign_cachedCandidates (set_offer s k OfferReturned))
         k FlushReturned)
      line_85
| path_flush_next : forall k array i c session,
    flush (call s k) = FlushAwaitSend array i ->
    nth_error (iterated s array) (S i) = Some c ->
    sessionUrl (this s) = Some session ->
    transition s (Settled k (TrickleSettled true))
      (set_flush s k (FlushAwaitSend array (S i)))
      [Console (sending_text true) (LCandidate c);
       Fetch (trickle_request session c)]
| path_flush_next_throws : forall k array i c,
    flush (call s k) = FlushAwaitSend array i ->
    nth_error (iterated s array) (S i) = Some c ->
    sessionUrl (this s) = None ->
    transition s (Settled k (TrickleSettled true))
      (set_flush s k FlushThrown)
      [Console (sending_text true) (LCandidate c)]
| path_flush_end : forall k array i,
    flush (call s k) = FlushAwaitSend array i ->
    nth_error (iterated s array) (S i) = None ->
    transition s (Settled k (TrickleSettled true))
      (set_flush (reassign_cachedCandidates s) k FlushReturned) []
| path_flush_failed : forall k array i,
    flush (call s k) = FlushAwaitSend array i ->
    transition s (Settled k (TrickleSettled false))
      (set_flush s k FlushThrown) [].

End Paths.

(** ** The constructor of [WebRtcClient] (lines 14-31) *)

Module WebRtcClientConfig.

(** A config object; [url] is [None] when the property is missing. *)
Record t := mk {
  url : option string;
  iceServers : option (list RTCIceServer)
}.

End WebRtcClientConfig.

(** What a caller passes as [config]: nothing or [undefined], [null], a
    primitive value (of which 0, NaN, the empty string and [false] are
    falsy), or an object. *)
Inductive argument :=
| Undefined
| Null
| Primitive (truthy : bool)
| Object (config : WebRtcClientConfig.t).

(** What a [throw] carries: a [TypeError] of the platform, or an [Error]
    of the source with its message. *)
Inductive thrown :=
| TypeError
| Error (message : string).

(** How a [new WebRtcClient(config)] ends; [created] tells whether the
    [RTCPeerConnection] of line 16 was made on the way, [listening] the
    event types the client subscribed to on it. *)
Record construction := mkConstruction {
  created : bool;
  listening : list string;
  outcome : thrown + system
}.

Section Constructor.

Variable new_URL : string -> string -> option string.

(** [location] is [document.location.href].  Line 18 reads
    [config.iceServers]: that throws on [undefined] and [null] and gives
    [undefined] on a primitive.  Lines 20 and 23 test [config] and
    [config.url] afterwards. *)
Definition constructor (location : string) (config : argument)
    : construction :=
  match config with
  | Undefined | Null => mkConstruction false [] (inl TypeError)
  | Primitive false =>
      mkConstruction true [] (inl (Error "Config is required"))
  | Primitive true =>
      mkConstruction true [] (inl (Error "Must specify endpoint url in config"))
  | Object cfg =>
      match WebRtcClientConfig.url cfg with
      | None =>
          mkConstruction true []
            (inl (Error "Must specify endpoint url in config"))
      | Some url =>
          if url =? EmptyString then
            mkConstruction true []
              (inl (Error "Must specify endpoint url in config"))
          else
            match new_URL url location with
            | None => mkConstruction true [] (inl TypeError)
            | Some endpoint =>
                mkConstruction true
                  ["icecandidate"; "iceconnectionstatechange"; "track"]
                  (inr (constructed endpoint
                          match WebRtcClientConfig.iceServers cfg with
                          | Some servers => servers
                          | None => []
                          end))
            end
      end
  end.

End Constructor.

(** ** Values for the examples *)

Definition sample_c1 : RTCIceCandidate :=
  mkCandidate "candidate:1 1 udp 2122260223 192.0.2.1 54321 typ host"
    (Some "0") (Some "EsAw").

Definition sample_c2 : RTCIceCandidate :=
  mkCandidate "candidate:2 1 udp 1686052607 198.51.100.7 61000 typ srflx"
    (Some "0") (Some "EsAw").

Definition sample_endpoint : string := "https://media.example.com/whip/endpoint".

Definition sample_session : string := "https://media.example.com/session/abc123".

Definition sample_created : Response :=
  mkResponse 201 [("Location", "/session/abc123")].

(** The [Link] value of the relay-server scenario, and the descriptor it
    stands for. *)
Definition sample_link : string :=
  ("<turn:example.com>; rel=" ++ quoted "ice-server"
   ++ "; username=" ++ quoted "u" ++ "; credential=" ++ quoted "p")%string.

Definition sample_turn : RTCIceServer :=
  mkServer ["turn:example.com"] (Some "u") (Some "p") None.

(** A 2xx answer that names relay servers but no session. *)
Definition sample_no_location : Response :=
  mkResponse 201 [("Link", sample_link)].

(** A non-2xx answer; its headers are not looked at. *)
Definition sample_refused : Response :=
  mkResponse 503 [("Location", "/session/abc123"); ("Link", sample_link)].

Definition sample_video1 : MediaStreamTrack := mkTrack "video" "v1".
Definition sample_video2 : MediaStreamTrack := mkTrack "video" "v2".
Definition sample_video3 : MediaStreamTrack := mkTrack "video" "v3".
Definition sample_audio : MediaStreamTrack := mkTrack "audio" "a1".

(** The arrival sequence video1, video2, audio, video3, every track on the
    stream [remote]. *)
Definition sample_arrivals : list RTCTrackEvent :=
  [mkTrackEvent sample_video1 ["remote"]; mkTrackEvent sample_video2 ["remote"];
   mkTrackEvent sample_audio ["remote"]; mkTrackEvent sample_video3 ["remote"]].

(** The offer sent and one candidate queued, the POST still in flight. *)
Definition sample_offer_sent : list event :=
  [CallSendOffer; Settled 0 (OfferCreated "v=0"); Settled 0 LocalDescriptionSet;
   IceCandidate (Some sample_c1)].

(** * Properties *)

(** ** Runs and traces *)

Section RunFacts.
Variable new_URL : string -> string -> option string.

Lemma run_app : forall evs1 evs2 s,
  run new_URL s (evs1 ++ evs2) =
  let (s1, out1) := run new_URL s evs1 in
  let (s2, out2) := run new_URL s1 evs2 in
  (s2, out1 ++ out2).
Proof.
  induction evs1 as [|e evs1 IH]; intros evs2 s; simpl.
  - destruct (run new_URL s evs2); reflexivity.
  - destruct (step new_URL s e) as [s1 out1].
    rewrite IH.
    destruct (run new_URL s1 evs1) as [s2 out2].
    destruct (run new_URL s2 evs2) as [s3 out3].
    now rewrite app_assoc.
Qed.

Lemma run_cons : forall e evs s,
  run new_URL s (e :: evs) =
  (fst (run new_URL (fst (step new_URL s e)) evs),
   snd (step new_URL s e) ++ snd (run new_URL (fst (step new_URL s e)) evs)).
Proof.
  intros e evs s; simpl.
  destruct (step new_URL s e) as [s1 out1]; simpl.
  destruct (run new_URL s1 evs); reflexivity.
Qed.

Lemma run_app_fst : forall evs1 evs2 s,
  fst (run new_URL s (evs1 ++ evs2)) =
  fst (run new_URL (fst (run new_URL s evs1)) evs2).
Proof.
  intros. rewrite run_app.
  destruct (run new_URL s evs1) as [s1 o1]; cbn [fst].
  destruct (run new_URL s1 evs2); reflexivity.
Qed.

Lemma run_app_snd : forall evs1 evs2 s,
  snd (run new_URL s (evs1 ++ evs2)) =
  snd (run new_URL s evs1) ++ snd (run new_URL (fst (run new_URL s evs1)) evs2).
Proof.
  intros. rewrite run_app.
  destruct (run new_URL s evs1) as [s1 o1]; cbn [fst snd].
  destruct (run new_URL s1 evs2); reflexivity.
Qed.

Lemma run_snoc_fst : forall evs e s,
  fst (run new_URL s (evs ++ [e])) =
  fst (step new_URL (fst (run new_URL s evs)) e).
Proof. intros. rewrite run_app_fst, run_cons. reflexivity. Qed.

Lemma run_snoc_snd : forall evs e s,
  snd (run new_URL s (evs ++ [e])) =
  snd (run new_URL s evs) ++ snd (step new_URL (fst (run new_URL s evs)) e).
Proof.
  intros. rewrite run_app_snd, run_cons. cbn [run snd].
  now rewrite app_nil_r.
Qed.

End RunFacts.

Lemma calls_of_app : forall evs1 evs2,
  calls_of (evs1 ++ evs2) = calls_of evs1 + calls_of evs2.
Proof.
  induction evs1 as [|[] evs1 IH]; intros evs2; cbn [calls_of app];
    rewrite ?IH; reflexivity.
Qed.

(** ** Activations *)

Lemma update_length : forall (A : Type) (f : A -> A) l k,
  List.length (update k f l) = List.length l.
Proof.
  induction l as [|x l IH]; intros [|k]; cbn [update List.length]; auto.
Qed.

Lemma nth_update_same : forall (A : Type) (f : A -> A) l k d,
  k < List.length l -> nth k (update k f l) d = f (nth k l d).
Proof.
  induction l as [|x l IH]; intros [|k] d H; cbn [update nth List.length] in *;
    try lia; auto.
  apply IH. lia.
Qed.

Lemma nth_update_other : forall (A : Type) (f : A -> A) l k j d,
  j <> k -> nth j (update k f l) d = nth j l d.
Proof.
  induction l as [|x l IH]; intros [|k] [|j] d H; cbn [update nth]; auto;
    try (now destruct H).
Qed.

Lemma update_overflow : forall (A : Type) (f : A -> A) l k,
  List.length l <= k -> update k f l = l.
Proof.
  induction l as [|x l IH]; intros [|k] H; cbn [update List.length] in *;
    auto; try lia.
  f_equal. apply IH. lia.
Qed.

Lemma Forall_update : forall (A : Type) (P : A -> Prop) (f : A -> A) l k,
  Forall P l -> (forall x, P x -> P (f x)) -> Forall P (update k f l).
Proof.
  induction l as [|x l IH]; intros k H Hf; [exact H|].
  inversion H; subst. destruct k; cbn [update]; constructor; auto.
Qed.

Lemma call_overflow : forall s k,
  List.length (activations s) <= k -> call s k = not_called.
Proof. intros s k H. unfold call. now apply nth_overflow. Qed.

Lemma called_offer : forall s k,
  offer (call s k) <> OfferNotCalled -> k < List.length (activations s).
Proof.
  intros s k H. destruct (Nat.lt_ge_cases k (List.length (activations s))); auto.
  rewrite call_overflow in H by assumption. now destruct H.
Qed.

Lemma called_flush : forall s k,
  flush (call s k) <> FlushNotCalled -> k < List.length (activations s).
Proof.
  intros s k H. destruct (Nat.lt_ge_cases k (List.length (activations s))); auto.
  rewrite call_overflow in H by assumption. now destruct H.
Qed.

Lemma call_In : forall s k,
  k < List.length (activations s) -> In (call s k) (activations s).
Proof. intros s k H. unfold call. now apply nth_In. Qed.

Lemma call_set_offer_same : forall s k pc,
  k < List.length (activations s) ->
  call (set_offer s k pc) k = mkActivation pc (flush (call s k)).
Proof.
  intros s k pc H. unfold call, set_offer. cbn [activations].
  now rewrite nth_update_same.
Qed.

Lemma call_set_flush_same : forall s k fl,
  k < List.length (activations s) ->
  call (set_flush s k fl) k = mkActivation (offer (call s k)) fl.
Proof.
  intros s k fl H. unfold call, set_flush. cbn [activations].
  now rewrite nth_update_same.
Qed.

Lemma call_set_offer_other : forall s k j pc,
  j <> k -> call (set_offer s k pc) j = call s j.
Proof.
  intros. unfold call, set_offer. cbn [activations].
  now rewrite nth_update_other.
Qed.

Lemma call_set_flush_other : forall s k j fl,
  j <> k -> call (set_flush s k fl) j = call s j.
Proof.
  intros. unfold call, set_flush. cbn [activations].
  now rewrite nth_update_other.
Qed.

Lemma call_reassign : forall s k,
  call (reassign_cachedCandidates s) k =
  detach (cachedCandidates (this s)) (call s k).
Proof.
  intros s k. unfold call, reassign_cachedCandidates. cbn [activations].
  change not_called with (detach (cachedCandidates (this s)) not_called) at 1.
  apply map_nth.
Qed.

Lemma detach_offer : forall items a, offer (detach items a) = offer a.
Proof.
  intros items [pc fl]. unfold detach. cbn [flush offer].
  destruct fl as [|[|] i| |]; reflexivity.
Qed.

Lemma detach_settled : forall items a,
  (forall i, flush a <> FlushAwaitSend None i) -> detach items a = a.
Proof.
  intros items [pc fl] H. unfold detach. cbn [flush offer] in *.
  destruct fl as [|[|] i| |]; try reflexivity. now destruct (H i).
Qed.

Lemma length_set_offer : forall s k pc,
  List.length (activations (set_offer s k pc)) = List.length (activations s).
Proof. intros. unfold set_offer. cbn [activations]. apply update_length. Qed.

Lemma length_set_flush : forall s k fl,
  List.length (activations (set_flush s k fl)) = List.length (activations s).
Proof. intros. unfold set_flush. cbn [activations]. apply update_length. Qed.

Lemma length_reassign : forall s,
  List.length (activations (reassign_cachedCandidates s)) =
  List.length (activations s).
Proof.
  intros. unfold reassign_cachedCandidates. cbn [activations]. apply length_map.
Qed.

(** ** The paths of a step *)

Lemma trickle_body_spelled : forall session c,
  mkRequest session "PATCH" "application/trickle-ice-sdpfrag" (trickle_body c) =
  trickle_request session c.
Proof. reflexivity. Qed.

(** Case analysis on the innermost scrutinee of the goal. *)
Ltac break_inner x :=
  lazymatch x with
  | context [match ?y with _ => _ end] => break_inner y
  | _ => let E := fresh "E" in destruct x eqn:E
  end.

Ltac break_match :=
  match goal with
  | |- context [match ?x with _ => _ end] => break_inner x
  end.

Section StepPaths.
Variable new_URL : string -> string -> option string.

Lemma step_transition : forall s e,
  transition new_URL s e (fst (step new_URL s e)) (snd (step new_URL s e)).
Proof.
  intros s e. destruct e as [ev| |k p].
  - cbn [step]. unfold handleIceCandidateFromClient, sendCandidate.
    destruct ev as [c|]; [|cbn [fst snd]; destruct s; now apply path_ice_done].
    destruct (candidate c =? EmptyString) eqn:Ec.
    { cbn [fst snd]. destruct s. apply path_ice_done. cbn [carried]. now rewrite Ec. }
    destruct (sessionUrl (this s)) as [session|] eqn:Es; cbn [fst snd].
    + destruct s. apply path_ice_send; auto. cbn [carried]. now rewrite Ec.
    + apply path_ice_cache; auto. cbn [carried]. now rewrite Ec.
  - cbn [step fst snd]. apply path_called.
  - destruct p as [sdp| |response|text| |reason|fulfilled]; cbn [step].
    + unfold sendOffer_resume. destruct (offer (call s k)) eqn:Eo; cbn [fst snd];
        try apply path_ignored. now apply path_created.
    + unfold sendOffer_resume. destruct (offer (call s k)) eqn:Eo; cbn [fst snd];
        try apply path_ignored. now apply path_local_set.
    + unfold sendOffer_resume. destruct (offer (call s k)) eqn:Eo; cbn [fst snd];
        try apply path_ignored.
      unfold sendOffer_response, onResponseError.
      destruct (ok response) eqn:Eok; cbn [negb fst snd]; [|now apply path_refused].
      destruct (receiveIceServers (this s) (headers response)) as [this1 out1] eqn:Er.
      replace this1 with (fst (receiveIceServers (this s) (headers response)))
        by now rewrite Er.
      replace out1 with (snd (receiveIceServers (this s) (headers response)))
        by now rewrite Er.
      assert (Ee : endpointUrl (fst (receiveIceServers (this s) (headers response)))
                   = endpointUrl (this s)).
      { unfold receiveIceServers. repeat break_match; reflexivity. }
      destruct (get "Location" (headers response)) as [location|] eqn:El;
        cbn [fst snd]; [|now apply path_no_location].
      rewrite Ee.
      destruct (new_URL location (endpointUrl (this s))) eqn:En; cbn [fst snd].
      * eapply path_located; eauto.
      * eapply path_bad_location; eauto.
    + unfold sendOffer_resume. destruct (offer (call s k)) eqn:Eo; cbn [fst snd];
        try apply path_ignored. now apply path_body_read.
    + unfold sendOffer_resume. destruct (offer (call s k)) eqn:Eo; cbn [fst snd];
        try apply path_ignored.
      unfold sendCachedCandidates, sendCachedCandidates_from, sendCandidate.
      cbn [iterated this set_offer].
      destruct (nth_error (cachedCandidates (this s)) 0) as [c|] eqn:En.
      * destruct (sessionUrl (this s)) as [session|] eqn:Es; cbn [fst snd].
        -- now apply path_flush_first.
        -- now apply path_flush_first_throws.
      * cbn [fst snd]. apply path_flush_nothing; auto.
        destruct (cachedCandidates (this s)); [reflexivity|discriminate].
    + unfold sendOffer_resume. destruct (offer (call s k)) eqn:Eo; cbn [fst snd];
        try apply path_ignored; apply path_rejected; rewrite Eo; exact I.
    + destruct (flush (call s k)) as [|array i| |] eqn:Ef; cbn [fst snd];
        try apply path_ignored.
      destruct fulfilled; cbn [fst snd]; [|now eapply path_flush_failed; eauto].
      unfold sendCachedCandidates_from, sendCandidate.
      destruct (nth_error (iterated s array) (S i)) as [c|] eqn:En.
      * destruct (sessionUrl (this s)) as [session|] eqn:Es; cbn [fst snd].
        -- eapply path_flush_next; eauto.
        -- eapply path_flush_next_throws; eauto.
      * cbn [fst snd]. eapply path_flush_end; eauto.
Qed.

End StepPaths.

(** ** Reading a trace *)

Lemma relayed_app : forall isCached out1 out2,
  opens_clean out2 ->
  relayed isCached (out1 ++ out2) = relayed isCached out1 ++ relayed isCached out2.
Proof.
  intros isCached out1 out2 Hclean.
  induction out1 as [|e out1 IH]; [reflexivity|].
  destruct out1 as [|e' out1].
  - simpl. destruct e as [text arg| | | | | | | | | | | |]; try reflexivity.
    destruct arg; try reflexivity.
    destruct out2 as [|[] out2]; try reflexivity.
    destruct Hclean.
  - change ((e :: e' :: out1) ++ out2) with (e :: (e' :: out1) ++ out2).
    cbn [relayed]. rewrite IH. cbn [app].
    destruct e as [text arg| | | | | | | | | | | |]; try reflexivity.
    destruct arg; try reflexivity.
    destruct e'; try reflexivity.
    destruct (text =? sending_text isCached)%string; reflexivity.
Qed.

Lemma relayed_sent : forall isCached tag c request,
  relayed isCached [Console (sending_text tag) (LCandidate c); Fetch request] =
  if Bool.eqb tag isCached then [request] else [].
Proof. intros [] [] c request; reflexivity. Qed.

Lemma relayed_first : forall isCached c request,
  relayed isCached
    (line_85 ++ [Console (sending_text true) (LCandidate c); Fetch request]) =
  if isCached then [request] else [].
Proof. intros [] c request; reflexivity. Qed.

Lemma fetched_app : forall out1 out2,
  fetched (out1 ++ out2) = fetched out1 ++ fetched out2.
Proof.
  induction out1 as [|e out1 IH]; intros out2; [reflexivity|].
  destruct e; cbn [fetched app]; rewrite IH; reflexivity.
Qed.

Lemma patches_app : forall out1 out2,
  patches (out1 ++ out2) = patches out1 ++ patches out2.
Proof. intros. unfold patches. now rewrite fetched_app, filter_app. Qed.

Lemma requests_app : forall session cs1 cs2,
  requests session (cs1 ++ cs2) = requests session cs1 ++ requests session cs2.
Proof. intros [u|] cs1 cs2; cbn [requests]; [apply map_app|reflexivity]. Qed.

Lemma perm_relayed_cached : forall (A : Type) (P T F : list A) r,
  Permutation P (T ++ F) -> Permutation (P ++ [r]) ((T ++ [r]) ++ F).
Proof.
  intros A P T F r H. rewrite <- app_assoc.
  apply Permutation_trans with ((T ++ F) ++ [r]);
    [now apply Permutation_app_tail|].
  rewrite <- app_assoc. apply Permutation_app_head. apply Permutation_app_comm.
Qed.

Lemma perm_relayed_direct : forall (A : Type) (P T F : list A) r,
  Permutation P (T ++ F) -> Permutation (P ++ [r]) (T ++ (F ++ [r])).
Proof.
  intros A P T F r H. rewrite app_assoc. now apply Permutation_app_tail.
Qed.

Lemma requests_nil : forall session, requests session [] = [].
Proof. intros [u|]; reflexivity. Qed.

Lemma firstn_snoc : forall (A : Type) (l : list A) i x,
  nth_error l i = Some x -> firstn (S i) l = firstn i l ++ [x].
Proof.
  induction l as [|a l IH]; intros [|i] x H; simpl in *; try discriminate.
  - now inversion H.
  - f_equal. now apply IH.
Qed.

Lemma firstn_all_from : forall (A : Type) (l : list A) i,
  nth_error l i = None -> firstn i l = l.
Proof.
  intros A l i H. apply firstn_all2. now apply nth_error_None.
Qed.

(** What [receiveIceServers] leaves alone. *)
Lemma receiveIceServers_keeps : forall this headers,
  let this1 := fst (receiveIceServers this headers) in
  let out := snd (receiveIceServers this headers) in
  cachedCandidates this1 = cachedCandidates this /\
  sessionUrl this1 = sessionUrl this /\
  endpointUrl this1 = endpointUrl this /\
  fetched out = [] /\ opens_clean out /\
  forall isCached, relayed isCached out = [].
Proof.
  intros this0 headers. unfold receiveIceServers.
  repeat break_match; simpl; auto 10.
Qed.

Section CleanOutput.
Variable new_URL : string -> string -> option string.

Lemma transition_opens_clean : forall s e s1 out,
  transition new_URL s e s1 out -> opens_clean out.
Proof.
  intros s e s1 out T. destruct T; try exact I;
    apply (receiveIceServers_keeps (this s) (headers response)).
Qed.

Lemma step_opens_clean : forall s e, opens_clean (snd (step new_URL s e)).
Proof.
  intros s e. exact (transition_opens_clean _ _ _ _ (step_transition new_URL s e)).
Qed.

Lemma step_length : forall s e,
  List.length (activations (fst (step new_URL s e))) =
  List.length (activations s) + calls_of [e].
Proof.
  intros s e. pose proof (step_transition new_URL s e) as T.
  destruct (step new_URL s e) as [s1 out]. cbn [fst snd] in *.
  destruct T; cbn [calls_of activations];
    rewrite ?length_set_flush, ?length_reassign, ?length_set_offer;
    cbn [activations]; rewrite ?length_app; cbn [List.length]; lia.
Qed.

End CleanOutput.

(** ** A client on which [sendOffer] is called once *)

Lemma sole_call : forall s k,
  List.length (activations s) <= 1 ->
  offer (call s k) <> OfferNotCalled \/ flush (call s k) <> FlushNotCalled ->
  k = 0 /\ exists a, activations s = [a].
Proof.
  intros s k Hl H.
  assert (Hk : k < List.length (activations s)).
  { destruct H; [now apply called_offer|now apply called_flush]. }
  split; [lia|].
  destruct (activations s) as [|a [|b l]]; cbn [List.length] in *; try lia.
  now exists a.
Qed.

Lemma unset_not_flushed : forall s,
  pc_ok s -> sessionUrl (this s) = None -> flush (call s 0) = FlushNotCalled.
Proof.
  unfold pc_ok; intros s H U.
  destruct (offer (call s 0)); try tauto.
Qed.

Lemma flushed_set : forall s,
  pc_ok s -> flush (call s 0) <> FlushNotCalled -> sessionUrl (this s) <> None.
Proof.
  intros s H F U. apply F. now apply unset_not_flushed.
Qed.

Lemma relayed_quiet : forall isCached out,
  fetched out = [] -> relayed isCached out = [].
Proof.
  intros isCached out. induction out as [|e out IH]; intros H; [reflexivity|].
  destruct e; cbn [fetched] in H; try discriminate.
  all: cbn [relayed]; rewrite IH by assumption; try reflexivity.
  destruct arg; try reflexivity.
  destruct out as [|[] out]; try reflexivity. discriminate.
Qed.

Lemma patches_sent : forall text arg session c,
  patches [Console text arg; Fetch (trickle_request session c)] =
  [trickle_request session c].
Proof. reflexivity. Qed.

Lemma patches_first : forall text arg session c,
  patches (line_85 ++ [Console text arg; Fetch (trickle_request session c)]) =
  [trickle_request session c].
Proof. reflexivity. Qed.

Lemma patches_quiet : forall out, fetched out = [] -> patches out = [].
Proof. intros out H. unfold patches. now rewrite H. Qed.

Ltac sole s k H :=
  let Hk := fresh "Hk" in
  let a := fresh "a" in
  let Ha := fresh "Ha" in
  destruct (sole_call s k) as (Hk & a & Ha);
  [assumption
  |first [left; rewrite H; discriminate | right; rewrite H; discriminate]
  |subst k].

(** Reduce the state to its fields once its one activation is known. *)
Ltac fields :=
  cbn [this activations call nth not_called set_offer set_flush update offer flush
       sessionUrl cachedCandidates endpointUrl client set_cachedCandidates
       set_sessionUrl set_client reassign_cachedCandidates map detach
       iterated fst snd app List.length] in *.

Ltac one_call H :=
  match type of H with
  | _ (call ?s ?k) = _ =>
      sole s k H;
      match goal with
      | Ha : activations s = [?a] |- _ =>
          destruct s as [[cached endp sess cl] acts];
          cbn [activations] in Ha; subst acts;
          destruct a as [pc fl]; fields
      end
  | awaiting (_ (call ?s ?k)) =>
      assert (Hw : offer (call s k) <> OfferNotCalled)
        by (intros Hw; rewrite Hw in H; exact H);
      destruct (sole_call s k) as (Hk & a & Ha); [assumption|now left|];
      subst k;
      destruct s as [[cached endp sess cl] acts];
      cbn [activations] in Ha; subst acts;
      destruct a as [pc fl]; fields
  end.

Section Invariant.
Variable new_URL : string -> string -> option string.

Lemma step_invariant : forall s e out queued direct,
  invariant s out queued direct ->
  List.length (activations s) + calls_of [e] <= 1 ->
  invariant (fst (step new_URL s e)) (out ++ snd (step new_URL s e))
    (queued ++ arrival true s e) (direct ++ arrival false s e).
Proof.
  intros s e out q d (Hl & Hpc & Hq & Hd & Hn & Hp) Hcalls.
  pose proof (step_length new_URL s e) as Hlen.
  pose proof (step_transition new_URL s e) as T.
  pose proof (unset_not_flushed s Hpc) as Hunset.
  pose proof (flushed_set s Hpc) as Hset.
  destruct (step new_URL s e) as [s1 out1]. cbn [fst snd] in *.
  unfold invariant, queue_ok in *.
  rewrite !relayed_app, patches_app by exact (transition_opens_clean _ _ _ _ _ T).
  split; [lia|clear Hlen].
  unfold arrival, pc_ok in *.
  destruct T.
  - (* end of gathering *)
    rewrite H. cbn [relayed patches fetched filter]. rewrite !app_nil_r. tauto.
  - (* a candidate is queued *)
    rewrite H. rewrite H0 in *. cbn [is_unset Bool.eqb].
    specialize (Hunset eq_refl). specialize (Hn eq_refl). subst d.
    cbn [this sessionUrl set_cachedCandidates cachedCandidates].
    change (call (mkSystem ?t (activations s)) 0) with (call s 0).
    rewrite H0, Hunset in *.
    cbn [relayed patches fetched filter requests]. rewrite !app_nil_r.
    destruct Hq as [Hc Hr]. rewrite Hc.
    repeat split; auto.
  - (* a candidate is relayed at once *)
    rewrite H. rewrite H0 in *. cbn [is_unset Bool.eqb].
    rewrite !relayed_sent, patches_sent. cbn [Bool.eqb]. rewrite !app_nil_r.
    split; [exact Hpc|]. split; [exact Hq|].
    split; [rewrite Hd, requests_app; reflexivity|].
    split; [discriminate|]. now apply perm_relayed_direct.
  - (* sendOffer is called *)
    cbn [calls_of] in Hcalls.
    destruct s as [[cached endp sess cl] [|a acts]];
      cbn [activations List.length] in Hcalls; [|lia].
    fields. cbn [carried relayed patches fetched filter].
    rewrite !app_nil_r. intuition (auto; congruence).
  - (* nothing is awaited *)
    cbn [carried relayed patches fetched filter]. rewrite !app_nil_r. tauto.
  - (* createOffer fulfils *)
    one_call H. subst pc. cbn [carried relayed patches fetched filter].
    rewrite !app_nil_r. intuition (auto; congruence).
  - (* setLocalDescription fulfils: the POST *)
    one_call H. subst pc. cbn [carried relayed patches fetched filter].
    rewrite !app_nil_r. intuition (auto; congruence).
  - (* a non-2xx answer *)
    one_call H. subst pc. cbn [carried relayed patches fetched filter].
    rewrite !app_nil_r. intuition (auto; congruence).
  - (* a 2xx answer without Location *)
    destruct (receiveIceServers_keeps (this s) (headers response))
      as (Kc & Ks & _ & Kf & _ & Kr).
    rewrite !Kr, (patches_quiet _ Kf).
    set (this1 := fst (receiveIceServers (this s) (headers response))) in *.
    clearbody this1.
    one_call H. subst pc. rewrite Kc, Ks. cbn [carried].
    rewrite !app_nil_r. intuition (auto; congruence).
  - (* a Location that is no URL *)
    destruct (receiveIceServers_keeps (this s) (headers response))
      as (Kc & Ks & _ & Kf & _ & Kr).
    rewrite !Kr, (patches_quiet _ Kf).
    set (this1 := fst (receiveIceServers (this s) (headers response))) in *.
    clearbody this1.
    one_call H. subst pc. rewrite Kc, Ks. cbn [carried].
    rewrite !app_nil_r. intuition (auto; congruence).
  - (* the session is known *)
    destruct (receiveIceServers_keeps (this s) (headers response))
      as (Kc & Ks & _ & Kf & _ & Kr).
    rewrite !Kr, (patches_quiet _ Kf).
    set (this1 := fst (receiveIceServers (this s) (headers response))) in *.
    clearbody this1.
    one_call H. subst pc. rewrite Kc. cbn [carried].
    rewrite !app_nil_r. destruct Hpc as [Hs Hf]. subst sess fl.
    specialize (Hn eq_refl). subst d. cbn [requests] in *.
    intuition (auto; congruence).
  - (* the answer is read *)
    one_call H. subst pc. cbn [carried relayed patches fetched filter].
    rewrite !app_nil_r. intuition (auto; congruence).
  - (* an awaited promise rejects *)
    one_call H. cbn [carried relayed patches fetched filter].
    rewrite !app_nil_r. destruct pc; try destruct H; intuition (auto; congruence).
  - (* the flush is called and sends the first queued candidate *)
    one_call H. subst pc sess. rewrite relayed_first, patches_first.
    destruct Hpc as [_ Hf]. subst fl. destruct Hq as [Hc Hr]. subst cached.
    assert (0 < List.length q) by (apply nth_error_Some; congruence).
    split; [intuition congruence|].
    split; [rewrite ?app_nil_r, Hr, (firstn_snoc _ _ _ _ H0); repeat split; auto|].
    cbn [carried]. rewrite ?app_nil_r. split; [exact Hd|]. split; [exact Hn|].
    rewrite <- (app_nil_r (relayed false out)) at 1.
    apply Permutation_trans
      with ((relayed true out ++ [trickle_request session c])
            ++ relayed false out);
      [now apply perm_relayed_cached|now rewrite app_nil_r].
  - (* the guard of sendCandidate cannot fire *)
    one_call H. subst pc sess. now destruct Hpc as [[] _].
  - (* the flush is called on an empty queue *)
    one_call H. subst pc cached. cbn [carried].
    change (relayed ?b line_85) with (@nil Request).
    change (patches line_85) with (@nil Request).
    destruct Hpc as [Hs Hf]. subst fl. destruct Hq as [Hc Hr]. subst q.
    fields. rewrite !app_nil_r, requests_nil. intuition (auto; congruence).
  - (* the next queued candidate is sent *)
    one_call H. subst fl sess. rewrite !relayed_sent, patches_sent.
    cbn [Bool.eqb carried]. destruct Hq as (Ha & Hc & Hr & Hi). subst array cached.
    fields.
    assert (S i < List.length q) by (apply nth_error_Some; congruence).
    assert (Hpc' : match pc with
                   | OfferReturned =>
                       FlushAwaitSend None (S i) = FlushNotCalled <->
                       Some session = None
                   | _ => False
                   end)
      by (destruct pc; intuition congruence).
    destruct pc; try destruct Hpc'. rewrite !app_nil_r.
    split; [split; intros; congruence|].
    split; [rewrite Hr, (firstn_snoc _ _ _ _ H0); cbn [requests];
            rewrite map_app; repeat split; auto|].
    split; [exact Hd|]. split; [exact Hn|].
    now apply perm_relayed_cached.
  - (* the guard of sendCandidate cannot fire *)
    one_call H. subst fl sess. exfalso. now apply Hset.
  - (* the flush reaches the end of the queue *)
    one_call H. subst fl. cbn [carried].
    destruct Hq as (Ha & Hc & Hr & Hi). subst array cached.
    fields. rewrite (firstn_all_from _ _ _ H0) in Hr.
    rewrite !app_nil_r.
    destruct pc; intuition (auto; congruence).
  - (* a PATCH of the flush is rejected *)
    one_call H. subst fl. cbn [carried].
    destruct Hq as (Ha & Hc & Hr & Hi). subst array cached.
    rewrite !app_nil_r.
    destruct pc; intuition (eauto; congruence).
Qed.


Lemma run_invariant : forall evs s out queued direct,
  invariant s out queued direct ->
  List.length (activations s) + calls_of evs <= 1 ->
  invariant (fst (run new_URL s evs)) (out ++ snd (run new_URL s evs))
    (queued ++ arrivals new_URL true s evs)
    (direct ++ arrivals new_URL false s evs).
Proof.
  induction evs as [|e evs IH]; intros s out q d H Hc.
  - cbn [run arrivals fst snd]. now rewrite !app_nil_r.
  - rewrite run_cons. cbn [fst snd arrivals]. rewrite !app_assoc.
    change (e :: evs) with ([e] ++ evs) in Hc. rewrite calls_of_app in Hc.
    apply IH.
    + apply step_invariant; [exact H|lia].
    + rewrite step_length. lia.
Qed.

Lemma constructed_invariant : forall endpoint servers,
  invariant (constructed endpoint servers) [] [] [].
Proof.
  intros. unfold invariant, pc_ok, queue_ok. cbn. repeat split; auto.
Qed.

Lemma reachable_invariant : forall endpoint servers evs,
  let s0 := constructed endpoint servers in
  calls_of evs <= 1 ->
  invariant (fst (run new_URL s0 evs)) (snd (run new_URL s0 evs))
    (arrivals new_URL true s0 evs) (arrivals new_URL false s0 evs).
Proof.
  intros endpoint servers evs s0 Hc.
  exact (run_invariant evs s0 [] [] [] (constructed_invariant endpoint servers) Hc).
Qed.

Lemma run_length : forall evs s,
  List.length (activations (fst (run new_URL s evs))) =
  List.length (activations s) + calls_of evs.
Proof.
  induction evs as [|e evs IH]; intros s; [cbn; lia|].
  rewrite run_cons. cbn [fst]. rewrite IH, step_length.
  change (e :: evs) with ([e] ++ evs). rewrite calls_of_app. lia.
Qed.

End Invariant.

(** ** The flush runs to its end *)

Section Flush.
Variable new_URL : string -> string -> option string.

Lemma ice_when_set : forall s ev u,
  sessionUrl (this s) = Some u ->
  fst (step new_URL s (IceCandidate ev)) = s.
Proof.
  intros [[cached endp sess cl] acts] ev u H.
  cbn [this sessionUrl] in H. subst sess.
  cbn [step this]. unfold handleIceCandidateFromClient.
  cbn [sessionUrl].
  destruct ev as [c|]; [destruct (candidate c =? EmptyString)%string|]; reflexivity.
Qed.

Lemma flush_returned_stays : forall evs s,
  Forall benign evs -> flush (call s 0) = FlushReturned ->
  sessionUrl (this s) <> None ->
  flush (call (fst (run new_URL s evs)) 0) = FlushReturned.
Proof.
  induction evs as [|e evs IH]; intros s Hb Hf Hs; [exact Hf|].
  rewrite run_cons; cbn [fst]. inversion Hb as [|e' evs' He Hevs]; subst.
  destruct e as [ev| |[|k] []]; try destruct He.
  - destruct (sessionUrl (this s)) as [u|] eqn:Eu; [|congruence].
    rewrite (ice_when_set s ev u Eu). apply IH; auto. congruence.
  - destruct fulfilled; [|destruct He].
    cbn [step]. rewrite Hf. cbn [fst]. apply IH; auto.
Qed.

Lemma flush_progress : forall evs s i,
  Forall benign evs ->
  flush (call s 0) = FlushAwaitSend None i ->
  sessionUrl (this s) <> None ->
  i < List.length (cachedCandidates (this s)) ->
  List.length (cachedCandidates (this s)) <= i + fulfilments evs ->
  flush (call (fst (run new_URL s evs)) 0) = FlushReturned.
Proof.
  induction evs as [|e evs IH]; intros s i Hb Hf Hs Hi Hn.
  - cbn [fulfilments] in Hn. lia.
  - rewrite run_cons; cbn [fst]. inversion Hb as [|e' evs' He Hevs]; subst.
    assert (Hr : 0 < List.length (activations s))
      by (apply called_flush; rewrite Hf; discriminate).
    destruct e as [ev| |[|k] []]; try destruct He.
    + destruct (sessionUrl (this s)) as [u|] eqn:Eu; [|congruence].
      rewrite (ice_when_set s ev u Eu). apply (IH s i); auto. congruence.
    + destruct fulfilled; [|destruct He].
      cbn [fulfilments] in Hn. cbn [step]. rewrite Hf.
      unfold sendCachedCandidates_from, sendCandidate. cbn [iterated].
      destruct (sessionUrl (this s)) as [u|] eqn:Eu; [|congruence].
      destruct (nth_error (cachedCandidates (this s)) (S i)) as [c|] eqn:En.
      * cbn [fst]. apply (IH _ (S i)); auto.
        -- now rewrite call_set_flush_same.
        -- cbn [set_flush this]. congruence.
        -- cbn [set_flush this]. apply nth_error_Some. congruence.
        -- cbn [set_flush this]. lia.
      * cbn [fst]. apply flush_returned_stays; auto.
        -- rewrite call_set_flush_same; [reflexivity|].
           now rewrite length_reassign.
        -- cbn [set_flush reassign_cachedCandidates this set_cachedCandidates
                sessionUrl]. congruence.
Qed.

Lemma flush_completes : forall evs s,
  Forall benign evs ->
  offer (call s 0) = AwaitSetRemoteDescription -> pc_ok s ->
  List.length (cachedCandidates (this s)) <= fulfilments evs ->
  flush (call (fst (run new_URL s (Settled 0 RemoteDescriptionSet :: evs))) 0)
    = FlushReturned.
Proof.
  intros evs s Hb Ho Hpc Hn.
  unfold pc_ok in Hpc. rewrite Ho in Hpc. destruct Hpc as [Hs Hf].
  assert (Hr : 0 < List.length (activations s))
    by (apply called_offer; rewrite Ho; discriminate).
  rewrite run_cons; cbn [fst step]. unfold sendOffer_resume. rewrite Ho.
  unfold sendCachedCandidates, sendCachedCandidates_from, sendCandidate.
  cbn [iterated set_offer this].
  destruct (sessionUrl (this s)) as [u|] eqn:Eu; [|congruence].
  destruct (cachedCandidates (this s)) as [|c q] eqn:Eq; cbn [nth_error fst].
  - apply flush_returned_stays; auto.
    + rewrite call_set_flush_same; [reflexivity|].
      now rewrite length_reassign, length_set_offer.
    + cbn [set_flush set_offer reassign_cachedCandidates this
           set_cachedCandidates sessionUrl]. congruence.
  - apply (flush_progress evs _ 0); auto.
    + rewrite call_set_flush_same; [reflexivity|].
      now rewrite length_set_offer.
    + cbn [set_flush set_offer this]. congruence.
    + cbn [set_flush set_offer this]. rewrite Eq. cbn [List.length]. lia.
    + cbn [set_flush set_offer this]. rewrite Eq. cbn [List.length] in *. lia.
Qed.

Lemma queue_until_returned : forall s out queued,
  queue_ok s out queued -> flush (call s 0) <> FlushReturned ->
  cachedCandidates (this s) = queued.
Proof.
  unfold queue_ok; intros s out q H F.
  destruct (flush (call s 0)); tauto.
Qed.

Lemma relayed_prefix : forall s out queued,
  queue_ok s out queued ->
  exists k, relayed true out = requests (sessionUrl (this s)) (firstn k queued).
Proof.
  unfold queue_ok; intros s out q H.
  destruct (flush (call s 0)) as [|array i| |].
  - exists 0. cbn [firstn]. rewrite requests_nil. tauto.
  - exists (S i). tauto.
  - exists (List.length q). rewrite firstn_all. tauto.
  - tauto.
Qed.
End Flush.

Lemma relayed_fetched : forall isCached out request,
  In request (relayed isCached out) -> In request (fetched out).
Proof.
  intros isCached out request. induction out as [|e out IH]; [auto|].
  cbn [relayed]. intros H.
  assert (G : In request (relayed isCached out) -> In request (fetched (e :: out))).
  { intros G. destruct e; cbn [fetched]; auto. right. auto. }
  destruct e; auto. destruct arg; auto.
  destruct out as [|[] out]; auto.
  destruct (text =? sending_text isCached); auto.
  destruct H as [<-|H]; auto.
  cbn [fetched]. now left.
Qed.

Lemma relayed_patched : forall isCached out session c,
  In (trickle_request session c) (relayed isCached out) ->
  In (trickle_request session c) (patches out).
Proof.
  intros isCached out session c H. unfold patches.
  apply filter_In. split; [now apply (relayed_fetched isCached)|reflexivity].
Qed.

Section Discovered.
Variable new_URL : string -> string -> option string.

Lemma discovered_arrivals : forall evs s c,
  In c (discovered evs) <->
  In c (arrivals new_URL true s evs) \/ In c (arrivals new_URL false s evs).
Proof.
  induction evs as [|e evs IH]; intros s c; cbn [discovered arrivals].
  - simpl; tauto.
  - unfold arrival. rewrite !in_app_iff.
    destruct (carried e) as [c'|].
    + cbn [In]. rewrite (IH (fst (step new_URL s e)) c).
      destruct (is_unset (sessionUrl (this s))); cbn [Bool.eqb In]; tauto.
    + cbn [In]. rewrite (IH (fst (step new_URL s e)) c). tauto.
Qed.

End Discovered.

(** ** Candidate trickling *)

(** Where C1 fails as written.  Two candidates are queued and the answer
    is applied.  When [sendOffer] has returned, only the first queued
    candidate has been sent and the queue is not empty; when that PATCH is
    rejected, the flush ends there, the second candidate is never sent and
    the queue is never emptied.  And a second call of [sendOffer] flushes
    the queue from its start again: the first candidate is sent twice. *)
Lemma C1_counterexample :
  let s0 := constructed sample_endpoint [] in
  let answered :=
    [CallSendOffer; Settled 0 (OfferCreated "v=0"); Settled 0 LocalDescriptionSet;
     IceCandidate (Some sample_c1); IceCandidate (Some sample_c2);
     Settled 0 (Responded sample_created); Settled 0 (BodyRead "v=0");
     Settled 0 RemoteDescriptionSet] in
  let failed := answered ++ [Settled 0 (TrickleSettled false)] in
  let again :=
    failed ++
    [CallSendOffer; Settled 1 (OfferCreated "v=0"); Settled 1 LocalDescriptionSet;
     Settled 1 (Responded sample_created); Settled 1 (BodyRead "v=0");
     Settled 1 RemoteDescriptionSet; Settled 1 (TrickleSettled true);
     Settled 1 (TrickleSettled true)] in
  (offer (call (fst (run resolve_path s0 answered)) 0) = OfferReturned /\
   patches (snd (run resolve_path s0 answered)) =
     [trickle_request sample_session sample_c1] /\
   cachedCandidates (this (fst (run resolve_path s0 answered))) =
     [sample_c1; sample_c2]) /\
  (flush (call (fst (run resolve_path s0 failed)) 0) = FlushThrown /\
   patches (snd (run resolve_path s0 failed)) =
     [trickle_request sample_session sample_c1] /\
   cachedCandidates (this (fst (run resolve_path s0 failed))) =
     [sample_c1; sample_c2]) /\
  (flush (call (fst (run resolve_path s0 again)) 1) = FlushReturned /\
   patches (snd (run resolve_path s0 again)) =
     [trickle_request sample_session sample_c1;
      trickle_request sample_session sample_c1;
      trickle_request sample_session sample_c2] /\
   cachedCandidates (this (fst (run resolve_path s0 again))) = []).
Proof. repeat split. Qed.

(** C1, as the code has it.  On a client on which [sendOffer] is called
    once, along every run: a candidate notified while [sessionUrl] is
    unset is appended to [cachedCandidates] and nothing is sent, one
    notified while it is set is sent at once with the request of line 109
    and the queue is left alone; the requests sent directly are exactly
    those of the candidates that arrived after [sessionUrl] was set, in
    order; until the flush has returned the queue holds exactly the early
    arrivals, in order, and the flush has sent the requests of a prefix of
    them; once it has returned the queue is empty and the flush has sent
    exactly the requests of the early arrivals, in arrival order, each
    once; no other PATCH is sent; and from the resumption after
    [setRemoteDescription] the flush does return as soon as one PATCH per
    queued candidate has fulfilled, whatever candidates arrive
    meanwhile. *)
Theorem C1_queue_then_flush : forall new_URL endpoint servers evs,
  let s0 := constructed endpoint servers in
  let s := fst (run new_URL s0 evs) in
  let out := snd (run new_URL s0 evs) in
  let early := arrivals new_URL true s0 evs in
  calls_of evs <= 1 ->
  (forall c, candidate c <> EmptyString ->
     step new_URL s (IceCandidate (Some c)) =
     match sessionUrl (this s) with
     | None =>
         (mkSystem
            (set_cachedCandidates (this s) (cachedCandidates (this s) ++ [c]))
            (activations s),
          [Console "received candidate before response from session create, caching"
             (LCandidate c)])
     | Some session =>
         (s, [Console (sending_text false) (LCandidate c);
              Fetch (trickle_request session c)])
     end) /\
  relayed false out =
    requests (sessionUrl (this s)) (arrivals new_URL false s0 evs) /\
  (flush (call s 0) <> FlushReturned ->
     cachedCandidates (this s) = early /\
     exists k,
       relayed true out = requests (sessionUrl (this s)) (firstn k early)) /\
  (flush (call s 0) = FlushReturned ->
     cachedCandidates (this s) = [] /\
     exists session,
       sessionUrl (this s) = Some session /\
       relayed true out = map (trickle_request session) early) /\
  Permutation (patches out) (relayed true out ++ relayed false out) /\
  (forall later,
     offer (call s 0) = AwaitSetRemoteDescription -> Forall benign later ->
     List.length (cachedCandidates (this s)) <= fulfilments later ->
     flush (call (fst (run new_URL s (Settled 0 RemoteDescriptionSet :: later))) 0)
       = FlushReturned).
Proof.
  intros new_URL endpoint servers evs s0 s out early Hcalls.
  destruct (reachable_invariant new_URL endpoint servers evs Hcalls)
    as (Hl & Hpc & Hq & Hd & Hn & Hp).
  fold s0 in Hl, Hpc, Hq, Hd, Hn, Hp. fold s in Hl, Hpc, Hq, Hd, Hn.
  fold out in Hq, Hd, Hp. fold early in Hq.
  split; [|split; [exact Hd|split; [|split; [|split; [exact Hp|]]]]].
  - intros c Hc. apply String.eqb_neq in Hc.
    destruct s as [[cached endp sess cl] acts].
    cbn [step this]. unfold handleIceCandidateFromClient, sendCandidate.
    cbn [sessionUrl]. rewrite Hc. destruct sess; reflexivity.
  - intros F. split; [exact (queue_until_returned s out _ Hq F)|].
    exact (relayed_prefix s out _ Hq).
  - intros F. pose proof (flushed_set s Hpc) as Hset.
    unfold queue_ok in Hq. rewrite F in *. destruct Hq as [Hc Hr].
    split; [exact Hc|].
    destruct (sessionUrl (this s)) as [session|] eqn:Es.
    + exists session. split; [reflexivity|exact Hr].
    + exfalso. apply Hset; [discriminate|reflexivity].
  - intros later Ho Hb Hlen. now apply flush_completes.
Qed.

(** The theorem on a run with two queued candidates: the step that queues
    the second, the flush running to its end, and the finished run. *)
Lemma C1_witness :
  let s0 := constructed sample_endpoint [] in
  let queued := fst (run resolve_path s0 sample_offer_sent) in
  let answered :=
    sample_offer_sent ++ [IceCandidate (Some sample_c2); IceCandidate None;
                          Settled 0 (Responded sample_created);
                          Settled 0 (BodyRead "v=0")] in
  let later := [Settled 0 (TrickleSettled true); IceCandidate (Some sample_c1);
                Settled 0 (TrickleSettled true)] in
  let evs := answered ++ Settled 0 RemoteDescriptionSet :: later in
  (calls_of sample_offer_sent <= 1 /\ candidate sample_c2 <> EmptyString /\
   cachedCandidates
     (this (fst (step resolve_path queued (IceCandidate (Some sample_c2))))) =
   [sample_c1; sample_c2]) /\
  (calls_of answered <= 1 /\
   offer (call (fst (run resolve_path s0 answered)) 0) = AwaitSetRemoteDescription /\
   Forall benign later /\
   flush (call (fst (run resolve_path (fst (run resolve_path s0 answered))
                       (Settled 0 RemoteDescriptionSet :: later))) 0)
     = FlushReturned) /\
  (calls_of evs <= 1 /\
   flush (call (fst (run resolve_path s0 evs)) 0) = FlushReturned /\
   cachedCandidates (this (fst (run resolve_path s0 evs))) = [] /\
   exists session,
     sessionUrl (this (fst (run resolve_path s0 evs))) = Some session /\
     relayed true (snd (run resolve_path s0 evs)) =
       map (trickle_request session) [sample_c1; sample_c2]).
Proof.
  intros s0 queued answered later evs.
  assert (C1 : calls_of sample_offer_sent <= 1) by (cbn; lia).
  assert (C2 : calls_of answered <= 1) by (cbn; lia).
  assert (C3 : calls_of evs <= 1) by (cbn; lia).
  assert (N : candidate sample_c2 <> EmptyString) by discriminate.
  assert (O : offer (call (fst (run resolve_path s0 answered)) 0)
              = AwaitSetRemoteDescription) by reflexivity.
  assert (B : Forall benign later) by (repeat constructor).
  assert (F : flush (call (fst (run resolve_path s0 evs)) 0) = FlushReturned)
    by reflexivity.
  split; [|split].
  - split; [exact C1|split; [exact N|]].
    pose proof (proj1 (C1_queue_then_flush resolve_path sample_endpoint []
                         sample_offer_sent C1) sample_c2 N) as E.
    cbv zeta in E. unfold queued, s0. rewrite E. reflexivity.
  - split; [exact C2|split; [exact O|split; [exact B|]]].
    apply (proj2 (proj2 (proj2 (proj2 (proj2
             (C1_queue_then_flush resolve_path sample_endpoint [] answered C2)))))
             later O B).
    apply Nat.leb_le. reflexivity.
  - split; [exact C3|split; [exact F|]].
    exact (proj1 (proj2 (proj2 (proj2
             (C1_queue_then_flush resolve_path sample_endpoint [] evs C3)))) F).
Defined.

(** The interleaving that separates the assignment of line 72 from the
    flush of line 85: [sample_c1] is queued, the POST is answered, and
    [sample_c2] is notified while [response.text()] is awaited.  It is sent
    at once, with [sample_c1] still in the queue and not yet relayed; the
    finished run relays the two in the opposite of their arrival order.
    And when [sendOffer] is called a second time while the flush of the
    first call is under way, a queued candidate is sent again, after one
    that was queued behind it. *)
Lemma C2_counterexample :
  let s0 := constructed sample_endpoint [] in
  let before := sample_offer_sent ++ [Settled 0 (Responded sample_created)] in
  let s := fst (run resolve_path s0 before) in
  let evs := before ++ [IceCandidate (Some sample_c2); Settled 0 (BodyRead "v=0");
                        Settled 0 RemoteDescriptionSet;
                        Settled 0 (TrickleSettled true)] in
  let twice :=
    [CallSendOffer; Settled 0 (OfferCreated "v=0"); Settled 0 LocalDescriptionSet;
     IceCandidate (Some sample_c1); IceCandidate (Some sample_c2);
     Settled 0 (Responded sample_created); Settled 0 (BodyRead "v=0");
     Settled 0 RemoteDescriptionSet; Settled 0 (TrickleSettled true);
     CallSendOffer; Settled 1 (OfferCreated "v=0"); Settled 1 LocalDescriptionSet;
     Settled 1 (Responded sample_created); Settled 1 (BodyRead "v=0");
     Settled 1 RemoteDescriptionSet] in
  (sessionUrl (this s) = Some sample_session /\
   cachedCandidates (this s) = [sample_c1] /\
   patches (snd (run resolve_path s0 before)) = [] /\
   snd (step resolve_path s (IceCandidate (Some sample_c2))) =
     [Console (sending_text false) (LCandidate sample_c2);
      Fetch (trickle_request sample_session sample_c2)] /\
   flush (call (fst (run resolve_path s0 evs)) 0) = FlushReturned /\
   discovered evs = [sample_c1; sample_c2] /\
   patches (snd (run resolve_path s0 evs)) =
     map (trickle_request sample_session) [sample_c2; sample_c1]) /\
  (discovered twice = [sample_c1; sample_c2] /\
   patches (snd (run resolve_path s0 twice)) =
     map (trickle_request sample_session) [sample_c1; sample_c2; sample_c1]).
Proof. repeat split. Qed.

(** C2, as the code has it.  On a client on which [sendOffer] is called
    once, no candidate is dropped: every discovered candidate is an early
    or a late arrival, the early ones stay in the queue until the flush
    returns, the late ones are relayed on arrival, and once the flush has
    returned a PATCH has gone out for every candidate discovered; the
    flush does return once the answer is applied and one PATCH per queued
    candidate has fulfilled.  Queued candidates keep their arrival order
    among themselves (the requests of the flush are always those of a
    prefix of the early arrivals), and so do the late ones.  The flush is
    not synchronous with the assignment of [sessionUrl]: while [sendOffer]
    is suspended at [response.text()] or at [setRemoteDescription],
    [sessionUrl] is set and not one queued candidate has been relayed, so a
    candidate notified then goes out ahead of the queue. *)
Theorem C2_flush_after_suspensions : forall new_URL endpoint servers evs,
  let s0 := constructed endpoint servers in
  let s := fst (run new_URL s0 evs) in
  let out := snd (run new_URL s0 evs) in
  let early := arrivals new_URL true s0 evs in
  let late := arrivals new_URL false s0 evs in
  calls_of evs <= 1 ->
  (forall c, In c (discovered evs) <-> In c early \/ In c late) /\
  (exists k, relayed true out = requests (sessionUrl (this s)) (firstn k early)) /\
  relayed false out = requests (sessionUrl (this s)) late /\
  (flush (call s 0) <> FlushReturned -> cachedCandidates (this s) = early) /\
  (flush (call s 0) = FlushReturned ->
     exists session,
       sessionUrl (this s) = Some session /\
       relayed true out = map (trickle_request session) early /\
       forall c, In c (discovered evs) ->
                 In (trickle_request session c) (patches out)) /\
  (forall later,
     offer (call s 0) = AwaitSetRemoteDescription -> Forall benign later ->
     List.length early <= fulfilments later ->
     flush (call (fst (run new_URL s (Settled 0 RemoteDescriptionSet :: later))) 0)
       = FlushReturned) /\
  (offer (call s 0) = AwaitText \/ offer (call s 0) = AwaitSetRemoteDescription ->
     sessionUrl (this s) <> None /\ flush (call s 0) = FlushNotCalled /\
     cachedCandidates (this s) = early /\ relayed true out = []).
Proof.
  intros new_URL endpoint servers evs s0 s out early late Hcalls.
  destruct (reachable_invariant new_URL endpoint servers evs Hcalls)
    as (Hl & Hpc & Hq & Hd & Hn & Hp).
  fold s0 in Hl, Hpc, Hq, Hd, Hn, Hp. fold s in Hl, Hpc, Hq, Hd, Hn.
  fold out in Hq, Hd, Hp. fold early in Hq. fold late in Hd, Hn.
  split; [intros c; apply discovered_arrivals|].
  split; [exact (relayed_prefix s out _ Hq)|].
  split; [exact Hd|]. split; [|split; [|split]].
  - intros F. exact (queue_until_returned s out _ Hq F).
  - intros F. pose proof (flushed_set s Hpc) as Hset.
    unfold queue_ok in Hq. rewrite F in *. destruct Hq as [Hc Hr].
    destruct (sessionUrl (this s)) as [session|] eqn:Es;
      [|exfalso; apply Hset; [discriminate|reflexivity]].
    exists session. split; [reflexivity|]. split; [exact Hr|].
    intros c Hin. apply (discovered_arrivals new_URL evs s0) in Hin.
    destruct Hin as [Hin|Hin].
    + apply (relayed_patched true). rewrite Hr. now apply in_map.
    + apply (relayed_patched false). rewrite Hd. now apply in_map.
  - intros later Ho Hb Hlen. apply flush_completes; auto.
    pose proof Hpc as Hpc'. unfold pc_ok in Hpc'. rewrite Ho in Hpc'.
    destruct Hpc' as [_ Hf]. unfold queue_ok in Hq. rewrite Hf in Hq.
    destruct Hq as [Hc _]. now rewrite Hc.
  - intros Ho. unfold pc_ok in Hpc. unfold queue_ok in Hq.
    destruct Ho as [Ho|Ho]; rewrite Ho in Hpc; destruct Hpc as [Hs Hf];
      rewrite Hf in Hq; tauto.
Qed.

(** The theorem on the run suspended at [setRemoteDescription], and on
    the same run carried to the end of the flush. *)
Lemma C2_witness :
  let s0 := constructed sample_endpoint [] in
  let evs := sample_offer_sent ++ [Settled 0 (Responded sample_created);
                                   Settled 0 (BodyRead "v=0")] in
  let done := evs ++ [Settled 0 RemoteDescriptionSet;
                      Settled 0 (TrickleSettled true)] in
  (calls_of evs <= 1 /\
   offer (call (fst (run resolve_path s0 evs)) 0) = AwaitSetRemoteDescription /\
   (sessionUrl (this (fst (run resolve_path s0 evs))) <> None /\
    flush (call (fst (run resolve_path s0 evs)) 0) = FlushNotCalled /\
    cachedCandidates (this (fst (run resolve_path s0 evs))) =
      arrivals resolve_path true s0 evs /\
    relayed true (snd (run resolve_path s0 evs)) = [])) /\
  (calls_of done <= 1 /\
   flush (call (fst (run resolve_path s0 done)) 0) = FlushReturned /\
   exists session,
     sessionUrl (this (fst (run resolve_path s0 done))) = Some session /\
     relayed true (snd (run resolve_path s0 done)) =
       map (trickle_request session) (arrivals resolve_path true s0 done) /\
     forall c, In c (discovered done) ->
               In (trickle_request session c) (patches (snd (run resolve_path s0 done)))).
Proof.
  intros s0 evs done.
  assert (C : calls_of evs <= 1) by (cbn; lia).
  assert (D : calls_of done <= 1) by (cbn; lia).
  assert (H : offer (call (fst (run resolve_path s0 evs)) 0)
              = AwaitSetRemoteDescription) by reflexivity.
  assert (F : flush (call (fst (run resolve_path s0 done)) 0) = FlushReturned)
    by reflexivity.
  split.
  - split; [exact C|split; [exact H|]].
    apply (C2_flush_after_suspensions resolve_path sample_endpoint [] evs C).
    right; exact H.
  - split; [exact D|split; [exact F|]].
    exact (proj1 (proj2 (proj2 (proj2 (proj2
             (C2_flush_after_suspensions resolve_path sample_endpoint [] done D)))))
             F).
Defined.

(** ** Calls of [sendOffer] side by side *)

Lemma call_this : forall t s k, call (mkSystem t (activations s)) k = call s k.
Proof. reflexivity. Qed.

(** The activation [k] after a step that resumes another one. *)
Ltac frame :=
  rewrite ?call_set_flush_other, ?call_reassign, ?call_set_flush_other,
    ?call_set_offer_other, ?call_this by congruence.

Section SideBySide.
Variable new_URL : string -> string -> option string.

Lemma over_step : forall s e k,
  over (call s k) -> call (fst (step new_URL s e)) k = call s k.
Proof.
  intros s e k ([Ho|[m Ho]] & Hf).
  all: assert (Hk : k < List.length (activations s))
         by (apply called_offer; rewrite Ho; discriminate).
  all: assert (Hd : forall items, detach items (call s k) = call s k)
         by (intros items; apply detach_settled; intros i Hi;
             rewrite Hi in Hf; intuition discriminate).
  all: pose proof (step_transition new_URL s e) as T;
       destruct (step new_URL s e) as [s1 out]; cbn [fst snd] in *.
  all: destruct T; try reflexivity;
       try (unfold call; cbn [activations]; now apply app_nth1).
  all: try (destruct (Nat.eq_dec k0 k) as [->|Hne];
            [exfalso;
             try (rewrite Ho in *; try discriminate;
                  match goal with H : awaiting _ |- _ => exact H end);
             try (match goal with
                  | H : flush (call _ _) = FlushAwaitSend _ _ |- _ =>
                      rewrite H in Hf; intuition discriminate
                  end)
            |frame; rewrite ?Hd; reflexivity]).
Qed.

Lemma over_run : forall evs s k,
  over (call s k) -> call (fst (run new_URL s evs)) k = call s k.
Proof.
  induction evs as [|e evs IH]; intros s k H; [reflexivity|].
  rewrite run_cons. cbn [fst].
  pose proof (over_step s e k H) as E.
  rewrite IH; [exact E|]. now rewrite E.
Qed.

Lemma Forall_update_at : forall (A : Type) (P : A -> Prop) (f : A -> A) l k d,
  Forall P l -> (k < List.length l -> P (f (nth k l d))) ->
  Forall P (update k f l).
Proof.
  induction l as [|x l IH]; intros k d H Hf; [exact H|].
  inversion H; subst. destruct k; cbn [update]; constructor; auto.
  - apply Hf. cbn [List.length]. lia.
  - apply (IH k d); auto. intros Hk. apply Hf. cbn [List.length]. lia.
Qed.

Lemma sane_detach : forall items l,
  Forall sane l -> Forall sane (map (detach items) l).
Proof.
  intros items l H. apply Forall_map. revert H. apply Forall_impl.
  intros [pc fl] [H1 H2]. unfold sane, detach in *. cbn [offer flush] in *.
  destruct fl as [|[|] i| |]; cbn [offer flush]; split; auto.
  intros _. apply H2. discriminate.
Qed.

Lemma sane_call : forall s k,
  Forall sane (activations s) -> k < List.length (activations s) ->
  sane (call s k).
Proof.
  intros s k H Hk. eapply Forall_forall; [exact H|]. now apply call_In.
Qed.

Lemma sane_set_offer : forall s k pc,
  Forall sane (activations s) ->
  pc <> OfferNotCalled ->
  (pc <> OfferReturned -> flush (call s k) = FlushNotCalled) ->
  Forall sane (activations (set_offer s k pc)).
Proof.
  intros s k pc H Hn Hf. unfold set_offer. cbn [activations].
  apply (Forall_update_at _ _ _ _ _ not_called); [exact H|].
  intros Hk. fold (call s k). split; cbn [offer flush]; [exact Hn|].
  intros F. destruct pc; try reflexivity; exfalso; apply F, Hf; discriminate.
Qed.

Lemma sane_set_flush : forall s k fl,
  Forall sane (activations s) ->
  offer (call s k) = OfferReturned ->
  Forall sane (activations (set_flush s k fl)).
Proof.
  intros s k fl H Ho. unfold set_flush. cbn [activations].
  apply (Forall_update_at _ _ _ _ _ not_called); [exact H|].
  intros Hk. fold (call s k). rewrite Ho. split; cbn [offer flush]; auto.
  discriminate.
Qed.

Lemma awaiting_unflushed : forall s k,
  Forall sane (activations s) -> awaiting (offer (call s k)) ->
  flush (call s k) = FlushNotCalled.
Proof.
  intros s k H Hw.
  assert (Hk : k < List.length (activations s)).
  { apply called_offer. intros E. rewrite E in Hw. exact Hw. }
  destruct (sane_call s k H Hk) as [_ Hs].
  destruct (flush (call s k)) eqn:Ef; auto;
    rewrite Hs in Hw by discriminate; destruct Hw.
Qed.

Lemma flushing_returned : forall s k array i,
  Forall sane (activations s) -> flush (call s k) = FlushAwaitSend array i ->
  offer (call s k) = OfferReturned.
Proof.
  intros s k array i H Hf.
  assert (Hk : k < List.length (activations s))
    by (apply called_flush; rewrite Hf; discriminate).
  destruct (sane_call s k H Hk) as [_ Hs]. apply Hs. rewrite Hf. discriminate.
Qed.

Lemma step_sane : forall s e,
  Forall sane (activations s) ->
  Forall sane (activations (fst (step new_URL s e))).
Proof.
  intros s e H.
  pose proof (step_transition new_URL s e) as T.
  destruct (step new_URL s e) as [s1 out]; cbn [fst snd] in *.
  destruct T; auto.
  - cbn [activations]. apply Forall_app. split; [exact H|].
    repeat constructor; cbn [offer flush]; try discriminate. now intros [].
  - apply sane_set_offer; auto; try discriminate.
    intros _. apply awaiting_unflushed; auto. now rewrite H0.
  - apply sane_set_offer; auto; try discriminate.
    intros _. apply awaiting_unflushed; auto. now rewrite H0.
  - apply sane_set_offer; auto; try discriminate. now intros [].
  - apply sane_set_offer; auto; try discriminate.
    intros _. rewrite call_this. apply awaiting_unflushed; auto. now rewrite H0.
  - apply sane_set_offer; auto; try discriminate.
    intros _. rewrite call_this. apply awaiting_unflushed; auto. now rewrite H0.
  - apply sane_set_offer; auto; try discriminate.
    intros _. rewrite call_this. apply awaiting_unflushed; auto. now rewrite H0.
  - apply sane_set_offer; auto; try discriminate.
    intros _. apply awaiting_unflushed; auto. now rewrite H0.
  - apply sane_set_offer; auto; try discriminate.
    intros _. now apply awaiting_unflushed.
  - assert (Hk : k < List.length (activations s))
      by (apply called_offer; rewrite H0; discriminate).
    apply sane_set_flush.
    + apply sane_set_offer; auto; try discriminate. now intros [].
    + now rewrite call_set_offer_same.
  - assert (Hk : k < List.length (activations s))
      by (apply called_offer; rewrite H0; discriminate).
    apply sane_set_flush.
    + apply sane_set_offer; auto; try discriminate. now intros [].
    + now rewrite call_set_offer_same.
  - assert (Hk : k < List.length (activations s))
      by (apply called_offer; rewrite H0; discriminate).
    apply sane_set_flush.
    + unfold reassign_cachedCandidates. cbn [activations]. apply sane_detach.
      apply sane_set_offer; auto; try discriminate. now intros [].
    + rewrite call_reassign, detach_offer. now rewrite call_set_offer_same.
  - apply sane_set_flush; auto. eapply flushing_returned; eauto.
  - apply sane_set_flush; auto. eapply flushing_returned; eauto.
  - apply sane_set_flush.
    + unfold reassign_cachedCandidates. cbn [activations]. now apply sane_detach.
    + rewrite call_reassign, detach_offer. eapply flushing_returned; eauto.
  - apply sane_set_flush; auto. eapply flushing_returned; eauto.
Qed.

Lemma run_sane : forall evs s,
  Forall sane (activations s) ->
  Forall sane (activations (fst (run new_URL s evs))).
Proof.
  induction evs as [|e evs IH]; intros s H; [exact H|].
  rewrite run_cons. cbn [fst]. apply IH. now apply step_sane.
Qed.

Lemma reachable_sane : forall endpoint servers evs,
  Forall sane (activations (fst (run new_URL (constructed endpoint servers) evs))).
Proof. intros. apply run_sane. constructor. Qed.

End SideBySide.

(** ** Negotiations that end without a session *)

Lemma receiveIceServers_outcome : forall this headers,
  receiveIceServers this headers = (this, []) \/
  (exists l,
     get "link" headers = Some l /\ parse_link_header l <> [] /\
     iceServers (client this) <> [] /\
     receiveIceServers this headers =
       (this,
        [Console "Received ICE server configuration from server but have explicit configuration, ignoring"
           (LServers (iceServers (client this)) (parse_link_header l))])) \/
  (exists l,
     get "link" headers = Some l /\ parse_link_header l <> [] /\
     iceServers (client this) = [] /\
     receiveIceServers this headers =
       (set_client this (mkPeer (parse_link_header l)),
        [Console "Received ICE server configuration from server, applying"
           (LServers [] (parse_link_header l));
         SetConfiguration (parse_link_header l)])).
Proof.
  intros this0 headers. unfold receiveIceServers.
  destruct (get "link" headers) as [l|]; [|now left].
  destruct (l =? EmptyString); [now left|].
  destruct (parse_link_header l) as [|d ds] eqn:Ep; [now left|].
  cbn [List.length Nat.ltb Nat.leb].
  destruct (iceServers (client this0)) as [|x xs] eqn:Ei; cbn [List.length Nat.eqb].
  - right; right. exists l. rewrite Ep. repeat split; auto; discriminate.
  - right; left. exists l. rewrite Ep. repeat split; auto; discriminate.
Qed.

Lemma receiveIceServers_configured : forall this headers,
  iceServers (client this) <> [] ->
  client (fst (receiveIceServers this headers)) = client this.
Proof.
  intros this0 headers H.
  destruct (receiveIceServers_outcome this0 headers)
    as [E|[(l & _ & _ & _ & E)|(l & _ & _ & Hz & E)]]; rewrite E; auto.
  now destruct H.
Qed.

(** The fields of the client after a step. *)
Ltac this_after :=
  cbn [this set_offer set_flush reassign_cachedCandidates set_cachedCandidates
       set_sessionUrl set_client endpointUrl sessionUrl client cachedCandidates].

Section Halted.
Variable new_URL : string -> string -> option string.

Lemma step_client : forall s e,
  iceServers (client (this s)) <> [] ->
  client (this (fst (step new_URL s e))) = client (this s).
Proof.
  intros s e H.
  pose proof (step_transition new_URL s e) as T.
  destruct (step new_URL s e) as [s1 out]; cbn [fst snd] in *.
  destruct T; this_after; auto; now apply receiveIceServers_configured.
Qed.

Lemma run_client : forall evs s,
  iceServers (client (this s)) <> [] ->
  client (this (fst (run new_URL s evs))) = client (this s).
Proof.
  induction evs as [|e evs IH]; intros s H; [reflexivity|].
  rewrite run_cons. cbn [fst].
  pose proof (step_client s e H) as E.
  rewrite IH; [exact E|]. now rewrite E.
Qed.

Lemma halted_step : forall s e,
  halted s -> calls_of [e] = 0 ->
  halted (fst (step new_URL s e)) /\
  client (this (fst (step new_URL s e))) = client (this s) /\
  Forall is_console (snd (step new_URL s e)).
Proof.
  intros s e (Hl & Ho & Hf & Hs) Hc.
  assert (Hov : over (call s 0)) by (split; auto).
  pose proof (over_step new_URL s e 0 Hov) as Hcall.
  pose proof (step_length new_URL s e) as Hlen. rewrite Hc in Hlen.
  pose proof (step_transition new_URL s e) as T.
  destruct (step new_URL s e) as [s1 out]; cbn [fst snd] in *.
  unfold halted. rewrite Hcall, Hlen, Nat.add_0_r.
  assert (Hno : forall k,
            awaiting (offer (call s k)) \/
            (exists array i, flush (call s k) = FlushAwaitSend array i) -> False).
  { intros k Hk.
    assert (H0 : k = 0).
    { apply (sole_call s k Hl).
      destruct Hk as [Hk|(array & i & Hk)]; [left|right; rewrite Hk; discriminate].
      intros E. rewrite E in Hk. exact Hk. }
    subst k. destruct Hk as [Hk|(array & i & Hk)].
    - destruct Ho as [Ho|[m Ho]]; rewrite Ho in Hk; exact Hk.
    - congruence. }
  destruct T; this_after;
    try solve [exfalso;
               match goal with
               | H : offer (call _ ?k) = _ |- _ =>
                   apply (Hno k); left; rewrite H; exact I
               | H : awaiting (offer (call _ ?k)) |- _ =>
                   apply (Hno k); left; exact H
               | H : flush (call _ ?k) = FlushAwaitSend _ _ |- _ =>
                   apply (Hno k); right; eauto
               end];
    try discriminate; try congruence;
    repeat split; auto; repeat constructor.
Qed.

Lemma halted_run : forall evs s,
  halted s -> calls_of evs = 0 ->
  halted (fst (run new_URL s evs)) /\
  client (this (fst (run new_URL s evs))) = client (this s) /\
  Forall is_console (snd (run new_URL s evs)).
Proof.
  induction evs as [|e evs IH]; intros s H Hc.
  - cbn; repeat split; auto; apply H.
  - rewrite run_cons; cbn [fst snd].
    change (e :: evs) with ([e] ++ evs) in Hc. rewrite calls_of_app in Hc.
    destruct (halted_step s e H) as (H1 & C1 & F1); [lia|].
    destruct (IH _ H1) as (H2 & C2 & F2); [lia|].
    repeat split; try apply H2; try congruence.
    apply Forall_app; auto.
Qed.

Lemma console_quiet : forall out,
  Forall is_console out -> fetched out = [].
Proof.
  intros out H. induction H as [|e out He Hout IH]; [reflexivity|].
  destruct e; try destruct He. exact IH.
Qed.

End Halted.

(** Where C3 fails as written.  The first call of [sendOffer] is answered
    201 without [Location] and throws.  [sendOffer] is called again and
    answered with a [Location]: [sessionUrl] gets set after all, and the
    candidate queued during the first call is flushed. *)
Lemma C3_counterexample :
  let s0 := constructed sample_endpoint [] in
  let thrown := sample_offer_sent ++ [Settled 0 (Responded sample_no_location)] in
  let evs :=
    thrown ++
    [CallSendOffer; Settled 1 (OfferCreated "v=0"); Settled 1 LocalDescriptionSet;
     Settled 1 (Responded sample_created); Settled 1 (BodyRead "v=0");
     Settled 1 RemoteDescriptionSet; Settled 1 (TrickleSettled true)] in
  offer (call (fst (run resolve_path s0 thrown)) 0) =
    OfferThrown "Session not provided in Location header" /\
  sessionUrl (this (fst (run resolve_path s0 thrown))) = None /\
  cachedCandidates (this (fst (run resolve_path s0 thrown))) = [sample_c1] /\
  sessionUrl (this (fst (run resolve_path s0 evs))) = Some sample_session /\
  patches (snd (run resolve_path s0 evs)) =
    [trickle_request sample_session sample_c1] /\
  cachedCandidates (this (fst (run resolve_path s0 evs))) = [].
Proof. repeat split. Qed.

(** C3, as the code has it.  When the POST of a call of [sendOffer]
    fulfils with a 2xx response that has no [Location] header, that call
    throws [Session not provided in Location header], leaves [sessionUrl]
    as it was and dispatches no event; whatever is delivered afterwards,
    the call stays thrown and never calls the flush.  If [sendOffer] is
    called once only, [sessionUrl] stays unset for good, no PATCH is ever
    sent, the queue keeps every early arrival, and nothing but console
    lines is produced after the answer. *)
Theorem C3_missing_location_is_fatal :
  forall new_URL endpoint servers before k response after,
    let s0 := constructed endpoint servers in
    let s1 := fst (run new_URL s0 before) in
    let answered := step new_URL s1 (Settled k (Responded response)) in
    let evs := before ++ Settled k (Responded response) :: after in
    let final := run new_URL s0 evs in
    let thrown :=
      mkActivation (OfferThrown "Session not provided in Location header")
        FlushNotCalled in
    offer (call s1 k) = AwaitFetch ->
    ok response = true ->
    get "Location" (headers response) = None ->
    call (fst answered) k = thrown /\
    sessionUrl (this (fst answered)) = sessionUrl (this s1) /\
    (forall type detail, ~ In (DispatchEvent type detail) (snd answered)) /\
    call (fst final) k = thrown /\
    (calls_of evs <= 1 ->
       sessionUrl (this (fst final)) = None /\
       patches (snd final) = [] /\
       cachedCandidates (this (fst final)) = arrivals new_URL true s0 evs /\
       Forall is_console (snd (run new_URL (fst answered) after))).
Proof.
  intros new_URL endpoint servers before k response after s0 s1 answered evs
    final thrown Ho Hok Hloc.
  pose proof (reachable_sane new_URL endpoint servers before) as Hsane.
  fold s0 in Hsane. fold s1 in Hsane.
  assert (Hk : k < List.length (activations s1))
    by (apply called_offer; rewrite Ho; discriminate).
  assert (Hfl : flush (call s1 k) = FlushNotCalled)
    by (apply awaiting_unflushed; [exact Hsane|rewrite Ho; exact I]).
  destruct (receiveIceServers_keeps (this s1) (headers response))
    as (Kc & Ks & _ & Kf & _ & _).
  assert (Ea : answered =
               (set_offer
                  (mkSystem (fst (receiveIceServers (this s1) (headers response)))
                     (activations s1))
                  k (OfferThrown "Session not provided in Location header"),
                snd (receiveIceServers (this s1) (headers response)))).
  { unfold answered. cbn [step]. unfold sendOffer_resume. rewrite Ho.
    unfold sendOffer_response. rewrite Hok, Hloc. cbn [negb].
    destruct (receiveIceServers (this s1) (headers response)); reflexivity. }
  assert (Ec : call (fst answered) k = thrown).
  { rewrite Ea. cbn [fst]. rewrite call_set_offer_same by exact Hk.
    rewrite call_this, Hfl. reflexivity. }
  assert (Ef : fst final = fst (run new_URL (fst answered) after)).
  { unfold final, evs. rewrite run_app_fst. fold s1. rewrite run_cons. reflexivity. }
  split; [exact Ec|]. split; [rewrite Ea; exact Ks|].
  split; [|split].
  - intros type detail Hin. rewrite Ea in Hin. cbn [snd] in Hin.
    unfold receiveIceServers in Hin.
    repeat match type of Hin with
           | context [match ?x with _ => _ end] => destruct x
           end; cbn in Hin; intuition discriminate.
  - rewrite Ef, over_run; [exact Ec|]. rewrite Ec. split; cbn; eauto.
  - intros Hcalls.
    assert (Hb : calls_of before = 1 /\ calls_of after = 0).
    { pose proof (run_length new_URL before s0) as Hlen.
      change (List.length (activations s1) = 0 + calls_of before) in Hlen.
      unfold evs in Hcalls. rewrite calls_of_app in Hcalls.
      cbn [calls_of] in Hcalls. lia. }
    destruct Hb as [Hb1 Hb2].
    destruct (reachable_invariant new_URL endpoint servers before)
      as (Hl & Hpc & _); [lia|].
    fold s0 in Hl, Hpc. fold s1 in Hl, Hpc.
    assert (k = 0) by lia. subst k.
    unfold pc_ok in Hpc. rewrite Ho in Hpc. destruct Hpc as [Hs _].
    assert (Hh : halted (fst answered)).
    { unfold halted. rewrite Ec. rewrite Ea. cbn [fst].
      rewrite length_set_offer. cbn [this set_offer activations offer flush thrown].
      rewrite Ks. repeat split; eauto. }
    destruct (halted_run new_URL after _ Hh Hb2) as ((_ & _ & Ff & Fs) & _ & Fc).
    destruct (reachable_invariant new_URL endpoint servers evs Hcalls)
      as (_ & _ & Hq & Hd & _ & Hp).
    fold s0 in Hq, Hd, Hp. fold final in Hq, Hd, Hp.
    unfold queue_ok in Hq. rewrite Ef in Hq, Hd. rewrite Ff, Fs in *.
    destruct Hq as [Hc Hr]. cbn [requests] in Hd.
    rewrite Hr, Hd in Hp. cbn [app] in Hp.
    rewrite Ef. repeat split; auto.
    now apply Permutation_nil, Permutation_sym.
Qed.

(** The theorem on a 201 answer without [Location], followed by events
    that would otherwise carry the negotiation on. *)
Lemma C3_witness :
  let s0 := constructed sample_endpoint [] in
  let after := [IceCandidate (Some sample_c2); Settled 0 (BodyRead "v=0");
                Settled 0 RemoteDescriptionSet; Settled 0 (TrickleSettled true)] in
  let evs := sample_offer_sent ++ Settled 0 (Responded sample_no_location) :: after in
  (offer (call (fst (run resolve_path s0 sample_offer_sent)) 0) = AwaitFetch /\
   ok sample_no_location = true /\
   get "Location" (headers sample_no_location) = None /\
   calls_of evs <= 1) /\
  offer (call (fst (run resolve_path s0 evs)) 0) =
    OfferThrown "Session not provided in Location header" /\
  sessionUrl (this (fst (run resolve_path s0 evs))) = None /\
  patches (snd (run resolve_path s0 evs)) = [] /\
  cachedCandidates (this (fst (run resolve_path s0 evs))) = [sample_c1; sample_c2].
Proof.
  intros s0 after evs.
  assert (Ho : offer (call (fst (run resolve_path s0 sample_offer_sent)) 0)
               = AwaitFetch) by reflexivity.
  assert (Hok : ok sample_no_location = true) by reflexivity.
  assert (Hl : get "Location" (headers sample_no_location) = None) by reflexivity.
  assert (Hc : calls_of evs <= 1) by (cbn; lia).
  destruct (C3_missing_location_is_fatal resolve_path sample_endpoint []
              sample_offer_sent 0 sample_no_location after Ho Hok Hl)
    as (_ & _ & _ & Hcall & Hone).
  destruct (Hone Hc) as (Hs & Hp & Hq & _).
  split; [repeat split; assumption|].
  split; [exact (f_equal offer Hcall)|].
  split; [exact Hs|]. split; [exact Hp|]. exact Hq.
Defined.

(** C4.  When the POST of a call of [sendOffer] fulfils with a non-2xx
    response, the call dispatches one [responseerror] event carrying the
    response and returns (it does not throw), and nothing else changes;
    whatever is delivered afterwards, the call stays returned and never
    calls the flush.  If [sendOffer] is called once only, [sessionUrl]
    stays unset, the peer connection keeps its configuration, and nothing
    but console lines is produced: no relay-server discovery, no remote
    description, no second POST. *)
Theorem C4_non_2xx_is_recoverable :
  forall new_URL endpoint servers before k response after,
    let s0 := constructed endpoint servers in
    let s1 := fst (run new_URL s0 before) in
    let stopped := set_offer s1 k OfferReturned in
    offer (call s1 k) = AwaitFetch ->
    ok response = false ->
    step new_URL s1 (Settled k (Responded response)) =
      (stopped, [DispatchEvent "responseerror" response]) /\
    offer (call (fst (run new_URL stopped after)) k) = OfferReturned /\
    flush (call (fst (run new_URL stopped after)) k) = FlushNotCalled /\
    (calls_of (before ++ after) <= 1 ->
       sessionUrl (this (fst (run new_URL stopped after))) = None /\
       client (this (fst (run new_URL stopped after))) = client (this s1) /\
       Forall is_console (snd (run new_URL stopped after))).
Proof.
  intros new_URL endpoint servers before k response after s0 s1 stopped Ho Hok.
  pose proof (reachable_sane new_URL endpoint servers before) as Hsane.
  fold s0 in Hsane. fold s1 in Hsane.
  assert (Hk : k < List.length (activations s1))
    by (apply called_offer; rewrite Ho; discriminate).
  assert (Hfl : flush (call s1 k) = FlushNotCalled)
    by (apply awaiting_unflushed; [exact Hsane|rewrite Ho; exact I]).
  assert (Ec : call stopped k = mkActivation OfferReturned FlushNotCalled).
  { unfold stopped. rewrite call_set_offer_same by exact Hk. now rewrite Hfl. }
  assert (Eo : call (fst (run new_URL stopped after)) k =
               mkActivation OfferReturned FlushNotCalled).
  { rewrite over_run; [exact Ec|]. rewrite Ec. split; cbn; auto. }
  split; [|split; [now rewrite Eo|split; [now rewrite Eo|]]].
  - cbn [step]. unfold sendOffer_resume. rewrite Ho.
    unfold sendOffer_response. rewrite Hok. reflexivity.
  - intros Hcalls.
    assert (Hb : calls_of before = 1 /\ calls_of after = 0).
    { pose proof (run_length new_URL before s0) as Hlen.
      change (List.length (activations s1) = 0 + calls_of before) in Hlen.
      rewrite calls_of_app in Hcalls. lia. }
    destruct Hb as [Hb1 Hb2].
    destruct (reachable_invariant new_URL endpoint servers before)
      as (Hl & Hpc & _); [lia|].
    fold s0 in Hl, Hpc. fold s1 in Hl, Hpc.
    assert (k = 0) by lia. subst k.
    unfold pc_ok in Hpc. rewrite Ho in Hpc. destruct Hpc as [Hs _].
    assert (Hh : halted stopped).
    { unfold halted. rewrite Ec. unfold stopped. rewrite length_set_offer.
      cbn [this set_offer offer flush]. repeat split; auto. }
    destruct (halted_run new_URL after _ Hh Hb2) as ((_ & _ & _ & Fs) & Fcl & Fc).
    repeat split; auto.
Qed.

(** The theorem on a 503 answer. *)
Lemma C4_witness :
  let s0 := constructed sample_endpoint [] in
  let s1 := fst (run resolve_path s0 sample_offer_sent) in
  let after := [IceCandidate (Some sample_c2); Settled 0 (BodyRead "v=0");
                Settled 0 RemoteDescriptionSet; Settled 0 (TrickleSettled true)] in
  let final := run resolve_path (set_offer s1 0 OfferReturned) after in
  (offer (call s1 0) = AwaitFetch /\ ok sample_refused = false /\
   calls_of (sample_offer_sent ++ after) <= 1) /\
  snd (step resolve_path s1 (Settled 0 (Responded sample_refused))) =
    [DispatchEvent "responseerror" sample_refused] /\
  offer (call (fst final) 0) = OfferReturned /\
  sessionUrl (this (fst final)) = None.
Proof.
  intros s0 s1 after final.
  assert (Ho : offer (call s1 0) = AwaitFetch) by reflexivity.
  assert (Hok : ok sample_refused = false) by reflexivity.
  assert (Hc : calls_of (sample_offer_sent ++ after) <= 1) by (cbn; lia).
  destruct (C4_non_2xx_is_recoverable resolve_path sample_endpoint []
              sample_offer_sent 0 sample_refused after Ho Hok)
    as (Hstep & Hret & _ & Hone).
  split; [repeat split; assumption|].
  split; [exact (f_equal snd Hstep)|].
  split; [exact Hret|]. exact (proj1 (Hone Hc)).
Defined.

(** C9.  When the POST of a call of [sendOffer] fulfils with a 2xx
    response whose [Link] header parses to a non-empty list while the peer
    connection has no relay server configured and the response has no
    [Location] header, [receiveIceServers] installs the parsed list before
    line 69 throws: the same step both calls [setConfiguration] and ends
    in the thrown state, and the installed list is still the configuration
    after any later events. *)
Theorem C9_relay_servers_survive_the_throw :
  forall new_URL endpoint servers before k response linkHeader after,
    let s0 := constructed endpoint servers in
    let s1 := fst (run new_URL s0 before) in
    let discovered := parse_link_header linkHeader in
    let thrown :=
      set_offer
        (mkSystem (set_client (this s1) (mkPeer discovered)) (activations s1))
        k (OfferThrown "Session not provided in Location header") in
    offer (call s1 k) = AwaitFetch ->
    ok response = true ->
    get "link" (headers response) = Some linkHeader ->
    discovered <> [] ->
    iceServers (client (this s1)) = [] ->
    get "Location" (headers response) = None ->
    step new_URL s1 (Settled k (Responded response)) =
      (thrown,
       [Console "Received ICE server configuration from server, applying"
          (LServers [] discovered);
        SetConfiguration discovered]) /\
    offer (call (fst (run new_URL thrown after)) k) =
      OfferThrown "Session not provided in Location header" /\
    iceServers (client (this (fst (run new_URL thrown after)))) = discovered.
Proof.
  intros new_URL endpoint servers before k response linkHeader after s0 s1
    discovered thrown Ho Hok Hlink Hne Hzero Hloc.
  pose proof (reachable_sane new_URL endpoint servers before) as Hsane.
  fold s0 in Hsane. fold s1 in Hsane.
  assert (Hk : k < List.length (activations s1))
    by (apply called_offer; rewrite Ho; discriminate).
  assert (Hfl : flush (call s1 k) = FlushNotCalled)
    by (apply awaiting_unflushed; [exact Hsane|rewrite Ho; exact I]).
  assert (Ec : call thrown k =
               mkActivation (OfferThrown "Session not provided in Location header")
                 FlushNotCalled).
  { unfold thrown. rewrite call_set_offer_same by exact Hk.
    rewrite call_this, Hfl. reflexivity. }
  split; [|split].
  - cbn [step]. unfold sendOffer_resume. rewrite Ho.
    unfold sendOffer_response, receiveIceServers.
    rewrite Hok, Hlink, Hzero. cbn [negb].
    destruct (linkHeader =? EmptyString) eqn:El.
    { apply String.eqb_eq in El. subst linkHeader. now destruct Hne. }
    fold discovered.
    destruct discovered as [|d ds]; [now destruct Hne|].
    cbn [List.length Nat.ltb Nat.leb Nat.eqb]. rewrite Hloc. reflexivity.
  - rewrite over_run; [now rewrite Ec|]. rewrite Ec. split; cbn; eauto.
  - rewrite run_client; [reflexivity|]. exact Hne.
Qed.

(** The theorem on a 201 answer that names a relay server and no
    session. *)
Lemma C9_witness :
  let s0 := constructed sample_endpoint [] in
  let s1 := fst (run resolve_path s0 sample_offer_sent) in
  let after := [IceCandidate (Some sample_c2); Settled 0 (OfferRejected "late")] in
  (offer (call s1 0) = AwaitFetch /\ ok sample_no_location = true /\
   get "link" (headers sample_no_location) = Some sample_link /\
   parse_link_header sample_link <> [] /\
   iceServers (client (this s1)) = [] /\
   get "Location" (headers sample_no_location) = None) /\
  offer (call (fst (step resolve_path s1 (Settled 0 (Responded sample_no_location)))) 0) =
    OfferThrown "Session not provided in Location header" /\
  iceServers (client (this (fst (run resolve_path s1
                                   (Settled 0 (Responded sample_no_location) :: after))))) =
    [sample_turn].
Proof.
  intros s0 s1 after.
  assert (Ho : offer (call s1 0) = AwaitFetch) by reflexivity.
  assert (Hok : ok sample_no_location = true) by reflexivity.
  assert (Hlink : get "link" (headers sample_no_location) = Some sample_link)
    by reflexivity.
  assert (Hne : parse_link_header sample_link <> []) by discriminate.
  assert (Hz : iceServers (client (this s1)) = []) by reflexivity.
  assert (Hl : get "Location" (headers sample_no_location) = None) by reflexivity.
  destruct (C9_relay_servers_survive_the_throw resolve_path sample_endpoint []
              sample_offer_sent 0 sample_no_location sample_link after
              Ho Hok Hlink Hne Hz Hl) as (Hstep & _ & Hice).
  split; [repeat split; assumption|].
  unfold s1, s0. rewrite run_cons, Hstep. cbn [fst]. split; [reflexivity|].
  rewrite Hice. reflexivity.
Defined.

(** ** Relay-server discovery *)

(** The parsing primitives on the shapes the header takes. *)

Example split_keeps_empty_pieces :
  JsString.split "," "a,,b" = ["a"; EmptyString; "b"] /\
  JsString.split ";" EmptyString = [EmptyString].
Proof. split; reflexivity. Qed.

Example trim_both_ends :
  trim "  rel  " = "rel" /\ trim EmptyString = EmptyString /\ trim " a b " = "a b".
Proof. repeat split; reflexivity. Qed.

Example match_angle_is_greedy :
  Regex.match_angle "<turn:example.com>" = Some "turn:example.com" /\
  Regex.match_angle "x<a>b>c" = Some "a>b" /\
  Regex.match_angle "<>" = None /\
  Regex.match_angle "turn:example.com" = None.
Proof. repeat split; reflexivity. Qed.

Example match_pair_is_leftmost :
  Regex.match_pair ("username=" ++ quoted "u") = Some ("username", "u") /\
  Regex.match_pair ("a=b=" ++ quoted "c") = Some ("b", "c") /\
  Regex.match_pair ("credential=" ++ quoted EmptyString) = None /\
  Regex.match_pair "<turn:example.com>" = None.
Proof. repeat split; reflexivity. Qed.

Example parse_two_links :
  parse_link_header
    ("<stun:a.example>; rel=" ++ quoted "ice-server"
     ++ ", <https://b.example>; rel=" ++ quoted "next"
     ++ ",<turn:c.example>;rel=" ++ quoted "ice-server"
     ++ ";credential-type=" ++ quoted "password")%string =
  [mkServer ["stun:a.example"] None None None;
   mkServer ["turn:c.example"] None None (Some "password")].
Proof. reflexivity. Qed.



(** C5.  For headers whose [Link] value is
    [<turn:example.com>; rel=ice-server; username=u; credential=p] (the
    three attribute values in double quotes): with no relay server
    configured, [receiveIceServers] installs exactly the one descriptor
    with that URL, user name and credential; with a non-empty
    configuration it leaves the client as it is and never calls
    [setConfiguration]; and for any headers the configuration afterwards
    is either the one before or the whole parsed list, never a mixture. *)
Theorem C5_link_header_applied_or_ignored : forall this headers,
  get "link" headers = Some sample_link ->
  (iceServers (client this) = [] ->
     receiveIceServers this headers =
       (set_client this (mkPeer [sample_turn]),
        [Console "Received ICE server configuration from server, applying"
           (LServers [] [sample_turn]);
         SetConfiguration [sample_turn]])) /\
  (iceServers (client this) <> [] ->
     fst (receiveIceServers this headers) = this /\
     forall servers,
       ~ In (SetConfiguration servers) (snd (receiveIceServers this headers))) /\
  (forall this' headers',
     let after := iceServers (client (fst (receiveIceServers this' headers'))) in
     after = iceServers (client this') \/
     exists l, get "link" headers' = Some l /\ after = parse_link_header l).
Proof.
  intros this0 headers Hlink. split; [|split].
  - intros Hzero. unfold receiveIceServers. rewrite Hlink, Hzero. reflexivity.
  - intros Hsome. unfold receiveIceServers. rewrite Hlink.
    destruct (iceServers (client this0)) as [|x xs]; [now destruct Hsome|].
    split; [reflexivity|].
    intros servers [Hin|[]]. discriminate Hin.
  - intros this' headers' after. unfold after.
    destruct (receiveIceServers_outcome this' headers')
      as [E|[(l & Hl & _ & _ & E)|(l & Hl & _ & _ & E)]]; rewrite E; cbn [fst].
    + now left.
    + now left.
    + right. exists l. split; [exact Hl|reflexivity].
Qed.

(** The theorem on a client without relay servers and on one the caller
    configured. *)
Lemma C5_witness :
  let caller := [mkServer ["stun:stun.example.net"] None None None] in
  let headers := [("Location", "/session/abc123"); ("Link", sample_link)] in
  let unconfigured := mkClient [] sample_endpoint None (mkPeer []) in
  let configured := mkClient [] sample_endpoint None (mkPeer caller) in
  get "link" headers = Some sample_link /\
  (iceServers (client unconfigured) = [] /\
   iceServers (client (fst (receiveIceServers unconfigured headers))) =
     [sample_turn]) /\
  (iceServers (client configured) <> [] /\
   iceServers (client (fst (receiveIceServers configured headers))) = caller).
Proof.
  intros caller headers unconfigured configured.
  assert (Hl : get "link" headers = Some sample_link) by reflexivity.
  assert (Hz : iceServers (client unconfigured) = []) by reflexivity.
  assert (Hn : iceServers (client configured) <> []) by discriminate.
  split; [exact Hl|split; split; try assumption].
  - rewrite (proj1 (C5_link_header_applied_or_ignored unconfigured headers Hl) Hz).
    reflexivity.
  - rewrite (proj1 (proj1 (proj2
               (C5_link_header_applied_or_ignored configured headers Hl)) Hn)).
    reflexivity.
Defined.

(** ** Track pairing *)

(** Without a container (a subscriber built without one, a duplex client
    with none in its configuration and none in the document), the arrival
    sequence video1, video2, audio, video3 ends differently: the video3
    notification creates a stream for each of the three recorded video
    tracks again, the first two for the second time, and no pairing is ever
    handed to [createPlayerElement]. *)
Lemma C7_counterexample :
  let whep := WhepClient.constructor None None in
  let duplex := DuplexClient.constructor None None None in
  let got ev := Console "Got a track" (LTrack ev) in
  let again :=
    [NewMediaStream [sample_audio; sample_video1];
     NewMediaStream [sample_video2];
     NewMediaStream [sample_video3]] in
  nth_error (snd (WhepClient.handleGotTracks whep sample_arrivals)) 3 =
    Some (got (mkTrackEvent sample_video3 ["remote"]) :: again) /\
  WhepClient.videoElements (fst (WhepClient.handleGotTracks whep sample_arrivals))
    = [] /\
  nth_error (snd (DuplexClient.handleGotTracks duplex sample_arrivals)) 3 =
    Some (got (mkTrackEvent sample_video3 ["remote"]) :: again) /\
  DuplexClient.videoElements
    (fst (DuplexClient.handleGotTracks duplex sample_arrivals)) = [].
Proof. repeat split. Qed.

(** C7, as the code has it: with a container configured.  For video
    tracks video1, video2, video3 that each arrive with a stream and an
    audio track arriving between video2 and video3, in a subscriber and in
    a duplex client alike: the two video notifications before the audio
    only log; the audio notification renders the stream of audio and
    video1, then the stream of video2 alone; the video3 notification
    renders the stream of video3 alone and nothing else; the client ends
    with exactly these three players, in that order. *)
Theorem C7_pairing_with_container :
  forall video1 video2 video3 audio streams1 streams2 streams3 streamsA
         container count inDocument,
    kind video1 = "video" -> kind video2 = "video" -> kind video3 = "video" ->
    kind audio = "audio" ->
    streams1 <> [] -> streams2 <> [] -> streams3 <> [] ->
    let evs := [mkTrackEvent video1 streams1; mkTrackEvent video2 streams2;
                mkTrackEvent audio streamsA; mkTrackEvent video3 streams3] in
    let got ev := Console "Got a track" (LTrack ev) in
    let outs :=
      [[got (mkTrackEvent video1 streams1)];
       [got (mkTrackEvent video2 streams2)];
       got (mkTrackEvent audio streamsA)
         :: rendered container [audio; video1] ++ rendered container [video2];
       got (mkTrackEvent video3 streams3) :: rendered container [video3]] in
    let players :=
      map (mkVideo true true true) [[audio; video1]; [video2]; [video3]] in
    let whep :=
      WhepClient.handleGotTracks
        (WhepClient.constructor count (Some container)) evs in
    let duplex :=
      DuplexClient.handleGotTracks
        (DuplexClient.constructor count (Some container) inDocument) evs in
    snd whep = outs /\ WhepClient.videoElements (fst whep) = players /\
    snd duplex = outs /\ DuplexClient.videoElements (fst duplex) = players.
Proof.
  intros [k1 i1] [k2 i2] [k3 i3] [ka ia] s1 s2 s3 sa c count inDocument
    H1 H2 H3 Ha N1 N2 N3.
  cbn [kind] in *. subst k1 k2 k3 ka.
  destruct s1 as [|x1 s1]; [now destruct N1|].
  destruct s2 as [|x2 s2]; [now destruct N2|].
  destruct s3 as [|x3 s3]; [now destruct N3|].
  repeat split.
Qed.

(** The theorem on the sample tracks and a container named [videos]. *)
Lemma C7_witness :
  let whep :=
    WhepClient.handleGotTracks (WhepClient.constructor (Some (integer 3)) (Some "videos"))
      sample_arrivals in
  let got ev := Console "Got a track" (LTrack ev) in
  (kind sample_video1 = "video" /\ kind sample_audio = "audio" /\
   streams (mkTrackEvent sample_video1 ["remote"]) <> []) /\
  snd whep =
    [[got (mkTrackEvent sample_video1 ["remote"])];
     [got (mkTrackEvent sample_video2 ["remote"])];
     got (mkTrackEvent sample_audio ["remote"])
       :: rendered "videos" [sample_audio; sample_video1]
          ++ rendered "videos" [sample_video2];
     got (mkTrackEvent sample_video3 ["remote"])
       :: rendered "videos" [sample_video3]] /\
  WhepClient.videoElements (fst whep) =
    map (mkVideo true true true)
      [[sample_audio; sample_video1]; [sample_video2]; [sample_video3]].
Proof.
  intros whep got.
  assert (N : ["remote"] <> @nil string) by discriminate.
  destruct (C7_pairing_with_container sample_video1 sample_video2 sample_video3
              sample_audio ["remote"] ["remote"] ["remote"] ["remote"]
              "videos" (Some (integer 3)) None
              eq_refl eq_refl eq_refl eq_refl N N N) as (Ho & He & _).
  split; [repeat split; exact N|].
  split; [exact Ho|exact He].
Defined.

Section NoContainer.
Import WhepClient.



End NoContainer.

Lemma duplex_pair_from : forall videos i audio d,
  as_whep (fst (DuplexClient.pair_from i videos audio d)) =
    fst (WhepClient.pair_from i videos audio (as_whep d)) /\
  snd (DuplexClient.pair_from i videos audio d) =
    snd (WhepClient.pair_from i videos audio (as_whep d)).
Proof.
  induction videos as [|v vs IH]; intros i a d; [split; reflexivity|].
  cbn [DuplexClient.pair_from WhepClient.pair_from].
  change (WhepClient.videoElements (as_whep d)) with (DuplexClient.videoElements d).
  change (WhepClient.container (as_whep d)) with (DuplexClient.container d).
  destruct (nth_error (DuplexClient.videoElements d) i); [apply IH|].
  destruct (DuplexClient.container d) as [c|] eqn:Ec.
  - cbn [createPlayerElement].
    match goal with
    | |- context [DuplexClient.pair_from (S i) vs a ?d1] =>
        destruct (IH (S i) a d1) as [IH1 IH2];
        destruct (DuplexClient.pair_from (S i) vs a d1) as [d2 out2]
    end.
    unfold as_whep in IH1 at 2. cbn [DuplexClient.outputVideoTracks
      DuplexClient.outputAudioTrack DuplexClient.videoElements
      DuplexClient.container DuplexClient.simulcastVideoCount] in IH1.
    change (WhepClient.outputVideoTracks (as_whep d))
      with (DuplexClient.outputVideoTracks d).
    change (WhepClient.outputAudioTrack (as_whep d))
      with (DuplexClient.outputAudioTrack d).
    change (WhepClient.simulcastVideoCount (as_whep d))
      with (DuplexClient.simulcastVideoCount d).
    destruct (WhepClient.pair_from (S i) vs a _) as [w2 out2'].
    cbn [fst snd] in *. subst. split; reflexivity.
  - destruct (IH (S i) a d) as [IH1 IH2].
    destruct (DuplexClient.pair_from (S i) vs a d) as [d2 out2].
    destruct (WhepClient.pair_from (S i) vs a (as_whep d)) as [w2 out2'].
    cbn [fst snd] in *. subst. split; reflexivity.
Qed.

Lemma duplex_handleGotTrack : forall d ev,
  as_whep (fst (DuplexClient.handleGotTrack d ev)) =
    fst (WhepClient.handleGotTrack (as_whep d) ev) /\
  snd (DuplexClient.handleGotTrack d ev) =
    snd (WhepClient.handleGotTrack (as_whep d) ev).
Proof.
  intros d ev. unfold DuplexClient.handleGotTrack, WhepClient.handleGotTrack.
  change (WhepClient.outputVideoTracks (as_whep d))
    with (DuplexClient.outputVideoTracks d).
  change (WhepClient.outputAudioTrack (as_whep d))
    with (DuplexClient.outputAudioTrack d).
  change (WhepClient.videoElements (as_whep d))
    with (DuplexClient.videoElements d).
  change (WhepClient.container (as_whep d)) with (DuplexClient.container d).
  change (WhepClient.simulcastVideoCount (as_whep d))
    with (DuplexClient.simulcastVideoCount d).
  remember (if (kind (track ev) =? "video")
                  && (0 <? List.length (streams ev))%nat
            then DuplexClient.outputVideoTracks d ++ [track ev]
            else DuplexClient.outputVideoTracks d) as videos eqn:Ev0.
  remember (if kind (track ev) =? "audio" then Some (track ev)
            else DuplexClient.outputAudioTrack d) as audio eqn:Ea0.
  clear Ev0 Ea0. cbv zeta.
  destruct audio as [a|]; [|split; reflexivity].
  cbn [DuplexClient.videoElements WhepClient.videoElements].
  destruct (List.length (DuplexClient.videoElements d) <? List.length videos)%nat;
    [|split; reflexivity].
  match goal with
  | |- context [DuplexClient.pair_from 0 videos a ?d1] =>
      destruct (duplex_pair_from videos 0 a d1) as [P1 P2];
      destruct (DuplexClient.pair_from 0 videos a d1) as [d2 out2]
  end.
  unfold as_whep in P1 at 2. cbn [DuplexClient.outputVideoTracks
    DuplexClient.outputAudioTrack DuplexClient.videoElements
    DuplexClient.container DuplexClient.simulcastVideoCount] in P1.
  destruct (WhepClient.pair_from 0 videos a _) as [w2 out2'].
  cbn [fst snd] in *. subst. split; reflexivity.
Qed.

Section WithContainer.
Import WhepClient.

Lemma groupings_from_later : forall videos i audio,
  groupings_from (S i) audio videos = map (fun video => [video]) videos.
Proof.
  induction videos as [|v vs IH]; intros i a; [reflexivity|].
  cbn [groupings_from map Nat.eqb]. now rewrite IH.
Qed.

Lemma groupings_from_start : forall videos audio,
  groupings_from 0 audio videos = groupings audio videos.
Proof.
  intros [|v vs] a; [reflexivity|].
  cbn [groupings_from groupings Nat.eqb]. now rewrite groupings_from_later.
Qed.

Lemma groupings_length : forall videos audio,
  List.length (groupings audio videos) = List.length videos.
Proof.
  intros [|v vs] a; [reflexivity|].
  cbn [groupings List.length]. now rewrite length_map.
Qed.

Lemma whep_pair_from_container : forall videos i audio this c,
  container this = Some c ->
  let new := skipn (List.length (videoElements this) - i)
               (groupings_from i audio videos) in
  pair_from i videos audio this =
  (mk (outputVideoTracks this) (outputAudioTrack this)
      (videoElements this ++ map (mkVideo true true true) new)
      (container this) (simulcastVideoCount this),
   flat_map (rendered c) new).
Proof.
  induction videos as [|v vs IH]; intros i a this0 c Hc new.
  - unfold new. cbn [groupings_from]. rewrite skipn_nil. cbn [map flat_map pair_from].
    rewrite app_nil_r. now destruct this0.
  - cbn [pair_from].
    destruct (nth_error (videoElements this0) i) eqn:En.
    + assert (Hi : i < List.length (videoElements this0))
        by (apply nth_error_Some; congruence).
      rewrite (IH (S i) a this0 c Hc). unfold new. cbn [groupings_from].
      replace (List.length (videoElements this0) - i)
        with (S (List.length (videoElements this0) - S i)) by lia.
      reflexivity.
    + apply nth_error_None in En.
      rewrite Hc. cbn [createPlayerElement].
      match goal with
      | |- context [pair_from (S i) vs a ?t1] =>
          rewrite (IH (S i) a t1 c eq_refl)
      end.
      cbn [videoElements outputVideoTracks outputAudioTrack container
           simulcastVideoCount].
      unfold new.
      replace (List.length (videoElements this0) - i) with 0 by lia.
      rewrite length_app. cbn [List.length].
      replace (List.length (videoElements this0) + 1 - S i) with 0 by lia.
      cbn [skipn groupings_from map flat_map rendered app].
      rewrite <- app_assoc. reflexivity.
Qed.

End WithContainer.


Lemma duplex_handleGotTracks : forall evs d,
  as_whep (fst (DuplexClient.handleGotTracks d evs)) =
    fst (WhepClient.handleGotTracks (as_whep d) evs) /\
  snd (DuplexClient.handleGotTracks d evs) =
    snd (WhepClient.handleGotTracks (as_whep d) evs).
Proof.
  induction evs as [|ev evs IH]; intros d; [split; reflexivity|].
  cbn [DuplexClient.handleGotTracks WhepClient.handleGotTracks].
  destruct (duplex_handleGotTrack d ev) as [H1 H2].
  destruct (DuplexClient.handleGotTrack d ev) as [d1 out1].
  destruct (WhepClient.handleGotTrack (as_whep d) ev) as [w1 out1'].
  cbn [fst snd] in H1, H2. subst w1 out1'.
  destruct (IH d1) as [I1 I2].
  destruct (DuplexClient.handleGotTracks d1 evs) as [d2 outs].
  destruct (WhepClient.handleGotTracks (as_whep d1) evs) as [w2 outs'].
  cbn [fst snd] in *. subst. split; reflexivity.
Qed.



(** ** Configuration and gathering *)

Section Configuration.
Variable new_URL : string -> string -> option string.

Lemma step_configuration : forall s e,
  let s1 := fst (step new_URL s e) in
  (client (this s1) = client (this s) /\
   forall l, ~ In (SetConfiguration l) (snd (step new_URL s e))) \/
  (iceServers (client (this s)) = [] /\
   exists k response l,
     e = Settled k (Responded response) /\ ok response = true /\
     get "link" (headers response) = Some l /\
     parse_link_header l <> [] /\
     iceServers (client (this s1)) = parse_link_header l).
Proof.
  intros s e.
  pose proof (step_transition new_URL s e) as T.
  destruct (step new_URL s e) as [s1 out]; cbn [fst snd] in *.
  assert (R : forall k response,
            e = Settled k (Responded response) -> ok response = true ->
            client (this s1) = client (fst (receiveIceServers (this s) (headers response))) ->
            out = snd (receiveIceServers (this s) (headers response)) ->
            (client (this s1) = client (this s) /\
             forall l, ~ In (SetConfiguration l) out) \/
            (iceServers (client (this s)) = [] /\
             exists k response l,
               e = Settled k (Responded response) /\ ok response = true /\
               get "link" (headers response) = Some l /\
               parse_link_header l <> [] /\
               iceServers (client (this s1)) = parse_link_header l)).
  { intros k response He Hok Hc Ho. rewrite Hc, Ho.
    destruct (receiveIceServers_outcome (this s) (headers response))
      as [E|[(l & Hl & Hne & Hz & E)|(l & Hl & Hne & Hz & E)]]; rewrite E;
      cbn [fst snd].
    - left. split; auto.
    - left. split; auto. intros l' [H|[]]. discriminate.
    - right. split; [exact Hz|]. exists k, response, l.
      repeat split; auto. }
  destruct T;
    try (left; this_after; split; [reflexivity|];
         intros l Hin; cbn in Hin; intuition discriminate);
    eapply R; eauto.
Qed.
End Configuration.

(** At the end of every run, however often [sendOffer] was called, the
    relay-server configuration is the one the client was built with or,
    only when that one was empty, the non-empty list parsed from the
    [Link] header of a delivered 2xx answer.  A client built with relay
    servers keeps them to the end and [setConfiguration] is never
    called. *)
Theorem relay_servers_come_from_one_answer :
  forall new_URL endpoint servers evs,
    let final := run new_URL (constructed endpoint servers) evs in
    let configured := iceServers (client (this (fst final))) in
    (configured = servers \/
     servers = [] /\
     exists k response l,
       In (Settled k (Responded response)) evs /\ ok response = true /\
       get "link" (headers response) = Some l /\
       configured = parse_link_header l /\ configured <> []) /\
    (servers <> [] ->
     configured = servers /\
     forall l, ~ In (SetConfiguration l) (snd final)).
Proof.
  intros new_URL endpoint servers evs.
  induction evs as [|e evs IH] using rev_ind.
  - cbn. split; [now left|]. intros _. split; auto.
  - cbv zeta in IH |- *. rewrite run_snoc_fst, run_snoc_snd.
    set (s := fst (run new_URL (constructed endpoint servers) evs)) in *.
    destruct IH as [IH1 IH2].
    destruct (step_configuration new_URL s e)
      as [[Hc Hno]|(Hz & k & response & l & -> & Hok & Hl & Hne & Hi)].
    + rewrite Hc. split.
      * destruct IH1 as [H|(Hs & k & response & l & Hin & Hrest)]; [now left|].
        right. split; [exact Hs|]. exists k, response, l.
        split; [apply in_or_app; now left|exact Hrest].
      * intros Hn. destruct (IH2 Hn) as [H1 H2]. split; [exact H1|].
        intros l Hin. apply in_app_or in Hin. destruct Hin as [Hin|Hin].
        -- now apply (H2 l).
        -- now apply (Hno l).
    + assert (Hs : servers = []).
      { destruct IH1 as [H|[H _]]; [|exact H]. now rewrite <- H. }
      split.
      * right. split; [exact Hs|]. exists k, response, l.
        rewrite Hi. repeat split; auto. apply in_or_app. right. now left.
      * intros Hn. now destruct Hn.
Qed.

(** The theorem on a client built with a STUN server and an answer that
    names a TURN server. *)
Lemma relay_servers_come_from_one_answer_witness :
  let caller := [mkServer ["stun:stun.example.net"] None None None] in
  let evs := sample_offer_sent ++
             [Settled 0 (Responded (mkResponse 201 [("Location", "/session/abc123");
                                                    ("Link", sample_link)]))] in
  let final := run resolve_path (constructed sample_endpoint caller) evs in
  caller <> [] /\
  iceServers (client (this (fst final))) = caller /\
  forall l, ~ In (SetConfiguration l) (snd final).
Proof.
  intros caller evs final.
  assert (H : caller <> []) by discriminate.
  split; [exact H|].
  exact (proj2 (relay_servers_come_from_one_answer resolve_path sample_endpoint
                  caller evs) H).
Defined.

Section Gathering.
Variable new_URL : string -> string -> option string.

Lemma end_of_gathering_step : forall s e,
  end_of_gathering e = true ->
  step new_URL s e =
    (s, [Console "client ice candidate gathering is done" LNone]).
Proof.
  intros [[cached endp sess cl] acts] e He.
  destruct e as [[c|]| |]; try discriminate He; cbn [step].
  - cbn [end_of_gathering] in He. unfold handleIceCandidateFromClient.
    now rewrite He.
  - reflexivity.
Qed.

Lemma outward_app : forall out1 out2,
  outward (out1 ++ out2) = outward out1 ++ outward out2.
Proof. intros. apply filter_app. Qed.
End Gathering.

(** End-of-gathering notifications are inert in every state: a run with
    them and the same run without them end in the same client and make the
    same calls in the same order; each of them only logs. *)
Theorem end_of_gathering_changes_nothing : forall new_URL evs s,
  let kept := filter (fun e => negb (end_of_gathering e)) evs in
  fst (run new_URL s kept) = fst (run new_URL s evs) /\
  outward (snd (run new_URL s kept)) = outward (snd (run new_URL s evs)).
Proof.
  intros new_URL evs. cbv zeta.
  induction evs as [|e evs IH]; intros s; [repeat split|].
  cbn [filter]. destruct (end_of_gathering e) eqn:He; cbn [negb].
  - rewrite (run_cons new_URL e evs s), (end_of_gathering_step new_URL s e He).
    cbn [fst snd app outward filter]. apply IH.
  - rewrite !run_cons. cbn [fst snd].
    destruct (IH (fst (step new_URL s e))) as (I1 & I2).
    rewrite I1, !outward_app, I2. split; reflexivity.
Qed.

(** ** Several Link entries *)

Lemma split_nonempty : forall sep s, JsString.split sep s <> [].
Proof.
  intros sep s. destruct s as [|c s]; cbn [JsString.split]; [discriminate|].
  destruct (Ascii.eqb c sep); [discriminate|].
  destruct (JsString.split sep s); discriminate.
Qed.

Lemma split_app : forall sep a b,
  JsString.split sep (a ++ String sep b) =
  JsString.split sep a ++ JsString.split sep b.
Proof.
  intros sep a b. induction a as [|c a IH].
  - cbn. now rewrite Ascii.eqb_refl.
  - cbn [String.append JsString.split]. rewrite IH.
    destruct (Ascii.eqb c sep); [reflexivity|].
    pose proof (split_nonempty sep a) as Hn.
    destruct (JsString.split sep a) as [|piece pieces]; [now destruct Hn|].
    reflexivity.
Qed.

Lemma read_links_from : forall links servers,
  fold_left read_link links servers = servers ++ fold_left read_link links [].
Proof.
  induction links as [|link links IH]; intros servers.
  - cbn. now rewrite app_nil_r.
  - cbn [fold_left]. rewrite IH. rewrite (IH (read_link [] link)).
    rewrite app_assoc. f_equal.
    unfold read_link.
    destruct (existsb _ _); [|now rewrite app_nil_r].
    destruct (Regex.match_angle _); [reflexivity|now rewrite app_nil_r].
Qed.

Lemma trimStart_space : forall s, trimStart (String " " s) = trimStart s.
Proof. reflexivity. Qed.

Lemma trim_space : forall s, trim (String " " s) = trim s.
Proof. reflexivity. Qed.

Lemma split_space : forall sep s,
  Ascii.eqb " " sep = false ->
  exists piece pieces,
    JsString.split sep s = piece :: pieces /\
    JsString.split sep (String " " s) = String " " piece :: pieces.
Proof.
  intros sep s Hsep.
  pose proof (split_nonempty sep s) as Hn.
  destruct (JsString.split sep s) as [|piece pieces] eqn:E; [now destruct Hn|].
  exists piece, pieces. split; [reflexivity|].
  cbn [JsString.split]. rewrite Hsep, E. reflexivity.
Qed.

Lemma read_link_space : forall servers link,
  read_link servers (String " " link) = read_link servers link.
Proof.
  intros servers link. unfold read_link.
  destruct (split_space ";" link eq_refl) as (piece & pieces & E1 & E2).
  rewrite E1, E2. cbn [map]. now rewrite trim_space.
Qed.

Lemma parse_space : forall header,
  parse_link_header (String " " header) = parse_link_header header.
Proof.
  intros header. unfold parse_link_header.
  destruct (split_space "," header eq_refl) as (piece & pieces & E1 & E2).
  rewrite E1, E2. cbn [fold_left]. now rewrite read_link_space.
Qed.

Lemma parse_comma : forall header1 header2,
  parse_link_header (header1 ++ String "," header2) =
  parse_link_header header1 ++ parse_link_header header2.
Proof.
  intros header1 header2. unfold parse_link_header.
  rewrite split_app, fold_left_app. apply read_links_from.
Qed.

(** Comma-joined [Link] values parse entry by entry: the descriptors of a
    joined header are those of its parts, in order.  So a response with two
    [Link] header lines, which [headers.get] joins with a comma and a
    space, installs the descriptors of both when no relay server is
    configured. *)
Theorem link_headers_concatenate : forall header1 header2,
  parse_link_header (header1 ++ "," ++ header2) =
    parse_link_header header1 ++ parse_link_header header2 /\
  forall this,
    iceServers (client this) = [] ->
    parse_link_header header1 ++ parse_link_header header2 <> [] ->
    iceServers
      (client (fst (receiveIceServers this [("Link", header1); ("link", header2)])))
    = parse_link_header header1 ++ parse_link_header header2.
Proof.
  intros header1 header2.
  pose proof (parse_comma header1) as H1.
  split; [apply H1|].
  intros this0 Hz Hne. unfold receiveIceServers.
  change (get "link" [("Link", header1); ("link", header2)])
    with (Some (header1 ++ String "," (String " " header2))%string).
  assert (Hp : parse_link_header (header1 ++ String "," (String " " header2)) =
               parse_link_header header1 ++ parse_link_header header2)
    by now rewrite H1, parse_space.
  cbv beta iota zeta. rewrite Hp, Hz.
  destruct (header1 ++ String "," (String " " header2) =? EmptyString)%string
    eqn:E.
  { apply String.eqb_eq in E. destruct header1; discriminate E. }
  destruct (parse_link_header header1 ++ parse_link_header header2);
    [now destruct Hne|reflexivity].
Qed.

(** The theorem on two header lines naming one relay server each. *)
Lemma link_headers_concatenate_witness :
  let stun := ("<stun:stun.example.net>; rel=" ++ quoted "ice-server")%string in
  let bare := mkClient [] sample_endpoint None (mkPeer []) in
  iceServers (client bare) = [] /\
  parse_link_header stun ++ parse_link_header sample_link <> [] /\
  iceServers
    (client (fst (receiveIceServers bare [("Link", stun); ("link", sample_link)])))
  = [mkServer ["stun:stun.example.net"] None None None; sample_turn].
Proof.
  intros stun bare.
  assert (Hz : iceServers (client bare) = []) by reflexivity.
  assert (Hn : parse_link_header stun ++ parse_link_header sample_link <> [])
    by discriminate.
  split; [exact Hz|split; [exact Hn|]].
  rewrite (proj2 (link_headers_concatenate stun sample_link) bare Hz Hn).
  reflexivity.
Defined.

(** ** The shape of a descriptor *)

Lemma match_angle_nonempty : forall s url,
  Regex.match_angle s = Some url -> url <> EmptyString.
Proof.
  induction s as [|c s IH]; intros url H; [discriminate|].
  cbn [Regex.match_angle] in H.
  destruct (Ascii.eqb c "<"); [|now apply IH].
  unfold Regex.angle_after in H.
  destruct (before_last ">" (dot_run s)) as [[|d capture]|]; try (now apply IH).
  inversion H. discriminate.
Qed.

Lemma match_pair_nonempty : forall s key value,
  Regex.match_pair s = Some (key, value) ->
  key <> EmptyString /\ value <> EmptyString.
Proof.
  assert (Hhere : forall s key value,
            Regex.pair_here s = Some (key, value) ->
            key <> EmptyString /\ value <> EmptyString).
  { intros s key value H. unfold Regex.pair_here in H.
    destruct (break_at "=" s) as [[[|k0 k] after]|]; try discriminate.
    destruct after as [|q after]; [discriminate|].
    destruct (Ascii.eqb q dquote); [|discriminate].
    destruct (break_at dquote after) as [[[|v0 v] rest]|]; try discriminate.
    inversion H. split; discriminate. }
  induction s as [|c s IH]; intros key value H.
  - cbn in H. discriminate.
  - cbn [Regex.match_pair] in H.
    destruct (Regex.pair_here (String c s)) as [[k v]|] eqn:E.
    + inversion H; subst. now apply (Hhere _ _ _ E).
    + now apply IH.
Qed.

Lemma read_attribute_well_formed : forall server f,
  well_formed server -> well_formed (read_attribute server f).
Proof.
  intros server f (Hu & Hn & Hc & Ht). unfold read_attribute.
  destruct (Regex.match_pair f) as [[key value]|] eqn:E;
    [|repeat split; assumption].
  destruct (match_pair_nonempty _ _ _ E) as [_ Hv].
  destruct (key =? "username"); [repeat split; assumption|].
  destruct (key =? "credential"); [repeat split; assumption|].
  destruct (key =? "credential-type"); repeat split; assumption.
Qed.

Lemma read_attributes_well_formed : forall segments server,
  well_formed server -> well_formed (fold_left read_attribute segments server).
Proof.
  induction segments as [|f fs IH]; intros server H; [exact H|].
  cbn [fold_left]. apply IH. now apply read_attribute_well_formed.
Qed.

Lemma read_link_well_formed : forall servers link,
  Forall well_formed servers ->
  Forall well_formed (read_link servers link) /\
  List.length (read_link servers link) <= S (List.length servers).
Proof.
  intros servers link H. unfold read_link.
  destruct (existsb _ _); [|split; [exact H|lia]].
  destruct (Regex.match_angle _) as [url|] eqn:E; [|split; [exact H|lia]].
  split.
  - apply Forall_app. split; [exact H|]. constructor; [|constructor].
    apply read_attributes_well_formed.
    repeat split; cbn; auto. exists url. split; [reflexivity|].
    now apply (match_angle_nonempty _ _ E).
  - rewrite length_app. cbn. lia.
Qed.

(** Whatever the [Link] value, every descriptor parsed from it has exactly
    one URL, which is not empty, and each of its user name, credential and
    credential type is either absent or not empty; there are at most as
    many descriptors as comma-separated entries. *)
Theorem descriptors_are_well_formed : forall header,
  Forall well_formed (parse_link_header header) /\
  List.length (parse_link_header header)
    <= List.length (JsString.split "," header).
Proof.
  intros header. unfold parse_link_header.
  assert (G : forall links servers,
            Forall well_formed servers ->
            Forall well_formed (fold_left read_link links servers) /\
            List.length (fold_left read_link links servers)
              <= List.length servers + List.length links).
  { induction links as [|link links IH]; intros servers H.
    - cbn. split; [exact H|lia].
    - cbn [fold_left List.length].
      destruct (read_link_well_formed servers link H) as [H1 H2].
      destruct (IH _ H1) as [H3 H4]. split; [exact H3|lia]. }
  destruct (G (JsString.split "," header) [] (Forall_nil _)) as [G1 G2].
  split; [exact G1|exact G2].
Qed.

(** ** Reading an entry back *)

Lemma string_app_assoc : forall a b c : string,
  ((a ++ b) ++ c = a ++ (b ++ c))%string.
Proof. induction a as [|x a IH]; intros b c; cbn; [reflexivity|now rewrite IH]. Qed.

Lemma lacks_app : forall c a b,
  lacks c (a ++ b)%string = lacks c a && lacks c b.
Proof.
  intros c. induction a as [|d a IH]; intros b; cbn; [reflexivity|].
  now rewrite IH, andb_assoc.
Qed.

Lemma split_lacks : forall c s,
  lacks c s = true -> JsString.split c s = [s].
Proof.
  intros c. induction s as [|d s IH]; intros H; [reflexivity|].
  cbn in H. apply andb_true_iff in H. destruct H as [Hd Hs].
  cbn [JsString.split]. apply negb_true_iff in Hd. rewrite Hd, (IH Hs).
  reflexivity.
Qed.

Lemma break_at_lacks : forall c s rest,
  lacks c s = true ->
  break_at c (s ++ String c rest)%string = Some (s, rest).
Proof.
  intros c. induction s as [|d s IH]; intros rest H.
  - cbn. now rewrite Ascii.eqb_refl.
  - cbn in H. apply andb_true_iff in H. destruct H as [Hd Hs].
    cbn [String.append break_at]. apply negb_true_iff in Hd.
    now rewrite Hd, (IH rest Hs).
Qed.

Lemma break_at_none : forall c s, lacks c s = true -> break_at c s = None.
Proof.
  intros c. induction s as [|d s IH]; intros H; [reflexivity|].
  cbn in H. apply andb_true_iff in H. destruct H as [Hd Hs].
  cbn [break_at]. apply negb_true_iff in Hd. now rewrite Hd, (IH Hs).
Qed.

Lemma match_pair_none : forall s,
  lacks "=" s = true -> Regex.match_pair s = None.
Proof.
  induction s as [|d s IH]; intros H; [reflexivity|].
  cbn [Regex.match_pair]. unfold Regex.pair_here.
  rewrite (break_at_none _ _ H).
  cbn in H. apply andb_true_iff in H. now apply IH.
Qed.

Lemma before_last_end : forall c s,
  before_last c (s ++ String c EmptyString)%string = Some s.
Proof.
  intros c. induction s as [|d s IH].
  - cbn. now rewrite Ascii.eqb_refl.
  - cbn [String.append before_last]. now rewrite IH.
Qed.

Lemma dot_run_all : forall s,
  lacks (ascii_of_nat 10) s = true -> lacks (ascii_of_nat 13) s = true ->
  dot_run s = s.
Proof.
  induction s as [|d s IH]; intros H10 H13; [reflexivity|].
  cbn in H10, H13.
  apply andb_true_iff in H10. destruct H10 as [Hd10 Hs10].
  apply andb_true_iff in H13. destruct H13 as [Hd13 Hs13].
  cbn [dot_run]. rewrite (IH Hs10 Hs13).
  assert (Hl : is_line_terminator d = false).
  { unfold is_line_terminator.
    apply negb_true_iff in Hd10. apply negb_true_iff in Hd13.
    apply Ascii.eqb_neq in Hd10. apply Ascii.eqb_neq in Hd13.
    apply orb_false_iff. split; apply Nat.eqb_neq; intros E.
    - apply Hd10. rewrite <- (ascii_nat_embedding d), E. reflexivity.
    - apply Hd13. rewrite <- (ascii_nat_embedding d), E. reflexivity. }
  now rewrite Hl.
Qed.

Lemma trimEnd_end : forall s c,
  is_white_space c = false ->
  trimEnd (s ++ String c EmptyString)%string = (s ++ String c EmptyString)%string.
Proof.
  intros s c Hc. induction s as [|d s IH].
  - cbn. now rewrite Hc.
  - cbn [String.append trimEnd]. rewrite IH.
    destruct s; reflexivity.
Qed.

(** An attribute written as key, equals sign and quoted value is read back
    as that key and value. *)
Lemma match_pair_attribute : forall key value,
  key <> EmptyString -> value <> EmptyString ->
  lacks "=" key = true -> lacks dquote value = true ->
  Regex.match_pair (key ++ String "=" (quoted value))%string = Some (key, value).
Proof.
  intros key value Hk Hv Lk Lv.
  assert (Hhere : Regex.pair_here (key ++ String "=" (quoted value))%string
                  = Some (key, value)).
  { unfold Regex.pair_here. rewrite (break_at_lacks _ _ _ Lk).
    destruct key as [|k0 key]; [now destruct Hk|].
    unfold quoted. rewrite Ascii.eqb_refl, (break_at_lacks _ _ _ Lv).
    destruct value; [now destruct Hv|reflexivity]. }
  destruct key as [|k0 key]; [now destruct Hk|].
  cbn [String.append Regex.match_pair].
  cbn [String.append] in Hhere. now rewrite Hhere.
Qed.

Lemma match_angle_bracketed : forall url,
  url <> EmptyString ->
  lacks (ascii_of_nat 10) url = true -> lacks (ascii_of_nat 13) url = true ->
  Regex.match_angle (String "<" (url ++ ">"))%string = Some url.
Proof.
  intros url Hu H10 H13. cbn [Regex.match_angle]. rewrite Ascii.eqb_refl.
  unfold Regex.angle_after.
  rewrite dot_run_all
    by (rewrite lacks_app; first [rewrite H10|rewrite H13]; reflexivity).
  rewrite before_last_end.
  destruct url; [now destruct Hu|reflexivity].
Qed.

Lemma link_entry_pieces : forall url user secret,
  link_entry url user secret =
  (String "<" (url ++ ">")
   ++ String ";" ((" rel=" ++ quoted "ice-server")
   ++ String ";" ((" username=" ++ quoted user)
   ++ String ";" (" credential=" ++ quoted secret))))%string.
Proof.
  intros url user secret. unfold link_entry, quoted.
  cbn [String.append].
  rewrite ?string_app_assoc. cbn [String.append].
  rewrite ?string_app_assoc. cbn [String.append].
  reflexivity.
Qed.

Lemma plain_parts : forall s,
  plain s = true ->
  lacks "," s = true /\ lacks ";" s = true /\ lacks "=" s = true /\
  lacks dquote s = true /\
  lacks (ascii_of_nat 10) s = true /\ lacks (ascii_of_nat 13) s = true.
Proof.
  unfold plain. intros s H.
  repeat (apply andb_true_iff in H; destruct H as [H ?]). repeat split; assumption.
Qed.

(** A relay-server entry written in the documented form is read back
    exactly: for a non-empty URL, user name and credential free of comma,
    semicolon, equals sign, double quote and line breaks, the header parses
    to the one descriptor with that URL, user name and credential and no
    credential type. *)
Theorem link_entry_round_trip : forall url user secret,
  url <> EmptyString -> user <> EmptyString -> secret <> EmptyString ->
  plain url = true -> plain user = true -> plain secret = true ->
  parse_link_header (link_entry url user secret) =
  [mkServer [url] (Some user) (Some secret) None].
Proof.
  intros url user secret Hu Hn Hs Pu Pn Ps.
  destruct (plain_parts _ Pu) as (Uc & Us & Ue & Uq & U10 & U13).
  destruct (plain_parts _ Pn) as (Nc & Ns & Ne & Nq & N10 & N13).
  destruct (plain_parts _ Ps) as (Sc & Ss & Se & Sq & S10 & S13).
  unfold parse_link_header.
  rewrite split_lacks.
  2:{ unfold link_entry, quoted. rewrite !lacks_app. cbn [lacks].
      rewrite ?lacks_app. cbn [lacks]. rewrite Uc, Nc, Sc. reflexivity. }
  cbn [fold_left]. unfold read_link.
  rewrite link_entry_pieces.
  rewrite !split_app.
  rewrite (split_lacks ";" (String "<" (url ++ ">"))%string)
    by (cbn [lacks]; rewrite lacks_app, Us; reflexivity).
  rewrite (split_lacks ";" (" rel=" ++ quoted "ice-server")%string) by reflexivity.
  rewrite (split_lacks ";" (" username=" ++ quoted user)%string)
    by (unfold quoted; cbn [String.append lacks]; rewrite lacks_app, Ns;
        reflexivity).
  rewrite (split_lacks ";" (" credential=" ++ quoted secret)%string)
    by (unfold quoted; cbn [String.append lacks]; rewrite lacks_app, Ss;
        reflexivity).
  cbn [app map].
  assert (TA : trim (String "<" (url ++ ">")) = String "<" (url ++ ">")).
  { unfold trim. cbn [trimStart]. change (is_white_space "<") with false.
    cbv iota.
    change (String "<" (url ++ ">"))%string
      with ((String "<" url) ++ String ">" EmptyString)%string.
    now apply trimEnd_end. }
  assert (TB : trim (" rel=" ++ quoted "ice-server") = rel_ice_server)
    by reflexivity.
  assert (TC : trim (" username=" ++ quoted user)
               = ("username" ++ String "=" (quoted user))%string).
  { unfold trim, quoted. cbn [String.append trimStart].
    change (is_white_space " ") with true. cbv iota. cbn [trimStart].
    change (is_white_space "u") with false. cbv iota.
    change (String "u" (String "s" (String "e" (String "r" (String "n"
              (String "a" (String "m" (String "e" (String "="
                (String dquote (user ++ String dquote EmptyString)))))))))))%string
      with (("username=" ++ String dquote user) ++ String dquote EmptyString)%string.
    rewrite trimEnd_end by reflexivity. reflexivity. }
  assert (TD : trim (" credential=" ++ quoted secret)
               = ("credential" ++ String "=" (quoted secret))%string).
  { unfold trim, quoted. cbn [String.append trimStart].
    change (is_white_space " ") with true. cbv iota. cbn [trimStart].
    change (is_white_space "c") with false. cbv iota.
    change (String "c" (String "r" (String "e" (String "d" (String "e"
              (String "n" (String "t" (String "i" (String "a" (String "l"
                (String "=" (String dquote
                   (secret ++ String dquote EmptyString)))))))))))))%string
      with (("credential=" ++ String dquote secret)
            ++ String dquote EmptyString)%string.
    rewrite trimEnd_end by reflexivity. reflexivity. }
  rewrite TA, TB, TC, TD.
  cbn [existsb hd].
  replace (rel_ice_server =? rel_ice_server)%string with true
    by (symmetry; apply String.eqb_refl).
  rewrite orb_true_r. cbn [orb].
  rewrite (match_angle_bracketed url Hu U10 U13).
  cbn [fold_left]. unfold read_attribute at 4.
  rewrite match_pair_none
    by (cbn [lacks]; rewrite lacks_app, Ue; reflexivity).
  unfold read_attribute at 3.
  change (Regex.match_pair rel_ice_server) with (Some ("rel", "ice-server")).
  cbv iota. change ("rel" =? "username")%string with false.
  change ("rel" =? "credential")%string with false.
  change ("rel" =? "credential-type")%string with false. cbv iota.
  unfold read_attribute at 2.
  rewrite (match_pair_attribute "username" user) by (auto; discriminate).
  change ("username" =? "username")%string with true. cbv iota.
  unfold read_attribute.
  rewrite (match_pair_attribute "credential" secret) by (auto; discriminate).
  change ("credential" =? "username")%string with false.
  change ("credential" =? "credential")%string with true. cbv iota.
  reflexivity.
Qed.

(** The theorem on a TURN server with credentials. *)
Lemma link_entry_round_trip_witness :
  let url := "turn:relay.example.org:3478" in
  (url <> EmptyString /\ plain url = true /\ plain "alice" = true /\
   plain "s3cret" = true) /\
  parse_link_header (link_entry url "alice" "s3cret") =
    [mkServer [url] (Some "alice") (Some "s3cret") None].
Proof.
  intros url.
  assert (Hu : url <> EmptyString) by discriminate.
  assert (Pu : plain url = true) by reflexivity.
  assert (Pn : plain "alice" = true) by reflexivity.
  assert (Ps : plain "s3cret" = true) by reflexivity.
  split; [repeat split; assumption|].
  apply link_entry_round_trip; try assumption; discriminate.
Defined.

(** ** Entries that are skipped, headers that are repeated *)

Lemma lacks_split : forall c sep s,
  lacks c s = true ->
  Forall (fun piece => lacks c piece = true) (JsString.split sep s).
Proof.
  intros c sep. induction s as [|d s IH]; intros H.
  - repeat constructor.
  - cbn in H. apply andb_true_iff in H. destruct H as [Hd Hs].
    cbn [JsString.split]. specialize (IH Hs).
    destruct (Ascii.eqb d sep); [constructor; [reflexivity|exact IH]|].
    destruct (JsString.split sep s) as [|piece pieces].
    + constructor; [cbn; now rewrite Hd|constructor].
    + inversion IH; subst. constructor; [cbn; now rewrite Hd|assumption].
Qed.

Lemma lacks_trimStart : forall c s,
  lacks c s = true -> lacks c (trimStart s) = true.
Proof.
  intros c. induction s as [|d s IH]; intros H; [reflexivity|].
  cbn [trimStart]. destruct (is_white_space d); [|exact H].
  cbn in H. apply andb_true_iff in H. now apply IH.
Qed.

Lemma lacks_trimEnd : forall c s,
  lacks c s = true -> lacks c (trimEnd s) = true.
Proof.
  intros c. induction s as [|d s IH]; intros H; [reflexivity|].
  cbn in H. apply andb_true_iff in H. destruct H as [Hd Hs].
  cbn [trimEnd]. specialize (IH Hs).
  destruct (trimEnd s) as [|k kept].
  - destruct (is_white_space d); [reflexivity|cbn; now rewrite Hd].
  - cbn [lacks]. rewrite Hd. exact IH.
Qed.

Lemma match_angle_needs_bracket : forall s,
  lacks "<" s = true -> Regex.match_angle s = None.
Proof.
  induction s as [|d s IH]; intros H; [reflexivity|].
  cbn in H. apply andb_true_iff in H. destruct H as [Hd Hs].
  cbn [Regex.match_angle]. apply negb_true_iff in Hd. rewrite Hd. now apply IH.
Qed.

Lemma read_link_needs_bracket : forall servers entry,
  lacks "<" entry = true -> read_link servers entry = servers.
Proof.
  intros servers entry H. unfold read_link.
  destruct (existsb _ _); [|reflexivity].
  rewrite match_angle_needs_bracket; [reflexivity|].
  pose proof (lacks_split "<" ";" entry H) as Hp.
  destruct (JsString.split ";" entry) as [|piece pieces]; [reflexivity|].
  inversion Hp; subst. cbn [map hd]. unfold trim.
  now apply lacks_trimEnd, lacks_trimStart.
Qed.

(** An entry with no opening angle bracket yields no descriptor and does
    not end the parse: the entries before and after it are read as if it
    were not there. *)
Theorem entries_without_a_url_are_skipped : forall before entry after,
  lacks "," entry = true -> lacks "<" entry = true ->
  parse_link_header entry = [] /\
  parse_link_header (before ++ "," ++ entry ++ "," ++ after) =
    parse_link_header before ++ parse_link_header after.
Proof.
  intros before entry after Hc Hb.
  assert (He : parse_link_header entry = []).
  { unfold parse_link_header. rewrite (split_lacks _ _ Hc). cbn [fold_left].
    now apply read_link_needs_bracket. }
  split; [exact He|].
  change (before ++ "," ++ entry ++ "," ++ after)%string
    with (before ++ String "," (entry ++ String "," after))%string.
  rewrite !parse_comma, He. reflexivity.
Qed.

(** The theorem on an entry that lost its URL, between two good ones. *)
Lemma entries_without_a_url_are_skipped_witness :
  let entry := (" rel=" ++ quoted "ice-server" ++ "; username=" ++ quoted "u")%string in
  let header :=
    (link_entry "turn:a.example" "u" "p" ++ "," ++ entry ++ ","
     ++ link_entry "turn:b.example" "v" "q")%string in
  (lacks "," entry = true /\ lacks "<" entry = true) /\
  parse_link_header header =
    [mkServer ["turn:a.example"] (Some "u") (Some "p") None;
     mkServer ["turn:b.example"] (Some "v") (Some "q") None].
Proof.
  intros entry header.
  assert (Hc : lacks "," entry = true) by reflexivity.
  assert (Hb : lacks "<" entry = true) by reflexivity.
  split; [split; assumption|].
  unfold header.
  rewrite (proj2 (entries_without_a_url_are_skipped
                    (link_entry "turn:a.example" "u" "p") entry
                    (link_entry "turn:b.example" "v" "q") Hc Hb)).
  reflexivity.
Defined.

(** [receiveIceServers] touches nothing but the relay-server
    configuration; given the same headers again it changes nothing more;
    and once relay servers are configured no headers change them. *)
Theorem receiveIceServers_is_idempotent : forall this headers,
  let this1 := fst (receiveIceServers this headers) in
  cachedCandidates this1 = cachedCandidates this /\
  sessionUrl this1 = sessionUrl this /\
  endpointUrl this1 = endpointUrl this /\
  fst (receiveIceServers this1 headers) = this1 /\
  (iceServers (client this1) <> [] ->
   forall headers', fst (receiveIceServers this1 headers') = this1).
Proof.
  intros this0 headers this1.
  destruct (receiveIceServers_keeps this0 headers) as (Kc & Ks & Ke & _).
  fold this1 in Kc, Ks, Ke.
  assert (Hfixed : forall t, iceServers (client t) <> [] ->
                   forall h, fst (receiveIceServers t h) = t).
  { intros t Ht h.
    destruct (receiveIceServers_outcome t h)
      as [E|[(l & _ & _ & _ & E)|(l & _ & _ & Hz & E)]];
      [now rewrite E|now rewrite E|now destruct Ht]. }
  repeat split; auto.
  unfold this1.
  destruct (receiveIceServers_outcome this0 headers)
    as [E|[(l & _ & _ & _ & E)|(l & _ & Hne & _ & E)]].
  - rewrite E. cbn [fst]. now rewrite E.
  - rewrite E. cbn [fst]. now rewrite E.
  - rewrite E. cbn [fst]. apply Hfixed. exact Hne.
Qed.

(** The theorem on a second answer that names another relay server. *)
Lemma receiveIceServers_is_idempotent_witness :
  let bare := mkClient [] sample_endpoint None (mkPeer []) in
  let headers := [("Link", sample_link)] in
  let other := [("Link", link_entry "turn:other.example" "x" "y")] in
  iceServers (client (fst (receiveIceServers bare headers))) <> [] /\
  iceServers
    (client (fst (receiveIceServers (fst (receiveIceServers bare headers)) other)))
    = [sample_turn].
Proof.
  intros bare headers other.
  assert (H : iceServers (client (fst (receiveIceServers bare headers))) <> [])
    by discriminate.
  split; [exact H|].
  rewrite (proj2 (proj2 (proj2 (proj2
             (receiveIceServers_is_idempotent bare headers)))) H other).
  reflexivity.
Defined.

(** ** Pairing over whole runs *)

Section Pairing.
Import WhepClient.

(** The handler in one equation, for a client with a container. *)
Lemma whep_step_container : forall this ev c,
  container this = Some c ->
  let videos :=
    if recordable ev then outputVideoTracks this ++ [track ev]
    else outputVideoTracks this in
  handleGotTrack this ev =
  match (if is_audio ev then Some (track ev) else outputAudioTrack this) with
  | Some audio =>
      let new := skipn (List.length (videoElements this)) (groupings audio videos) in
      (mk videos (Some audio)
          (videoElements this ++ map (mkVideo true true true) new)
          (container this) (simulcastVideoCount this),
       Console "Got a track" (LTrack ev) :: flat_map (rendered c) new)
  | None =>
      (mk videos None (videoElements this) (container this)
          (simulcastVideoCount this),
       [Console "Got a track" (LTrack ev)])
  end.
Proof.
  intros this0 ev c Hc videos. unfold handleGotTrack.
  fold (recordable ev). fold (is_audio ev). fold videos.
  destruct (if is_audio ev then Some (track ev) else outputAudioTrack this0)
    as [a|]; [|reflexivity].
  cbn [videoElements].
  destruct (List.length (videoElements this0) <? List.length videos)%nat eqn:El.
  - match goal with
    | |- context [pair_from 0 videos a ?t1] =>
        rewrite (whep_pair_from_container videos 0 a t1 c Hc)
    end.
    cbn [videoElements outputVideoTracks outputAudioTrack container
         simulcastVideoCount].
    now rewrite Nat.sub_0_r, groupings_from_start.
  - apply Nat.ltb_ge in El.
    rewrite skipn_all2 by now rewrite groupings_length.
    cbn [map flat_map]. now rewrite app_nil_r.
Qed.

Lemma groupings_snoc : forall audio videos video,
  videos <> [] ->
  groupings audio (videos ++ [video]) = groupings audio videos ++ [[video]].
Proof.
  intros a [|v vs] t H; [now destruct H|].
  cbn [app groupings]. now rewrite map_app.
Qed.

Lemma outward_rendered : forall c streams,
  outward (flat_map (rendered c) streams) = flat_map (rendered c) streams.
Proof.
  intros c sts. induction sts as [|st sts IH]; [reflexivity|].
  cbn [flat_map]. rewrite outward_app, IH. reflexivity.
Qed.

Lemma paired_once_step : forall c evs this out ev,
  paired_once c evs this out ->
  paired_once c (evs ++ [ev]) (fst (handleGotTrack this ev))
    (out ++ snd (handleGotTrack this ev)).
Proof.
  intros c evs this0 out ev (Hc & Hv & streams & Ho & He & Ha).
  rewrite (whep_step_container this0 ev c Hc).
  assert (Hv1 : (if recordable ev then outputVideoTracks this0 ++ [track ev]
                 else outputVideoTracks this0)
                = map track (filter recordable (evs ++ [ev]))).
  { rewrite filter_app, map_app, <- Hv. cbn [filter].
    destruct (recordable ev); [reflexivity|now rewrite app_nil_r]. }
  assert (Hin : forall a, In a (map track (filter is_audio evs)) ->
                In a (map track (filter is_audio (evs ++ [ev])))).
  { intros a H. rewrite filter_app, map_app. apply in_or_app. now left. }
  assert (Hnew : is_audio ev = true ->
                 In (track ev) (map track (filter is_audio (evs ++ [ev])))).
  { intros H. rewrite filter_app, map_app. apply in_or_app. right.
    cbn [filter]. rewrite H. now left. }
  set (videos := if recordable ev then outputVideoTracks this0 ++ [track ev]
                 else outputVideoTracks this0) in *.
  destruct (if is_audio ev then Some (track ev) else outputAudioTrack this0)
    as [a|] eqn:Ea.
  - assert (Ia : In a (map track (filter is_audio (evs ++ [ev])))).
    { destruct (is_audio ev) eqn:Eaudio.
      - inversion Ea; subst a. now apply Hnew.
      - rewrite Ea in Ha. apply Hin. tauto. }
    cbv zeta. cbn [fst snd]. unfold paired_once.
    cbn [container outputVideoTracks videoElements outputAudioTrack].
    split; [exact Hc|]. split; [exact Hv1|].
    set (new := skipn (List.length (videoElements this0)) (groupings a videos)).
    exists (streams ++ new).
    assert (Hlen : List.length (videoElements this0) = List.length streams)
      by now rewrite He, length_map.
    split; [|split; [|split; [exact Ia|]]].
    + unfold outward in *. rewrite filter_app. cbn [filter].
      fold (outward (flat_map (rendered c) new)).
      now rewrite outward_rendered, Ho, flat_map_app.
    + now rewrite He, map_app.
    + (* which audio track heads the first stream *)
      destruct (outputAudioTrack this0) as [old|] eqn:Eold.
      * destruct Ha as (Iold & first & If & Hs).
        assert (Hfull : List.length streams = List.length (outputVideoTracks this0))
          by now rewrite Hs, groupings_length.
        unfold new. rewrite Hlen, Hfull.
        unfold videos. destruct (recordable ev).
        -- destruct (outputVideoTracks this0) as [|v vs] eqn:Ev.
           ++ exists a. split; [exact Ia|]. subst streams. reflexivity.
           ++ exists first. split; [now apply Hin|].
              rewrite groupings_snoc by discriminate.
              rewrite Hs. f_equal.
              rewrite <- (groupings_length (v :: vs) a).
              rewrite groupings_snoc by discriminate.
              now rewrite skipn_app, skipn_all, Nat.sub_diag.
        -- exists first. split; [now apply Hin|].
           rewrite <- (groupings_length (outputVideoTracks this0) a).
           now rewrite skipn_all, app_nil_r.
      * subst streams. exists a. split; [exact Ia|].
        unfold new. rewrite Hlen. reflexivity.
  - destruct (is_audio ev); [discriminate|].
    rewrite Ea in Ha. subst streams.
    cbn [fst snd]. unfold paired_once.
    cbn [container outputVideoTracks videoElements outputAudioTrack].
    split; [exact Hc|]. split; [exact Hv1|]. exists [].
    split; [|split]; auto.
    unfold outward in *. rewrite filter_app. cbn [filter]. now rewrite Ho.
Qed.
End Pairing.

Lemma paired_once_run : forall c evs seen this out,
  paired_once c seen this out ->
  paired_once c (seen ++ evs) (fst (WhepClient.handleGotTracks this evs))
    (out ++ List.concat (snd (WhepClient.handleGotTracks this evs))).
Proof.
  intros c. induction evs as [|ev evs IH]; intros seen this0 out H.
  - cbn. now rewrite !app_nil_r.
  - cbn [WhepClient.handleGotTracks].
    pose proof (paired_once_step c seen this0 out ev H) as H1.
    destruct (WhepClient.handleGotTrack this0 ev) as [this1 out1].
    cbn [fst snd] in H1.
    specialize (IH (seen ++ [ev]) this1 (out ++ out1) H1).
    destruct (WhepClient.handleGotTracks this1 evs) as [this2 outs].
    cbn [fst snd List.concat] in *.
    now rewrite <- app_assoc in IH; cbn [app] in IH; rewrite app_assoc.
Qed.

Lemma constructed_paired_once : forall count c,
  paired_once c [] (WhepClient.constructor count (Some c)) [].
Proof.
  intros count c. unfold paired_once. cbn. repeat split. now exists [].
Qed.

(** With a container, in a subscriber and in a duplex client alike: over
    any sequence of 'track' notifications the client makes one player per
    recorded video track, in arrival order, the first on a stream with an
    audio track that arrived and every other on a stream of its own; each
    stream is created and rendered exactly once, and none before an audio
    track has arrived.  The duplex handler does what the subscriber's
    does. *)
Theorem pairing_is_exactly_once : forall count c inDocument evs,
  let whep :=
    WhepClient.handleGotTracks (WhepClient.constructor count (Some c)) evs in
  let duplex :=
    DuplexClient.handleGotTracks
      (DuplexClient.constructor count (Some c) inDocument) evs in
  paired_once c evs (fst whep) (List.concat (snd whep)) /\
  as_whep (fst duplex) = fst whep /\ snd duplex = snd whep.
Proof.
  intros count c inDocument evs whep duplex. split.
  - exact (paired_once_run c evs [] _ [] (constructed_paired_once count c)).
  - exact (duplex_handleGotTracks evs
             (DuplexClient.constructor count (Some c) inDocument)).
Qed.

Section Quiet.
Import WhepClient.

(** Once an audio track is recorded, a notification that records no video
    track only logs: a video track without streams is ignored, and a
    further audio track replaces [outputAudioTrack]; neither creates a
    stream or a player. *)
Theorem only_new_video_tracks_are_rendered : forall count c evs ev,
  let this := fst (handleGotTracks (constructor count (Some c)) evs) in
  outputAudioTrack this <> None ->
  recordable ev = false ->
  handleGotTrack this ev =
    (mk (outputVideoTracks this)
        (if is_audio ev then Some (track ev) else outputAudioTrack this)
        (videoElements this) (container this) (simulcastVideoCount this),
     [Console "Got a track" (LTrack ev)]).
Proof.
  intros count c evs ev this0 Ha Hr.
  pose proof (paired_once_run c evs [] _ [] (constructed_paired_once count c))
    as (Hc & Hv & streams & Ho & He & Hs).
  cbn [app] in Hc, Hv, He, Hs. fold this0 in Hc, Hv, He, Hs.
  rewrite (whep_step_container this0 ev c Hc). rewrite Hr.
  destruct (outputAudioTrack this0) as [old|] eqn:Eold; [|now destruct Ha].
  destruct Hs as (_ & first & _ & Hs).
  assert (Hlen : List.length (videoElements this0)
                 = List.length (outputVideoTracks this0))
    by now rewrite He, length_map, Hs, groupings_length.
  assert (Hnone : forall a,
            skipn (List.length (videoElements this0))
              (groupings a (outputVideoTracks this0)) = []).
  { intros a. rewrite Hlen, <- (groupings_length (outputVideoTracks this0) a).
    apply skipn_all. }
  destruct (is_audio ev); cbv zeta; rewrite Hnone; cbn [map flat_map];
    now rewrite app_nil_r.
Qed.

(** The theorem on a second audio track after the sample arrivals. *)
Lemma only_new_video_tracks_are_rendered_witness :
  let this := fst (handleGotTracks (constructor None (Some "videos"))
                     sample_arrivals) in
  let late := mkTrackEvent (mkTrack "audio" "a2") ["remote"] in
  (outputAudioTrack this <> None /\ recordable late = false) /\
  snd (handleGotTrack this late) = [Console "Got a track" (LTrack late)] /\
  videoElements (fst (handleGotTrack this late)) = videoElements this.
Proof.
  intros this0 late.
  assert (Ha : outputAudioTrack this0 <> None) by discriminate.
  assert (Hr : recordable late = false) by reflexivity.
  split; [split; assumption|].
  pose proof (only_new_video_tracks_are_rendered None "videos" sample_arrivals
                late Ha Hr) as E.
  cbv zeta in E.
  split; [exact (f_equal snd E)|].
  exact (f_equal (fun r => videoElements (fst r)) E).
Defined.

(** Until an audio track arrives nothing is paired, with or without a
    container: the video tracks that come with a stream are recorded in
    arrival order, the others are dropped, and the handlers only log. *)
Theorem nothing_is_paired_before_audio : forall evs this,
  outputAudioTrack this = None ->
  forallb (fun ev => negb (is_audio ev)) evs = true ->
  let after := fst (handleGotTracks this evs) in
  outputVideoTracks after =
    outputVideoTracks this ++ map track (filter recordable evs) /\
  outputAudioTrack after = None /\
  videoElements after = videoElements this /\
  outward (List.concat (snd (handleGotTracks this evs))) = [].
Proof.
  induction evs as [|ev evs IH]; intros this0 Ha Hn.
  - cbn. now rewrite app_nil_r.
  - cbn [forallb] in Hn. apply andb_true_iff in Hn. destruct Hn as [Hev Hn].
    apply negb_true_iff in Hev. unfold is_audio in Hev.
    cbn [handleGotTracks].
    assert (E : handleGotTrack this0 ev =
                (mk (if recordable ev then outputVideoTracks this0 ++ [track ev]
                     else outputVideoTracks this0)
                    None (videoElements this0) (container this0)
                    (simulcastVideoCount this0),
                 [Console "Got a track" (LTrack ev)])).
    { unfold handleGotTrack. fold (recordable ev). now rewrite Hev, Ha. }
    rewrite E.
    match goal with
    | |- context [handleGotTracks ?t1 evs] =>
        specialize (IH t1 eq_refl Hn);
        destruct (handleGotTracks t1 evs) as [this2 outs]
    end.
    cbn [fst snd List.concat] in *.
    destruct IH as (I1 & I2 & I3 & I4).
    cbn [outputVideoTracks videoElements] in I1, I3.
    repeat split; auto.
    rewrite I1. cbn [filter].
    destruct (recordable ev); [|reflexivity].
    now rewrite <- app_assoc.
Qed.

(** The theorem on two video tracks, the second without a stream, in a
    subscriber without a container. *)
Lemma nothing_is_paired_before_audio_witness :
  let evs := [mkTrackEvent sample_video1 ["remote"];
              mkTrackEvent sample_video2 []] in
  let this := constructor None None in
  (outputAudioTrack this = None /\
   forallb (fun ev => negb (is_audio ev)) evs = true) /\
  outputVideoTracks (fst (handleGotTracks this evs)) = [sample_video1] /\
  outward (List.concat (snd (handleGotTracks this evs))) = [].
Proof.
  intros evs this0.
  assert (Ha : outputAudioTrack this0 = None) by reflexivity.
  assert (Hn : forallb (fun ev => negb (is_audio ev)) evs = true) by reflexivity.
  split; [split; assumption|].
  destruct (nothing_is_paired_before_audio evs this0 Ha Hn) as (V & _ & _ & O).
  split; [exact V|exact O].
Defined.
End Quiet.

(** ** What a step does to one activation *)

Lemma offer_update : forall l k j (fl : activation -> flush_pc),
  offer (nth j (update k (fun a => mkActivation (offer a) (fl a)) l) not_called) =
  offer (nth j l not_called).
Proof.
  induction l as [|a l IH]; intros [|k] [|j] fl; cbn [update nth offer];
    try reflexivity.
  apply IH.
Qed.

Lemma flush_update : forall l k j (pc : activation -> sendOffer_pc),
  flush (nth j (update k (fun a => mkActivation (pc a) (flush a)) l) not_called) =
  flush (nth j l not_called).
Proof.
  induction l as [|a l IH]; intros [|k] [|j] pc; cbn [update nth flush];
    try reflexivity.
  apply IH.
Qed.

Lemma offer_set_flush : forall s k j fl,
  offer (call (set_flush s k fl) j) = offer (call s j).
Proof.
  intros. unfold call, set_flush. cbn [activations].
  apply (offer_update _ _ _ (fun _ => fl)).
Qed.

Lemma flush_set_offer : forall s k j pc,
  flush (call (set_offer s k pc) j) = flush (call s j).
Proof.
  intros. unfold call, set_offer. cbn [activations].
  apply (flush_update _ _ _ (fun _ => pc)).
Qed.

Lemma offer_reassign : forall s j,
  offer (call (reassign_cachedCandidates s) j) = offer (call s j).
Proof. intros. now rewrite call_reassign, detach_offer. Qed.

Lemma offer_set_offer : forall s k j pc,
  offer (call (set_offer s k pc) j) =
  if (j =? k)%nat && (k <? List.length (activations s))%nat then pc
  else offer (call s j).
Proof.
  intros s k j pc. destruct (Nat.eqb_spec j k) as [->|Hne]; cbn [andb].
  - destruct (Nat.ltb_spec k (List.length (activations s))) as [Hk|Hk].
    + now rewrite call_set_offer_same.
    + unfold set_offer, call. cbn [activations]. now rewrite update_overflow.
  - now rewrite call_set_offer_other.
Qed.

Lemma flush_set_flush : forall s k j fl,
  flush (call (set_flush s k fl) j) =
  if (j =? k)%nat && (k <? List.length (activations s))%nat then fl
  else flush (call s j).
Proof.
  intros s k j fl. destruct (Nat.eqb_spec j k) as [->|Hne]; cbn [andb].
  - destruct (Nat.ltb_spec k (List.length (activations s))) as [Hk|Hk].
    + now rewrite call_set_flush_same.
    + unfold set_flush, call. cbn [activations]. now rewrite update_overflow.
  - now rewrite call_set_flush_other.
Qed.

Lemma call_appended : forall t l a j,
  call (mkSystem t (l ++ [a])) j =
  if (j <? List.length l)%nat then nth j l not_called
  else if (j =? List.length l)%nat then a else not_called.
Proof.
  intros t l a j. unfold call. cbn [activations].
  destruct (Nat.ltb_spec j (List.length l)) as [H|H].
  - now apply app_nth1.
  - rewrite app_nth2 by exact H.
    destruct (Nat.eqb_spec j (List.length l)) as [->|Hne].
    + now rewrite Nat.sub_diag.
    + destruct (j - List.length l) as [|[|n]] eqn:E; try reflexivity. lia.
Qed.

(** The offer of every activation after a step. *)
Ltac offers :=
  rewrite ?offer_set_flush, ?offer_reassign, ?offer_set_flush, ?offer_set_offer,
    ?call_this.

Lemma fetched_none : forall out request,
  fetched out = [] -> ~ In (Fetch request) out.
Proof.
  induction out as [|e out IH]; intros request H Hin; [destruct Hin|].
  destruct e; cbn [fetched] in H; try discriminate;
    destruct Hin as [Hin|Hin]; try discriminate; now apply (IH request).
Qed.

Lemma discovered_app : forall evs1 evs2,
  discovered (evs1 ++ evs2) = discovered evs1 ++ discovered evs2.
Proof.
  induction evs1 as [|e evs1 IH]; intros evs2; [reflexivity|].
  cbn [app discovered]. rewrite IH. now destruct (carried e).
Qed.

Lemma discovered_payload : forall evs c,
  In c (discovered evs) -> candidate c <> EmptyString.
Proof.
  induction evs as [|e evs IH]; intros c H; [destruct H|].
  cbn [discovered] in H.
  destruct (carried e) as [c'|] eqn:Ec; [|now apply IH].
  destruct H as [H|H]; [subst c'|now apply IH].
  destruct e as [[c0|]| |]; try discriminate Ec.
  cbn [carried] in Ec.
  destruct (candidate c0 =? EmptyString) eqn:E0; [discriminate|].
  inversion Ec; subst. now apply String.eqb_neq.
Qed.

Section Requests.
Variable new_URL : string -> string -> option string.

(** Every [fetch] of a step: the POST of line 55, or the PATCH of line
    109 for a candidate that is notified or stands in an array being
    flushed. *)
Lemma step_fetch : forall s e request,
  In (Fetch request) (snd (step new_URL s e)) ->
  (exists k sdp,
     offer (call s k) = AwaitSetLocalDescription sdp /\
     request = mkRequest (endpointUrl (this s)) "POST" "application/sdp" sdp) \/
  (exists c session,
     sessionUrl (this s) = Some session /\
     request = trickle_request session c /\
     (carried e = Some c \/
      In c (cachedCandidates (this s)) \/
      exists k items i,
        flush (call s k) = FlushAwaitSend (Some items) i /\ In c items)).
Proof.
  intros s e request Hin.
  pose proof (step_transition new_URL s e) as T.
  destruct (step new_URL s e) as [s1 out]; cbn [fst snd] in *.
  destruct T;
    try (cbn [line_85 app In] in Hin; intuition discriminate);
    try (exfalso; revert Hin; apply fetched_none;
         apply (receiveIceServers_keeps (this s) (headers response))).
  - right. exists c, session. cbn [In] in Hin.
    destruct Hin as [Hin|[Hin|[]]]; [discriminate|]. injection Hin as <-. auto.
  - left. exists k, sdp. cbn [In] in Hin.
    destruct Hin as [Hin|[Hin|[]]]; [discriminate|]. injection Hin as <-. auto.
  - right. exists c, session. cbn [line_85 app In] in Hin.
    destruct Hin as [Hin|[Hin|[Hin|[Hin|[]]]]]; try discriminate.
    injection Hin as <-. repeat split; auto. right. left.
    eapply nth_error_In; eauto.
  - right. exists c, session. cbn [In] in Hin.
    destruct Hin as [Hin|[Hin|[]]]; [discriminate|]. injection Hin as <-.
    repeat split; auto. right.
    destruct array as [items|]; cbn [iterated] in *.
    + right. exists k, items, i. split; auto. eapply nth_error_In; eauto.
    + left. eapply nth_error_In; eauto.
Qed.

Lemma step_offer_origin : forall s e j sdp,
  offer (call (fst (step new_URL s e)) j) = AwaitSetLocalDescription sdp ->
  offer (call s j) = AwaitSetLocalDescription sdp \/
  e = Settled j (OfferCreated sdp).
Proof.
  intros s e j sdp.
  pose proof (step_transition new_URL s e) as T.
  destruct (step new_URL s e) as [s1 out]; cbn [fst snd] in *.
  destruct T; offers; cbn [activations]; auto;
    try (destruct ((j =? k)%nat && (k <? List.length (activations s))%nat) eqn:E;
         [intros Hset; try discriminate|now left]).
  - rewrite call_appended. fold (call s j).
    destruct (j <? List.length (activations s))%nat; [now left|].
    destruct (j =? List.length (activations s))%nat; discriminate.
  - injection Hset as <-. apply andb_prop in E. destruct E as [E _].
    apply Nat.eqb_eq in E. subst j. now right.
Qed.

Lemma run_offer_origin : forall endpoint servers evs j sdp,
  offer (call (fst (run new_URL (constructed endpoint servers) evs)) j) =
    AwaitSetLocalDescription sdp ->
  In (Settled j (OfferCreated sdp)) evs.
Proof.
  intros endpoint servers evs j sdp.
  induction evs as [|e evs IH] using rev_ind.
  { cbn. destruct j; discriminate. }
  rewrite run_snoc_fst. intros H. apply in_or_app.
  destruct (step_offer_origin _ _ _ _ H) as [Ho| ->]; [left; now apply IH|].
  right. now left.
Qed.

Lemma step_endpoint : forall s e,
  endpointUrl (this (fst (step new_URL s e))) = endpointUrl (this s).
Proof.
  intros s e.
  pose proof (step_transition new_URL s e) as T.
  destruct (step new_URL s e) as [s1 out]; cbn [fst snd] in *.
  destruct T; this_after; auto;
    apply (receiveIceServers_keeps (this s) (headers response)).
Qed.

Lemma run_endpoint : forall evs s,
  endpointUrl (this (fst (run new_URL s evs))) = endpointUrl (this s).
Proof.
  induction evs as [|e evs IH]; intros s; [reflexivity|].
  rewrite run_cons; cbn [fst]. rewrite IH. apply step_endpoint.
Qed.

Lemma step_session_origin : forall s e session,
  sessionUrl (this (fst (step new_URL s e))) = Some session ->
  sessionUrl (this s) = Some session \/
  exists k response location,
    e = Settled k (Responded response) /\ ok response = true /\
    get "Location" (headers response) = Some location /\
    new_URL location (endpointUrl (this s)) = Some session.
Proof.
  intros s e session.
  pose proof (step_transition new_URL s e) as T.
  destruct (step new_URL s e) as [s1 out]; cbn [fst snd] in *.
  destruct T; this_after; auto;
    try (destruct (receiveIceServers_keeps (this s) (headers response))
           as (_ & Ks & _); rewrite Ks; now left).
  intros H3. injection H3 as <-. right. exists k, response, location. auto.
Qed.

Lemma step_session_kept : forall s e,
  sessionUrl (this s) <> None ->
  sessionUrl (this (fst (step new_URL s e))) <> None.
Proof.
  intros s e.
  pose proof (step_transition new_URL s e) as T.
  destruct (step new_URL s e) as [s1 out]; cbn [fst snd] in *.
  destruct T; this_after; auto; try discriminate;
    destruct (receiveIceServers_keeps (this s) (headers response))
      as (_ & Ks & _); now rewrite Ks.
Qed.

Lemma run_session_kept : forall evs s,
  sessionUrl (this s) <> None ->
  sessionUrl (this (fst (run new_URL s evs))) <> None.
Proof.
  induction evs as [|e evs IH]; intros s H; [exact H|].
  rewrite run_cons; cbn [fst]. apply IH. now apply step_session_kept.
Qed.

Lemma run_session_origin : forall endpoint servers evs session,
  sessionUrl (this (fst (run new_URL (constructed endpoint servers) evs)))
    = Some session ->
  exists k response location,
    In (Settled k (Responded response)) evs /\ ok response = true /\
    get "Location" (headers response) = Some location /\
    new_URL location endpoint = Some session.
Proof.
  intros endpoint servers evs session.
  induction evs as [|e evs IH] using rev_ind; [discriminate|].
  rewrite run_snoc_fst. intros H.
  destruct (step_session_origin _ _ _ H)
    as [Hs|(k & response & loc & -> & Hok & Hl & Hu)].
  - destruct (IH Hs) as (k & response & loc & Hin & Hrest).
    exists k, response, loc. split; [apply in_or_app; now left|exact Hrest].
  - exists k, response, loc. rewrite run_endpoint in Hu.
    repeat split; auto. apply in_or_app. right. now left.
Qed.

(** On a client on which [sendOffer] is called once, line 72 runs once. *)
Lemma session_stable : forall s e out queued direct session,
  invariant s out queued direct ->
  sessionUrl (this s) = Some session ->
  sessionUrl (this (fst (step new_URL s e))) = Some session.
Proof.
  intros s e out q d session (Hl & Hpc & _) Hs.
  pose proof (step_transition new_URL s e) as T.
  destruct (step new_URL s e) as [s1 out1]; cbn [fst snd] in *.
  unfold pc_ok in Hpc.
  destruct T; this_after; auto;
    try congruence;
    destruct (sole_call s k Hl) as [-> _];
    try (left; rewrite H; discriminate);
    rewrite H in Hpc; destruct Hpc; congruence.
Qed.

Lemma session_stable_run : forall more s out queued direct session,
  invariant s out queued direct ->
  List.length (activations s) + calls_of more <= 1 ->
  sessionUrl (this s) = Some session ->
  sessionUrl (this (fst (run new_URL s more))) = Some session.
Proof.
  induction more as [|e more IH]; intros s out q d session Hinv Hc Hs;
    [exact Hs|].
  rewrite run_cons; cbn [fst].
  change (e :: more) with ([e] ++ more) in Hc. rewrite calls_of_app in Hc.
  eapply IH.
  - apply (step_invariant new_URL s e out q d Hinv). lia.
  - rewrite step_length. lia.
  - eapply session_stable; eauto.
Qed.

End Requests.

(** ** The offer request *)

(** Every POST of every run, however often [sendOffer] is called, goes to
    [endpointUrl] with content type [application/sdp], and its body is an
    SDP that a [createOffer] of the run fulfilled with. *)
Theorem offer_post_format : forall new_URL endpoint servers evs request,
  In (Fetch request) (snd (run new_URL (constructed endpoint servers) evs)) ->
  method request = "POST" ->
  exists k sdp,
    In (Settled k (OfferCreated sdp)) evs /\
    request = mkRequest endpoint "POST" "application/sdp" sdp.
Proof.
  intros new_URL endpoint servers evs request.
  induction evs as [|e evs IH] using rev_ind; intros Hin Hm; [destruct Hin|].
  rewrite run_snoc_snd in Hin.
  apply in_app_or in Hin. destruct Hin as [Hin|Hin].
  - destruct (IH Hin Hm) as (k & sdp & Hs & Hr).
    exists k, sdp. split; [apply in_or_app; now left|exact Hr].
  - destruct (step_fetch new_URL _ e request Hin)
      as [(k & sdp & Ho & Hr)|(c & session & _ & Hr & _)].
    + exists k, sdp. split.
      * apply in_or_app. left. exact (run_offer_origin new_URL _ _ _ _ _ Ho).
      * rewrite Hr. now rewrite run_endpoint.
    + rewrite Hr in Hm. discriminate.
Qed.

(** [offer_post_format] on the run in which the offer was sent. *)
Lemma offer_post_format_witness :
  let request := mkRequest sample_endpoint "POST" "application/sdp" "v=0" in
  In (Fetch request)
     (snd (run resolve_path (constructed sample_endpoint []) sample_offer_sent)) /\
  exists k sdp,
    In (Settled k (OfferCreated sdp)) sample_offer_sent /\
    request = mkRequest sample_endpoint "POST" "application/sdp" sdp.
Proof.
  intros request.
  assert (Hin : In (Fetch request)
                  (snd (run resolve_path (constructed sample_endpoint [])
                          sample_offer_sent))).
  { vm_compute. repeat (try (left; reflexivity); right). }
  split; [exact Hin|].
  exact (offer_post_format resolve_path sample_endpoint [] sample_offer_sent
           request Hin eq_refl).
Defined.

(** ** The session URL *)

(** Whatever [sessionUrl] is set to is the [Location] of a delivered 2xx
    answer, resolved against [endpointUrl]; once set it is never unset,
    and [endpointUrl] never changes.  On a client on which [sendOffer] is
    called once it is written once: no continuation of the run changes
    it. *)
Theorem session_url_comes_from_an_answer :
  forall new_URL endpoint servers evs more session,
    let s0 := constructed endpoint servers in
    let later := fst (run new_URL s0 (evs ++ more)) in
    sessionUrl (this (fst (run new_URL s0 evs))) = Some session ->
    (exists k response location,
       In (Settled k (Responded response)) evs /\ ok response = true /\
       get "Location" (headers response) = Some location /\
       new_URL location endpoint = Some session) /\
    endpointUrl (this later) = endpoint /\
    sessionUrl (this later) <> None /\
    (calls_of (evs ++ more) <= 1 -> sessionUrl (this later) = Some session).
Proof.
  intros new_URL endpoint servers evs more session s0 later H.
  split; [exact (run_session_origin new_URL endpoint servers evs session H)|].
  split; [apply run_endpoint|]. split.
  - unfold later. rewrite run_app_fst. apply run_session_kept. congruence.
  - intros Hc. rewrite calls_of_app in Hc.
    unfold later. rewrite run_app_fst.
    eapply session_stable_run; [| |exact H].
    + apply (reachable_invariant new_URL endpoint servers evs). lia.
    + rewrite run_length. change (List.length (activations s0)) with 0. lia.
Qed.

(** The theorem on an established session that is then offered a second
    answer. *)
Lemma session_url_comes_from_an_answer_witness :
  let s0 := constructed sample_endpoint [] in
  let evs := sample_offer_sent ++ [Settled 0 (Responded sample_created)] in
  let more := [Settled 0 (BodyRead "v=0"); Settled 0 (Responded sample_no_location);
               Settled 0 (Responded (mkResponse 200 [("Location", "/session/other")]))] in
  sessionUrl (this (fst (run resolve_path s0 evs))) = Some sample_session /\
  calls_of (evs ++ more) <= 1 /\
  sessionUrl (this (fst (run resolve_path s0 (evs ++ more)))) = Some sample_session.
Proof.
  intros s0 evs more.
  assert (H : sessionUrl (this (fst (run resolve_path s0 evs))) = Some sample_session)
    by reflexivity.
  assert (C : calls_of (evs ++ more) <= 1) by (cbn; lia).
  split; [exact H|]. split; [exact C|].
  exact (proj2 (proj2 (proj2 (session_url_comes_from_an_answer resolve_path
                                sample_endpoint [] evs more sample_session H))) C).
Defined.

(** ** The trickle request *)

Lemma unanswered_call : forall s k,
  Forall unanswered (activations s) -> unanswered (call s k).
Proof.
  intros s k H.
  destruct (Nat.lt_ge_cases k (List.length (activations s))) as [Hk|Hk].
  - eapply Forall_forall; [exact H|]. now apply call_In.
  - rewrite call_overflow by exact Hk. repeat split; discriminate.
Qed.

Lemma unanswered_set_offer : forall s k pc,
  Forall unanswered (activations s) ->
  pc <> AwaitText -> pc <> AwaitSetRemoteDescription ->
  Forall unanswered (activations (set_offer s k pc)).
Proof.
  intros s k pc H H1 H2. unfold set_offer. cbn [activations].
  apply Forall_update; [exact H|].
  intros a (Hf & _). repeat split; assumption.
Qed.

Section Known.
Variable new_URL : string -> string -> option string.

(** While [sessionUrl] is unset no call has got past line 72. *)
Lemma step_unanswered : forall s e,
  (sessionUrl (this s) = None -> Forall unanswered (activations s)) ->
  sessionUrl (this (fst (step new_URL s e))) = None ->
  Forall unanswered (activations (fst (step new_URL s e))).
Proof.
  intros s e IH Hs.
  assert (Hn : sessionUrl (this s) = None).
  { destruct (sessionUrl (this s)) eqn:E; [|reflexivity].
    exfalso. apply (step_session_kept new_URL s e); [congruence|exact Hs]. }
  specialize (IH Hn).
  pose proof (fun k => unanswered_call s k IH) as Hcall.
  pose proof (step_transition new_URL s e) as T.
  destruct (step new_URL s e) as [s1 out]; cbn [fst snd] in *.
  destruct T; auto;
    try (apply unanswered_set_offer; auto; discriminate);
    try (exfalso;
         match goal with
         | H : offer (call _ ?k) = _ |- _ =>
             destruct (Hcall k) as (_ & N1 & N2); congruence
         | H : flush (call _ ?k) = FlushAwaitSend _ _ |- _ =>
             destruct (Hcall k) as (N0 & _); congruence
         end).
  cbn [activations]. apply Forall_app. split; [exact IH|].
  repeat constructor; discriminate.
Qed.

Lemma reachable_unanswered : forall endpoint servers evs,
  let s := fst (run new_URL (constructed endpoint servers) evs) in
  sessionUrl (this s) = None -> Forall unanswered (activations s).
Proof.
  intros endpoint servers evs.
  induction evs as [|e evs IH] using rev_ind; [constructor|].
  cbv zeta in *. rewrite run_snoc_fst. now apply step_unanswered.
Qed.

(** What stands in the queue, or in an array the queue has left, was
    notified. *)
Lemma step_known : forall s e evs,
  (forall c, In c (cachedCandidates (this s)) -> In c (discovered evs)) ->
  Forall (stands_on_discovered evs) (activations s) ->
  (forall c, In c (cachedCandidates (this (fst (step new_URL s e)))) ->
             In c (discovered (evs ++ [e]))) /\
  Forall (stands_on_discovered (evs ++ [e]))
    (activations (fst (step new_URL s e))).
Proof.
  intros s e evs Hq Ha.
  assert (M : forall c, In c (discovered evs) -> In c (discovered (evs ++ [e]))).
  { intros c H. rewrite discovered_app. apply in_or_app. now left. }
  assert (Ha' : Forall (stands_on_discovered (evs ++ [e])) (activations s)).
  { revert Ha. apply Forall_impl. intros a H items i Hf c Hc. eauto. }
  assert (Hq' : forall c, In c (cachedCandidates (this s)) ->
                          In c (discovered (evs ++ [e]))) by auto.
  assert (So : forall s0 k pc,
            Forall (stands_on_discovered (evs ++ [e])) (activations s0) ->
            Forall (stands_on_discovered (evs ++ [e]))
              (activations (set_offer s0 k pc))).
  { intros s0 k pc H. unfold set_offer. cbn [activations].
    apply Forall_update; [exact H|]. intros a Hs items i Hf. exact (Hs items i Hf). }
  assert (Sf : forall s0 k fl,
            Forall (stands_on_discovered (evs ++ [e])) (activations s0) ->
            (forall items i, fl = FlushAwaitSend (Some items) i ->
               exists j, flush (call s0 k) = FlushAwaitSend (Some items) j) ->
            Forall (stands_on_discovered (evs ++ [e]))
              (activations (set_flush s0 k fl))).
  { intros s0 k fl H Hfl. unfold set_flush. cbn [activations].
    apply (Forall_update_at _ _ _ _ _ not_called); [exact H|].
    intros Hk. fold (call s0 k). intros items i Hf c Hc. cbn [flush] in Hf.
    destruct (Hfl items i Hf) as [j Hj].
    assert (Hs : stands_on_discovered (evs ++ [e]) (call s0 k))
      by (eapply Forall_forall; [exact H|now apply call_In]).
    eapply Hs; eauto. }
  assert (Sr : forall s0,
            (forall c, In c (cachedCandidates (this s0)) ->
                       In c (discovered (evs ++ [e]))) ->
            Forall (stands_on_discovered (evs ++ [e])) (activations s0) ->
            Forall (stands_on_discovered (evs ++ [e]))
              (activations (reassign_cachedCandidates s0))).
  { intros s0 Hc H. unfold reassign_cachedCandidates. cbn [activations].
    apply Forall_map. revert H. apply Forall_impl.
    intros [pc fl] Hs items i Hf. unfold detach in Hf. cbn [flush offer] in *.
    destruct fl as [|[l|] j| |]; cbn [flush] in Hf; try discriminate.
    - exact (Hs items i Hf).
    - injection Hf as <- <-. exact Hc. }
  pose proof (step_transition new_URL s e) as T.
  destruct (step new_URL s e) as [s1 out]; cbn [fst snd] in *.
  destruct T; this_after;
    try (destruct (receiveIceServers_keeps (this s) (headers response))
           as (Kc & _); rewrite ?Kc);
    try (split; [assumption|]); auto;
    try (split; [intros c0 []|]).
  - split; [|exact Ha']. intros c0 Hin. apply in_app_or in Hin.
    destruct Hin as [Hin|[<-|[]]]; [now apply Hq'|].
    rewrite discovered_app. apply in_or_app. right.
    cbn [discovered]. rewrite H. now left.
  - cbn [activations]. apply Forall_app. split; [exact Ha'|].
    repeat constructor. intros items i Hf. discriminate.
  - apply Sf; [now apply So|]. intros items i Hf. discriminate.
  - apply Sf; [now apply So|]. intros items i Hf. discriminate.
  - apply Sf; [|intros items i Hf; discriminate].
    apply Sr; [exact Hq'|now apply So].
  - apply Sf; [exact Ha'|]. intros items j Hf. injection Hf as -> <-.
    now exists i.
  - apply Sf; [exact Ha'|]. intros items j Hf. discriminate.
  - apply Sf; [|intros items j Hf; discriminate]. now apply Sr.
  - apply Sf; [exact Ha'|]. intros items j Hf. discriminate.
Qed.

Lemma reachable_known : forall endpoint servers evs,
  let s := fst (run new_URL (constructed endpoint servers) evs) in
  (forall c, In c (cachedCandidates (this s)) -> In c (discovered evs)) /\
  Forall (stands_on_discovered evs) (activations s).
Proof.
  intros endpoint servers evs.
  induction evs as [|e evs IH] using rev_ind.
  - cbn. split; [intros c []|constructor].
  - cbv zeta in *. rewrite run_snoc_fst. destruct IH as [I1 I2].
    now apply step_known.
Qed.

End Known.

Lemma answered_with_more : forall new_URL endpoint evs more session,
  answered_with new_URL endpoint evs session ->
  answered_with new_URL endpoint (evs ++ more) session.
Proof.
  intros new_URL endpoint evs more session (k & response & location & Hin & H).
  exists k, response, location. split; [apply in_or_app; now left|exact H].
Qed.

Section Patches.
Variable new_URL : string -> string -> option string.

Lemma run_patches : forall endpoint servers evs request,
  In (Fetch request) (snd (run new_URL (constructed endpoint servers) evs)) ->
  method request = "PATCH" ->
  exists c session,
    In c (discovered evs) /\
    answered_with new_URL endpoint evs session /\
    request = trickle_request session c.
Proof.
  intros endpoint servers evs request.
  induction evs as [|e evs IH] using rev_ind; intros Hin Hm; [destruct Hin|].
  rewrite run_snoc_snd in Hin.
  apply in_app_or in Hin. destruct Hin as [Hin|Hin].
  - destruct (IH Hin Hm) as (c & session & Hc & Hs & Hr).
    exists c, session. split; [|split; [now apply answered_with_more|exact Hr]].
    rewrite discovered_app. apply in_or_app. now left.
  - destruct (reachable_known new_URL endpoint servers evs) as [Kq Ka].
    set (s := fst (run new_URL (constructed endpoint servers) evs)) in *.
    destruct (step_fetch new_URL s e request Hin)
      as [(k & sdp & _ & Hr)|(c & session & Hs & Hr & Hc)].
    { rewrite Hr in Hm. discriminate. }
    exists c, session. split; [|split; [|exact Hr]].
    + rewrite discovered_app. apply in_or_app.
      destruct Hc as [Hc|[Hc|(k & items & i & Hf & Hc)]].
      * right. cbn [discovered]. rewrite Hc. now left.
      * left. now apply Kq.
      * left.
        assert (Hk : k < List.length (activations s))
          by (apply called_flush; rewrite Hf; discriminate).
        assert (Hd : stands_on_discovered evs (call s k))
          by (eapply Forall_forall; [exact Ka|now apply call_In]).
        exact (Hd items i Hf c Hc).
    + apply answered_with_more.
      exact (run_session_origin new_URL endpoint servers evs session Hs).
Qed.

End Patches.

(** C6.  Whenever [sendCandidate] runs with [sessionUrl] set it issues one
    request: a PATCH to [sessionUrl] with content type
    [application/trickle-ice-sdpfrag] whose body is the placeholder media
    line, the [a=ice-ufrag:] line, the [a=mid:] line and the [a=] candidate
    line, joined by CRLF, and nothing else: no password line.  In every
    run, however often [sendOffer] is called, that is the request made for
    a candidate notified while [sessionUrl] is set, for the first queued
    candidate when the flush is called, and for each next one when the
    PATCH before it has fulfilled.  No other PATCH is sent: each one
    carries a candidate that was notified with a non-empty candidate line
    and goes to the [Location] of a delivered 2xx answer; an
    end-of-gathering notification sends nothing. *)
Theorem C6_trickle_request_format :
  forall new_URL endpoint servers evs,
    let s := fst (run new_URL (constructed endpoint servers) evs) in
    let out := snd (run new_URL (constructed endpoint servers) evs) in
    (forall this c isCached session,
       sessionUrl this = Some session ->
       sendCandidate this c isCached =
         ([Console (sending_text isCached) (LCandidate c);
           Fetch (mkRequest session "PATCH" "application/trickle-ice-sdpfrag"
                    ("m=audio 9 RTP/AVP 0" ++ CRLF
                     ++ "a=ice-ufrag:" ++ ToString (usernameFragment c) ++ CRLF
                     ++ "a=mid:" ++ ToString (sdpMid c) ++ CRLF
                     ++ "a=" ++ candidate c)%string)],
          Awaiting)) /\
    (forall c session,
       candidate c <> EmptyString -> sessionUrl (this s) = Some session ->
       snd (step new_URL s (IceCandidate (Some c))) =
         [Console (sending_text false) (LCandidate c);
          Fetch (trickle_request session c)]) /\
    (forall k c,
       offer (call s k) = AwaitSetRemoteDescription ->
       nth_error (cachedCandidates (this s)) 0 = Some c ->
       exists session,
         sessionUrl (this s) = Some session /\
         snd (step new_URL s (Settled k RemoteDescriptionSet)) =
           line_85 ++ [Console (sending_text true) (LCandidate c);
                       Fetch (trickle_request session c)]) /\
    (forall k array i c,
       flush (call s k) = FlushAwaitSend array i ->
       nth_error (iterated s array) (S i) = Some c ->
       exists session,
         sessionUrl (this s) = Some session /\
         snd (step new_URL s (Settled k (TrickleSettled true))) =
           [Console (sending_text true) (LCandidate c);
            Fetch (trickle_request session c)]) /\
    (forall request,
       In (Fetch request) out -> method request = "PATCH" ->
       exists c session,
         In c (discovered evs) /\ candidate c <> EmptyString /\
         answered_with new_URL endpoint evs session /\
         request = trickle_request session c) /\
    (forall ev,
       end_of_gathering (IceCandidate ev) = true ->
       fetched (snd (step new_URL s (IceCandidate ev))) = []).
Proof.
  intros new_URL endpoint servers evs s out.
  pose proof (reachable_unanswered new_URL endpoint servers evs) as Hu.
  fold s in Hu. cbv zeta in Hu.
  assert (Hset : forall k,
            offer (call s k) = AwaitSetRemoteDescription \/
            flush (call s k) <> FlushNotCalled ->
            exists session, sessionUrl (this s) = Some session).
  { intros k Hk. destruct (sessionUrl (this s)) as [session|] eqn:Es; [eauto|].
    exfalso. destruct (unanswered_call s k (Hu eq_refl)) as (U0 & _ & U2).
    destruct Hk; auto. }
  split; [|split; [|split; [|split; [|split]]]].
  - intros this0 c isCached session Hs. unfold sendCandidate. rewrite Hs.
    reflexivity.
  - intros c session Hc Hs. apply String.eqb_neq in Hc.
    cbn [step]. unfold handleIceCandidateFromClient, sendCandidate.
    rewrite Hc, Hs. destruct (this s); reflexivity.
  - intros k c Ho Hn. destruct (Hset k (or_introl Ho)) as [session Hs].
    exists session. split; [exact Hs|].
    cbn [step]. unfold sendOffer_resume. rewrite Ho.
    unfold sendCachedCandidates, sendCachedCandidates_from, sendCandidate.
    cbn [iterated set_offer this]. rewrite Hn, Hs. reflexivity.
  - intros k array i c Hf Hn.
    destruct (Hset k) as [session Hs]; [right; rewrite Hf; discriminate|].
    exists session. split; [exact Hs|].
    cbn [step]. rewrite Hf.
    unfold sendCachedCandidates_from, sendCandidate. rewrite Hn, Hs. reflexivity.
  - intros request Hin Hm.
    destruct (run_patches new_URL endpoint servers evs request Hin Hm)
      as (c & session & Hc & Hs & Hr).
    exists c, session. repeat split; auto. now apply (discovered_payload evs).
  - intros ev He. rewrite (end_of_gathering_step new_URL s _ He). reflexivity.
Qed.

(** The theorem on the PATCH of a candidate notified after the answer, on
    the PATCH of the queued candidate when the flush is called, and on
    the finished run. *)
Lemma C6_witness :
  let s0 := constructed sample_endpoint [] in
  let answered := sample_offer_sent ++ [Settled 0 (Responded sample_created)] in
  let applied := answered ++ [Settled 0 (BodyRead "v=0")] in
  let evs := applied ++ [Settled 0 RemoteDescriptionSet;
                         IceCandidate (Some sample_c2)] in
  (candidate sample_c2 <> EmptyString /\
   sessionUrl (this (fst (run resolve_path s0 answered))) = Some sample_session /\
   snd (step resolve_path (fst (run resolve_path s0 answered))
          (IceCandidate (Some sample_c2))) =
     [Console (sending_text false) (LCandidate sample_c2);
      Fetch (trickle_request sample_session sample_c2)]) /\
  (offer (call (fst (run resolve_path s0 applied)) 0) = AwaitSetRemoteDescription /\
   nth_error (cachedCandidates (this (fst (run resolve_path s0 applied)))) 0 =
     Some sample_c1 /\
   exists session,
     sessionUrl (this (fst (run resolve_path s0 applied))) = Some session /\
     snd (step resolve_path (fst (run resolve_path s0 applied))
            (Settled 0 RemoteDescriptionSet)) =
       line_85 ++ [Console (sending_text true) (LCandidate sample_c1);
                   Fetch (trickle_request session sample_c1)]) /\
  (In (Fetch (trickle_request sample_session sample_c2))
      (snd (run resolve_path s0 evs)) /\
   method (trickle_request sample_session sample_c2) = "PATCH" /\
   exists c session,
     In c (discovered evs) /\ candidate c <> EmptyString /\
     answered_with resolve_path sample_endpoint evs session /\
     trickle_request sample_session sample_c2 = trickle_request session c).
Proof.
  intros s0 answered applied evs.
  assert (N : candidate sample_c2 <> EmptyString) by discriminate.
  assert (S1 : sessionUrl (this (fst (run resolve_path s0 answered)))
               = Some sample_session) by reflexivity.
  assert (O : offer (call (fst (run resolve_path s0 applied)) 0)
              = AwaitSetRemoteDescription) by reflexivity.
  assert (Q : nth_error (cachedCandidates (this (fst (run resolve_path s0 applied)))) 0
              = Some sample_c1) by reflexivity.
  assert (Hin : In (Fetch (trickle_request sample_session sample_c2))
                  (snd (run resolve_path s0 evs))).
  { vm_compute. repeat (try (left; reflexivity); right). }
  split; [|split].
  - split; [exact N|split; [exact S1|]].
    exact (proj1 (proj2 (C6_trickle_request_format resolve_path sample_endpoint []
                           answered)) sample_c2 sample_session N S1).
  - split; [exact O|split; [exact Q|]].
    exact (proj1 (proj2 (proj2 (C6_trickle_request_format resolve_path
                                  sample_endpoint [] applied))) 0 sample_c1 O Q).
  - split; [exact Hin|split; [reflexivity|]].
    exact (proj1 (proj2 (proj2 (proj2 (proj2
             (C6_trickle_request_format resolve_path sample_endpoint [] evs)))))
             _ Hin eq_refl).
Defined.

(** ** A flush that does not finish *)

Section Late.
Variable new_URL : string -> string -> option string.

Lemma arrivals_app : forall early evs more s,
  arrivals new_URL early s (evs ++ more) =
  arrivals new_URL early s evs
  ++ arrivals new_URL early (fst (run new_URL s evs)) more.
Proof.
  intros early. induction evs as [|e evs IH]; intros more s; [reflexivity|].
  cbn [app arrivals]. rewrite run_cons. cbn [fst].
  now rewrite IH, app_assoc.
Qed.

Lemma arrivals_when_set : forall more s,
  sessionUrl (this s) <> None ->
  arrivals new_URL true s more = [] /\
  arrivals new_URL false s more = discovered more.
Proof.
  induction more as [|e more IH]; intros s Hs; [split; reflexivity|].
  cbn [arrivals discovered]. unfold arrival.
  destruct (IH _ (step_session_kept new_URL s e Hs)) as [E1 E2].
  rewrite E1, E2.
  destruct (sessionUrl (this s)); [|now destruct Hs].
  cbn [is_unset Bool.eqb]. destruct (carried e); split; reflexivity.
Qed.

Lemma run_opens_clean : forall evs s, opens_clean (snd (run new_URL s evs)).
Proof.
  induction evs as [|e evs IH]; intros s; [exact I|].
  rewrite run_cons. cbn [snd].
  pose proof (step_opens_clean new_URL s e) as H.
  destruct (snd (step new_URL s e)) as [|x out]; [apply IH|].
  destruct x; exact I || exact H.
Qed.

(** Once the one call and its flush are over, no cached relay follows. *)
Lemma step_after_over : forall s e,
  List.length (activations s) <= 1 -> over (call s 0) -> calls_of [e] = 0 ->
  relayed true (snd (step new_URL s e)) = [].
Proof.
  intros s e Hl ([Ho|[m Ho]] & Hf) Hc.
  all: pose proof (step_transition new_URL s e) as T;
       destruct (step new_URL s e) as [s1 out]; cbn [fst snd] in *.
  all: destruct T; try reflexivity; try discriminate;
       try (apply relayed_quiet;
            apply (receiveIceServers_keeps (this s) (headers response))).
  all: try (exfalso;
            match goal with
            | H : offer (call _ ?k) = _ |- _ =>
                destruct (sole_call s k Hl) as [-> _];
                [left; rewrite H; discriminate|congruence]
            | H : flush (call _ ?k) = FlushAwaitSend _ _ |- _ =>
                destruct (sole_call s k Hl) as [-> _];
                [right; rewrite H; discriminate
                |rewrite H in Hf; intuition discriminate]
            end).
Qed.

Lemma run_after_over : forall more s,
  List.length (activations s) <= 1 -> over (call s 0) -> calls_of more = 0 ->
  relayed true (snd (run new_URL s more)) = [].
Proof.
  induction more as [|e more IH]; intros s Hl Ho Hc; [reflexivity|].
  change (e :: more) with ([e] ++ more) in Hc. rewrite calls_of_app in Hc.
  rewrite run_cons. cbn [snd].
  rewrite relayed_app by apply run_opens_clean.
  rewrite step_after_over by (auto; lia).
  apply IH.
  - rewrite step_length. lia.
  - now rewrite over_step.
  - lia.
Qed.

(** A flush ends thrown only when a PATCH it awaits is rejected. *)
Lemma step_thrown_cause : forall s e out queued direct,
  invariant s out queued direct ->
  List.length (activations s) + calls_of [e] <= 1 ->
  flush (call (fst (step new_URL s e)) 0) = FlushThrown ->
  flush (call s 0) = FlushThrown \/ e = Settled 0 (TrickleSettled false).
Proof.
  intros s e out q d (Hl & Hpc & Hq & _) Hcalls.
  pose proof (flushed_set s Hpc) as Hset.
  pose proof (step_transition new_URL s e) as T.
  destruct (step new_URL s e) as [s1 out1]; cbn [fst snd] in *.
  unfold pc_ok in Hpc.
  destruct T; auto.
  - cbn [calls_of] in Hcalls.
    destruct s as [t [|a acts]]; cbn [activations List.length] in Hcalls; [|lia].
    cbn. discriminate.
  - one_call H. auto.
  - one_call H. auto.
  - one_call H. auto.
  - one_call H. auto.
  - one_call H. auto.
  - one_call H. auto.
  - one_call H. auto.
  - one_call H. auto.
  - one_call H. subst pc. discriminate.
  - one_call H. subst pc sess. now destruct Hpc as [[] _].
  - one_call H. subst pc. fields. destruct Hpc as [_ ->]. fields. discriminate.
  - one_call H. subst fl. discriminate.
  - one_call H. subst fl sess. exfalso. now apply Hset.
  - one_call H. subst fl. fields. discriminate.
  - one_call H. auto.
Qed.

Lemma run_thrown_cause : forall endpoint servers evs,
  calls_of evs <= 1 ->
  flush (call (fst (run new_URL (constructed endpoint servers) evs)) 0)
    = FlushThrown ->
  In (Settled 0 (TrickleSettled false)) evs.
Proof.
  intros endpoint servers evs.
  induction evs as [|e evs IH] using rev_ind; [discriminate|].
  rewrite calls_of_app, run_snoc_fst. intros Hc H. apply in_or_app.
  destruct (step_thrown_cause _ e _ _ _
              (reachable_invariant new_URL endpoint servers evs ltac:(lia)))
    as [Ht| ->]; auto.
  - rewrite run_length. cbn [constructed activations List.length]. lia.
  - left. apply IH; [lia|exact Ht].
  - right. now left.
Qed.

End Late.

(** On a client on which [sendOffer] is called once, a flush ends thrown
    only because a PATCH it awaited was rejected: the guard of line 95
    never fires in it.  From then on nothing resumes it: whatever is
    delivered, it stays thrown, the queue is never cleared and still holds
    every early arrival, and no further cached candidate is relayed: the
    PATCH requests of the whole run are those the flush had sent and those
    of the candidates relayed on arrival. *)
Theorem failed_trickle_aborts_the_flush :
  forall new_URL endpoint servers evs more,
    let s0 := constructed endpoint servers in
    let s := fst (run new_URL s0 evs) in
    let final := run new_URL s0 (evs ++ more) in
    calls_of (evs ++ more) <= 1 ->
    flush (call s 0) = FlushThrown ->
    In (Settled 0 (TrickleSettled false)) evs /\
    flush (call (fst final) 0) = FlushThrown /\
    cachedCandidates (this (fst final)) = arrivals new_URL true s0 evs /\
    relayed true (snd final) = relayed true (snd (run new_URL s0 evs)) /\
    Permutation (patches (snd final))
      (relayed true (snd (run new_URL s0 evs)) ++ relayed false (snd final)).
Proof.
  intros new_URL endpoint servers evs more s0 s final Hc Hf.
  rewrite calls_of_app in Hc.
  destruct (reachable_invariant new_URL endpoint servers evs)
    as (Hl & Hpc & _); [lia|].
  fold s0 in Hl, Hpc. fold s in Hl, Hpc.
  assert (Hk : 0 < List.length (activations s))
    by (apply called_flush; rewrite Hf; discriminate).
  pose proof (run_length new_URL evs s0) as Hlen.
  change (List.length (activations s) = 0 + calls_of evs) in Hlen.
  assert (Hm : calls_of more = 0) by lia.
  assert (Hov : over (call s 0)).
  { split; [left|right; right; exact Hf].
    apply (sane_call s 0 (reachable_sane new_URL endpoint servers evs) Hk).
    rewrite Hf. discriminate. }
  assert (Hs : sessionUrl (this s) <> None)
    by (apply flushed_set; [exact Hpc|rewrite Hf; discriminate]).
  assert (Ef : fst final = fst (run new_URL s more))
    by (unfold final; now rewrite run_app_fst).
  assert (Ec : call (fst final) 0 = call s 0)
    by (rewrite Ef; now apply over_run).
  split; [apply (run_thrown_cause new_URL endpoint servers evs); [lia|exact Hf]|].
  assert (Er : relayed true (snd final) = relayed true (snd (run new_URL s0 evs))).
  { unfold final. rewrite run_app_snd. fold s.
    rewrite relayed_app by apply run_opens_clean.
    rewrite (run_after_over new_URL more s Hl Hov Hm). now rewrite app_nil_r. }
  destruct (reachable_invariant new_URL endpoint servers (evs ++ more))
    as (_ & _ & Hq & _ & _ & Hp); [rewrite calls_of_app; lia|].
  fold s0 in Hq, Hp. fold final in Hq, Hp.
  split; [now rewrite Ec|]. split; [|split; [exact Er|now rewrite <- Er]].
  unfold queue_ok in Hq.
  rewrite Ec, Hf in Hq. destruct Hq as [Hq _]. rewrite Hq, arrivals_app.
  fold s. rewrite (proj1 (arrivals_when_set new_URL more s Hs)).
  now rewrite app_nil_r.
Qed.

(** The theorem on a flush of two candidates whose first PATCH is
    rejected, followed by events that would otherwise carry it on. *)
Lemma failed_trickle_aborts_the_flush_witness :
  let s0 := constructed sample_endpoint [] in
  let evs := sample_offer_sent ++
             [IceCandidate (Some sample_c2); Settled 0 (Responded sample_created);
              Settled 0 (BodyRead "v=0"); Settled 0 RemoteDescriptionSet;
              Settled 0 (TrickleSettled false)] in
  let more := [Settled 0 (TrickleSettled true); Settled 0 RemoteDescriptionSet;
               Settled 0 (TrickleSettled true)] in
  (calls_of (evs ++ more) <= 1 /\
   flush (call (fst (run resolve_path s0 evs)) 0) = FlushThrown) /\
  cachedCandidates (this (fst (run resolve_path s0 (evs ++ more)))) =
    [sample_c1; sample_c2] /\
  relayed true (snd (run resolve_path s0 (evs ++ more))) =
    [trickle_request sample_session sample_c1].
Proof.
  intros s0 evs more. subst s0.
  assert (C : calls_of (evs ++ more) <= 1) by (cbn; lia).
  assert (F : flush (call (fst (run resolve_path
                                  (constructed sample_endpoint []) evs)) 0)
              = FlushThrown) by reflexivity.
  destruct (failed_trickle_aborts_the_flush resolve_path sample_endpoint []
              evs more C F) as (_ & _ & Hq & Hr & _).
  split; [split; assumption|]. split; [exact Hq|]. rewrite Hr. reflexivity.
Defined.

(** On a client on which [sendOffer] is called once: when
    [response.text()] or [setRemoteDescription] rejects, [sendOffer]
    throws with [sessionUrl] already set.  The flush is then never called:
    whatever is delivered afterwards, the candidates queued before the
    answer stay in the queue and are never relayed, while every candidate
    notified afterwards is relayed on arrival; the PATCH requests of the
    whole run are those of the candidates relayed on arrival. *)
Theorem rejection_after_session_strands_the_queue :
  forall new_URL endpoint servers evs reason more,
    let s0 := constructed endpoint servers in
    let s := fst (run new_URL s0 evs) in
    let all := evs ++ Settled 0 (OfferRejected reason) :: more in
    let final := run new_URL s0 all in
    calls_of all <= 1 ->
    offer (call s 0) = AwaitText \/ offer (call s 0) = AwaitSetRemoteDescription ->
    call (fst final) 0 = mkActivation (OfferThrown reason) FlushNotCalled /\
    sessionUrl (this (fst final)) = sessionUrl (this s) /\
    sessionUrl (this s) <> None /\
    cachedCandidates (this (fst final)) = arrivals new_URL true s0 evs /\
    relayed true (snd final) = [] /\
    relayed false (snd final) =
      relayed false (snd (run new_URL s0 evs))
      ++ requests (sessionUrl (this s)) (discovered more) /\
    Permutation (patches (snd final)) (relayed false (snd final)).
Proof.
  intros new_URL endpoint servers evs reason more s0 s all final Hc Ho.
  assert (Hc' : calls_of evs <= 1 /\ calls_of more = 0).
  { unfold all in Hc. rewrite calls_of_app in Hc. cbn [calls_of] in Hc.
    pose proof (run_length new_URL evs s0) as Hlen.
    change (List.length (activations s) = 0 + calls_of evs) in Hlen.
    assert (0 < List.length (activations s))
      by (apply called_offer; destruct Ho as [Ho|Ho]; rewrite Ho; discriminate).
    lia. }
  destruct Hc' as [Hc1 Hc2].
  destruct (reachable_invariant new_URL endpoint servers evs Hc1)
    as (Hl & Hpc & Hq & Hd & _).
  fold s0 in Hl, Hpc, Hq, Hd. fold s in Hl, Hpc, Hq, Hd.
  assert (Hk : 0 < List.length (activations s))
    by (apply called_offer; destruct Ho as [Ho|Ho]; rewrite Ho; discriminate).
  assert (Hsf : sessionUrl (this s) <> None /\ flush (call s 0) = FlushNotCalled).
  { unfold pc_ok in Hpc. destruct Ho as [Ho|Ho]; rewrite Ho in Hpc; exact Hpc. }
  destruct Hsf as [Hs Hf].
  assert (Est : step new_URL s (Settled 0 (OfferRejected reason)) =
                (set_offer s 0 (OfferThrown reason), [])).
  { cbn [step]. unfold sendOffer_resume.
    destruct Ho as [Ho|Ho]; rewrite Ho; reflexivity. }
  set (thrown := set_offer s 0 (OfferThrown reason)) in *.
  assert (Et : call thrown 0 = mkActivation (OfferThrown reason) FlushNotCalled).
  { unfold thrown. rewrite call_set_offer_same by exact Hk. now rewrite Hf. }
  assert (Ef : fst final = fst (run new_URL thrown more)).
  { unfold final, all. rewrite run_app_fst. fold s. rewrite run_cons, Est.
    reflexivity. }
  assert (Ec : call (fst final) 0 = mkActivation (OfferThrown reason) FlushNotCalled).
  { rewrite Ef, over_run; [exact Et|]. rewrite Et. split; cbn; eauto. }
  destruct (sessionUrl (this s)) as [session|] eqn:Es; [|now destruct Hs].
  assert (Esf : sessionUrl (this (fst final)) = Some session).
  { unfold final, all. rewrite run_app_fst. fold s.
    eapply session_stable_run; [|cbn [calls_of]; lia|exact Es].
    apply (reachable_invariant new_URL endpoint servers evs Hc1). }
  destruct (reachable_invariant new_URL endpoint servers all Hc)
    as (_ & _ & Hq' & Hd' & _ & Hp').
  fold s0 in Hq', Hd', Hp'. fold final in Hq', Hd', Hp'. unfold queue_ok in Hq'.
  rewrite Ec in Hq'. cbn [flush] in Hq'. destruct Hq' as [Hq1 Hq2].
  assert (Ea : forall early,
            arrivals new_URL early s0 all =
            arrivals new_URL early s0 evs
            ++ arrivals new_URL early thrown more).
  { intros early. unfold all. rewrite arrivals_app. fold s.
    cbn [arrivals]. rewrite Est. reflexivity. }
  assert (Hst : sessionUrl (this thrown) <> None)
    by (unfold thrown; cbn [set_offer this]; congruence).
  destruct (arrivals_when_set new_URL more thrown Hst) as [A1 A2].
  split; [exact Ec|]. split; [exact Esf|]. split; [exact Hs|].
  split; [rewrite Hq1, Ea, A1; now rewrite app_nil_r|].
  split; [exact Hq2|].
  split; [|now rewrite Hq2 in Hp'].
  rewrite Hd', Esf, Ea, A2, requests_app, Hd. reflexivity.
Qed.

(** The theorem on a negotiation whose [setRemoteDescription] rejects. *)
Lemma rejection_after_session_strands_the_queue_witness :
  let s0 := constructed sample_endpoint [] in
  let evs := sample_offer_sent ++
             [Settled 0 (Responded sample_created); Settled 0 (BodyRead "v=0")] in
  let more := [IceCandidate (Some sample_c2); Settled 0 RemoteDescriptionSet;
               Settled 0 (TrickleSettled true)] in
  let all := evs ++ Settled 0 (OfferRejected "InvalidStateError") :: more in
  (calls_of all <= 1 /\
   offer (call (fst (run resolve_path s0 evs)) 0) = AwaitSetRemoteDescription) /\
  cachedCandidates (this (fst (run resolve_path s0 all))) = [sample_c1] /\
  relayed true (snd (run resolve_path s0 all)) = [] /\
  relayed false (snd (run resolve_path s0 all)) =
    [trickle_request sample_session sample_c2].
Proof.
  intros s0 evs more all. subst s0 all.
  assert (C : calls_of (evs ++ Settled 0 (OfferRejected "InvalidStateError") :: more)
              <= 1) by (cbn; lia).
  assert (O : offer (call (fst (run resolve_path
                                  (constructed sample_endpoint []) evs)) 0)
              = AwaitSetRemoteDescription) by reflexivity.
  destruct (rejection_after_session_strands_the_queue resolve_path
              sample_endpoint [] evs "InvalidStateError" more C (or_intror O))
    as (_ & _ & _ & Hq & Hr & Hd & _).
  split; [split; assumption|]. split; [exact Hq|]. split; [exact Hr|].
  rewrite Hd. reflexivity.
Defined.

(** ** Every candidate once *)

Section Conservation.
Variable new_URL : string -> string -> option string.

Lemma discovered_split : forall evs s,
  Permutation (discovered evs)
    (arrivals new_URL true s evs ++ arrivals new_URL false s evs).
Proof.
  induction evs as [|e evs IH]; intros s; [constructor|].
  cbn [discovered arrivals]. unfold arrival.
  specialize (IH (fst (step new_URL s e))).
  destruct (carried e) as [c|]; [|exact IH].
  destruct (is_unset (sessionUrl (this s))); cbn [Bool.eqb app].
  - now constructor.
  - now apply Permutation_cons_app.
Qed.
End Conservation.

(** On a client on which [sendOffer] is called once, no candidate is
    relayed twice and none is dropped: at every point of every run the
    PATCH requests sent so far are, up to order, exactly the requests of
    line 109 for the candidates relayed, and these together with the
    queued candidates still pending are, up to order, exactly the
    candidates discovered so far.  Before the flush is called the pending
    ones are the whole queue and nothing was relayed from it; once it has
    returned none is pending. *)
Theorem every_candidate_relayed_at_most_once :
  forall new_URL endpoint servers evs,
    let s0 := constructed endpoint servers in
    let s := fst (run new_URL s0 evs) in
    let out := snd (run new_URL s0 evs) in
    calls_of evs <= 1 ->
    exists sent pending,
      Permutation (patches out) (requests (sessionUrl (this s)) sent) /\
      (sessionUrl (this s) = None -> sent = []) /\
      Permutation (sent ++ pending) (discovered evs) /\
      (flush (call s 0) = FlushReturned -> pending = []) /\
      (flush (call s 0) = FlushNotCalled -> pending = cachedCandidates (this s)).
Proof.
  intros new_URL endpoint servers evs s0 s out Hc.
  pose proof (reachable_invariant new_URL endpoint servers evs Hc)
    as (_ & Hpc & Hq & Hd & Hn & Hp).
  cbv zeta in Hpc, Hq, Hd, Hn, Hp.
  fold s0 in Hpc, Hq, Hd, Hn, Hp. fold s in Hpc, Hq, Hd, Hn.
  fold out in Hq, Hd, Hp.
  pose proof (unset_not_flushed s Hpc) as Hunset.
  set (early := arrivals new_URL true s0 evs) in *.
  set (late := arrivals new_URL false s0 evs) in *.
  assert (Hk : exists k, relayed true out
                         = requests (sessionUrl (this s)) (firstn k early) /\
                         (sessionUrl (this s) = None -> k = 0) /\
                         (flush (call s 0) = FlushReturned -> skipn k early = []) /\
                         (flush (call s 0) = FlushNotCalled ->
                            skipn k early = cachedCandidates (this s))).
  { unfold queue_ok in Hq. destruct (flush (call s 0)) as [|array i| |] eqn:Ef.
    - exists 0. cbn [firstn skipn]. rewrite requests_nil.
      repeat split; try tauto; try discriminate. intros _. symmetry. tauto.
    - exists (S i). repeat split; try tauto; try discriminate.
      intros U. specialize (Hunset U). discriminate.
    - exists (List.length early). rewrite firstn_all, skipn_all.
      repeat split; try tauto; try discriminate.
      intros U. specialize (Hunset U). discriminate.
    - destruct Hq as (_ & k & Hk). exists k. repeat split; auto; try discriminate.
      intros U. specialize (Hunset U). discriminate. }
  destruct Hk as (k & Hr & Hz & Hret & Hnot).
  exists (firstn k early ++ late), (skipn k early).
  split; [|split; [|split; [|split]]]; auto.
  - rewrite requests_app, <- Hr, <- Hd. exact Hp.
  - intros U. rewrite (Hz U), (Hn U). reflexivity.
  - eapply Permutation_trans; [|apply Permutation_sym; apply discovered_split].
    fold early. fold late.
    apply Permutation_trans with ((firstn k early ++ skipn k early) ++ late).
    + rewrite <- !app_assoc. apply Permutation_app_head.
      apply Permutation_app_comm.
    + rewrite firstn_skipn. apply Permutation_refl.
Qed.

(** The theorem on a finished run with one queued and one late
    candidate. *)
Lemma every_candidate_relayed_at_most_once_witness :
  let s0 := constructed sample_endpoint [] in
  let evs := sample_offer_sent ++
             [Settled 0 (Responded sample_created); IceCandidate (Some sample_c2);
              Settled 0 (BodyRead "v=0"); Settled 0 RemoteDescriptionSet;
              Settled 0 (TrickleSettled true)] in
  calls_of evs <= 1 /\
  flush (call (fst (run resolve_path s0 evs)) 0) = FlushReturned /\
  exists sent,
    Permutation (patches (snd (run resolve_path s0 evs)))
      (requests (sessionUrl (this (fst (run resolve_path s0 evs)))) sent) /\
    Permutation sent (discovered evs).
Proof.
  intros s0 evs. subst s0.
  assert (C : calls_of evs <= 1) by (cbn; lia).
  assert (H : flush (call (fst (run resolve_path
                                  (constructed sample_endpoint []) evs)) 0)
              = FlushReturned) by reflexivity.
  split; [exact C|split; [exact H|]].
  destruct (every_candidate_relayed_at_most_once resolve_path sample_endpoint []
              evs C) as (sent & pending & P & _ & Q & R & _).
  exists sent. split; [exact P|].
  rewrite (R H), app_nil_r in Q. exact Q.
Defined.

(** ** Array lengths *)

(** A whole number is in lowest terms. *)
Lemma Qred_integer : forall z,
  Qreduction.Qred (QArith_base.inject_Z z) = QArith_base.inject_Z z.
Proof.
  intros z. unfold Qreduction.Qred, QArith_base.inject_Z.
  pose proof (Z.ggcd_gcd z 1) as Hg.
  pose proof (Z.ggcd_correct_divisors z 1) as Hd.
  destruct (Z.ggcd z 1) as [g [a b]]. cbn [fst snd] in *.
  rewrite Z.gcd_1_r in Hg. subst g. destruct Hd as [Ha Hb].
  rewrite Z.mul_1_l in Ha, Hb. subst a b. reflexivity.
Qed.

(** [Array] accepts exactly the whole numbers from 0 to 2^32-1. *)
Lemma Array_integer : forall z,
  (0 <= z < 2 ^ 32)%Z -> Array (integer z) = Some (Z.to_nat z).
Proof.
  intros z Hz. unfold Array, integer.
  rewrite Qred_integer.
  cbn [QArith_base.inject_Z QArith_base.Qnum QArith_base.Qden].
  rewrite Pos.eqb_refl.
  destruct (Z.leb_spec 0 z); [|lia].
  destruct (Z.ltb_spec z (2 ^ 32)); [|lia].
  reflexivity.
Qed.

Lemma Array_integer_rejected : forall z,
  (z < 0 \/ 2 ^ 32 <= z)%Z -> Array (integer z) = None.
Proof.
  intros z Hz. unfold Array, integer.
  rewrite Qred_integer.
  cbn [QArith_base.inject_Z QArith_base.Qnum QArith_base.Qden].
  rewrite Pos.eqb_refl.
  destruct (Z.leb_spec 0 z); [|reflexivity].
  destruct (Z.ltb_spec z (2 ^ 32)); [lia|reflexivity].
Qed.

Lemma Array_whole : forall q slots,
  Array (Finite q) = Some slots <->
  exists z, (0 <= z < 2 ^ 32)%Z /\
            QArith_base.Qeq q (QArith_base.inject_Z z) /\ slots = Z.to_nat z.
Proof.
  intros q slots. split.
  - unfold Array. pose proof (Qreduction.Qred_correct q) as Hq.
    destruct (Qreduction.Qred q) as [num den].
    cbn [QArith_base.Qnum QArith_base.Qden].
    destruct (Pos.eqb_spec den 1) as [->|]; [|discriminate].
    destruct (Z.leb_spec 0 num); [|discriminate].
    destruct (Z.ltb_spec num (2 ^ 32)); [|discriminate].
    cbn [andb]. intros Hsome. inversion Hsome. exists num.
    split; [lia|]. split; [|reflexivity].
    symmetry. exact Hq.
  - intros (z & Hz & Hq & ->).
    change (Array (Finite q)) with
      (let r := Qreduction.Qred q in
       if ((QArith_base.Qden r =? 1)%positive
           && (0 <=? QArith_base.Qnum r)%Z
           && (QArith_base.Qnum r <? 2 ^ 32)%Z)%bool
       then Some (Z.to_nat (QArith_base.Qnum r)) else None).
    rewrite (Qreduction.Qred_complete _ _ Hq).
    exact (Array_integer z Hz).
Qed.

(** A count that [config.simulcastVideoCount || 1] lets through is not
    zero: an accepted length is at least one. *)
Lemma or_one_truthy : forall count, truthy (or_one count) = true.
Proof.
  intros [n|]; [|reflexivity]. unfold or_one.
  destruct (truthy n) eqn:E; [exact E|reflexivity].
Qed.

Lemma Array_truthy : forall n slots,
  truthy n = true -> Array n = Some slots -> 1 <= slots.
Proof.
  intros [| |q] slots Ht Ha; try discriminate.
  apply Array_whole in Ha. destruct Ha as (z & Hz & Hq & ->).
  cbn [truthy] in Ht. apply negb_true_iff in Ht.
  assert (z <> 0%Z).
  { intros ->. apply (proj2 (QArith_base.Qeq_bool_iff _ _)) in Hq.
    congruence. }
  lia.
Qed.

(** ** Starting without local media *)

(** A duplex client whose media request fails, in an insecure context or
    by a rejected [getUserMedia]: [start] settles to [undefined], not to
    [false], and goes on to create the receive-only transceivers and to
    negotiate.  With a [simulcastVideoCount] that is no array length its
    promise rejects instead. *)
Lemma C8_counterexample :
  let duplex := DuplexClient.constructor None None None in
  let broken := DuplexClient.constructor (Some (integer (-1))) None None in
  settles (DuplexClient.start duplex NoMediaDevices) = Fulfils undefined /\
  settles (DuplexClient.start duplex NoMediaDevices) <> Fulfils (boolean false) /\
  negotiates (DuplexClient.start duplex NoMediaDevices) = true /\
  calls (DuplexClient.start duplex NoMediaDevices) =
    [Console "Can't request user media (insecure context?)" LNone;
     AddTransceiver "video" "recvonly"; AddTransceiver "audio" "recvonly"] /\
  settles (DuplexClient.start duplex (MediaDevices None)) = Fulfils undefined /\
  negotiates (DuplexClient.start duplex (MediaDevices None)) = true /\
  settles (DuplexClient.start broken (MediaDevices None))
    = Rejects "RangeError: Invalid array length".
Proof. repeat split. discriminate. Qed.

(** C8, as the code has it.  When [requestAccess] yields no media it has
    logged why, and: [WhipClient.start] logs [Could not access media
    devices] after the lines of [requestAccess], fulfils with [false] and
    does not reach [sendOffer]; [DuplexClient.start] never fulfils with
    [false].  If its [simulcastVideoCount] is an array length it fulfils
    with [undefined] and proceeds: after the lines of [requestAccess] it
    creates that many receive-only video transceivers and the audio one,
    adds no track, and calls [sendOffer].  Otherwise [Array] throws: the
    promise of [start] rejects with the [RangeError], nothing is added to
    the peer connection and [sendOffer] is not reached. *)
Theorem C8_start_without_media : forall devices,
  fst (requestAccess devices) = None ->
  (In (Console "Can't request user media (insecure context?)" LNone)
      (snd (requestAccess devices)) \/
   In (Console "Couldn't get user media" LNone) (snd (requestAccess devices))) /\
  (forall negotiation,
     let result := WhipClient.start (WhipClient.mk None) devices negotiation in
     settles result = Fulfils (boolean false) /\
     negotiates result = false /\
     media_after result = None /\
     calls result =
       snd (requestAccess devices)
       ++ [Console "Could not access media devices" LNone]) /\
  (forall this,
     DuplexClient.media this = None ->
     let result := DuplexClient.start this devices in
     settles result <> Fulfils (boolean false) /\
     media_after result = None /\
     (forall slots,
        Array (DuplexClient.simulcastVideoCount this) = Some slots ->
        settles result = Fulfils undefined /\
        negotiates result = true /\
        calls result =
          snd (requestAccess devices)
          ++ repeat (AddTransceiver "video" "recvonly") slots
          ++ [AddTransceiver "audio" "recvonly"]) /\
     (Array (DuplexClient.simulcastVideoCount this) = None ->
        settles result = Rejects "RangeError: Invalid array length" /\
        negotiates result = false /\
        calls result = snd (requestAccess devices))).
Proof.
  intros devices Hnone. split; [|split].
  - destruct devices as [|[m|]]; [left| discriminate |right]; cbn; auto.
  - intros negotiation. unfold WhipClient.start. cbn [WhipClient.media].
    destruct (requestAccess devices) as [granted out]. cbn [fst snd] in *.
    subst granted. repeat split.
  - intros this0 Hm. unfold DuplexClient.start. rewrite Hm.
    destruct (requestAccess devices) as [granted out]. cbn [fst snd] in *.
    subst granted.
    destruct (Array (DuplexClient.simulcastVideoCount this0)) as [n|];
      cbn [settles negotiates media_after calls].
    + split; [discriminate|]. split; [reflexivity|]. split; [|discriminate].
      intros slots H. inversion H; subst. unfold add_transceivers.
      rewrite app_nil_r. repeat split.
    + split; [discriminate|]. split; [reflexivity|]. split; [discriminate|].
      intros _. repeat split.
Qed.

(** The theorem on a rejected [getUserMedia]. *)
Lemma C8_witness :
  let devices := MediaDevices None in
  let duplex := DuplexClient.constructor (Some (integer 2)) None None in
  fst (requestAccess devices) = None /\
  settles (WhipClient.start (WhipClient.mk None) devices None)
    = Fulfils (boolean false) /\
  (DuplexClient.media duplex = None /\
   Array (DuplexClient.simulcastVideoCount duplex) = Some 2 /\
   negotiates (DuplexClient.start duplex devices) = true).
Proof.
  intros devices duplex.
  assert (H : fst (requestAccess devices) = None) by reflexivity.
  assert (M : DuplexClient.media duplex = None) by reflexivity.
  assert (A : Array (DuplexClient.simulcastVideoCount duplex) = Some 2)
    by reflexivity.
  split; [exact H|split].
  - exact (proj1 (proj1 (proj2 (C8_start_without_media devices H)) None)).
  - split; [exact M|split; [exact A|]].
    destruct (proj2 (proj2 (C8_start_without_media devices H)) duplex M)
      as (_ & _ & Hs & _).
    exact (proj1 (proj2 (Hs 2 A))).
Defined.

(** ** Construction and start *)

(** [new WebRtcClient(config)] throws its [Config is required] error
    exactly on a falsy primitive (0, NaN, the empty string, [false]), and
    then the peer connection was already created; without a config, or
    with [null], it fails earlier, on the read of line 18, before any peer
    connection exists.  It throws [Must specify endpoint url in config]
    exactly on a truthy primitive and on an object whose [url] is missing
    or empty.  It returns a client exactly when the config is an object
    with a non-empty [url] that [new URL] accepts, and the client then has
    an empty queue, no session URL, no call of [sendOffer] and its three
    listeners.  A throw leaves no listener behind. *)
Theorem constructor_outcomes : forall new_URL location config,
  let result := constructor new_URL location config in
  (outcome result = inl (Error "Config is required") <->
   config = Primitive false) /\
  (config = Primitive false -> created result = true) /\
  (created result = false <-> config = Undefined \/ config = Null) /\
  (created result = false -> outcome result = inl TypeError) /\
  (outcome result = inl (Error "Must specify endpoint url in config") <->
   config = Primitive true \/
   exists cfg, config = Object cfg /\
               (WebRtcClientConfig.url cfg = None \/
                WebRtcClientConfig.url cfg = Some EmptyString)) /\
  (forall s,
     outcome result = inr s <->
     exists cfg url endpoint,
       config = Object cfg /\
       WebRtcClientConfig.url cfg = Some url /\
       url <> EmptyString /\
       new_URL url location = Some endpoint /\
       s = constructed endpoint
             match WebRtcClientConfig.iceServers cfg with
             | Some servers => servers
             | None => []
             end) /\
  (forall s,
     outcome result = inr s ->
     cachedCandidates (this s) = [] /\ sessionUrl (this s) = None /\
     activations s = [] /\ created result = true /\
     listening result = ["icecandidate"; "iceconnectionstatechange"; "track"]) /\
  (forall reason, outcome result = inl reason -> listening result = []).
Proof.
  intros new_URL location config result. unfold result, constructor.
  destruct config as [| |[|]|cfg].
  1-4: cbn [outcome created listening];
       repeat split; intros; try discriminate; auto;
       repeat match goal with
              | H : _ \/ _ |- _ => destruct H
              | H : exists _, _ |- _ => destruct H
              | H : _ /\ _ |- _ => destruct H
              end; try discriminate.
  destruct (WebRtcClientConfig.url cfg) as [url|] eqn:Eu.
  2:{ cbn [outcome created listening].
      repeat split; intros; try discriminate; eauto;
      repeat match goal with
             | H : _ \/ _ |- _ => destruct H
             | H : exists _, _ |- _ => destruct H
             | H : _ /\ _ |- _ => destruct H
             end; try discriminate.
      match goal with H : Object _ = Object _ |- _ => inversion H; subst end.
      congruence. }
  destruct (url =? EmptyString) eqn:Ee.
  { apply String.eqb_eq in Ee. subst url. cbn [outcome created listening].
    repeat split; intros; try discriminate; eauto;
    repeat match goal with
           | H : _ \/ _ |- _ => destruct H
           | H : exists _, _ |- _ => destruct H
           | H : _ /\ _ |- _ => destruct H
           end; try discriminate.
    match goal with H : Object _ = Object _ |- _ => inversion H; subst end.
    congruence. }
  apply String.eqb_neq in Ee.
  destruct (new_URL url location) as [endpoint|] eqn:En;
    cbn [outcome created listening].
  - repeat split; intros; try discriminate; eauto;
    repeat match goal with
           | H : _ \/ _ |- _ => destruct H
           | H : exists _, _ |- _ => destruct H
           | H : _ /\ _ |- _ => destruct H
           | H : Object _ = Object _ |- _ => inversion H; clear H; subst
           | H : inr _ = inr _ |- _ => inversion H; clear H; subst
           end; try discriminate; try congruence; try reflexivity.
    exists cfg, url, endpoint. repeat split; auto.
  - repeat split; intros; try discriminate; eauto;
    repeat match goal with
           | H : _ \/ _ |- _ => destruct H
           | H : exists _, _ |- _ => destruct H
           | H : _ /\ _ |- _ => destruct H
           | H : Object _ = Object _ |- _ => inversion H; clear H; subst
           end; try discriminate; try congruence.
Qed.

(** [constructor_outcomes] on a config with a relative [url], on the
    number 0 and on no config at all. *)
Lemma constructor_outcomes_witness :
  let location := "https://media.example.com/index.html" in
  let config := Object (WebRtcClientConfig.mk (Some "/whip/endpoint") None) in
  outcome (constructor resolve_path location config)
    = inr (constructed sample_endpoint []) /\
  listening (constructor resolve_path location config)
    = ["icecandidate"; "iceconnectionstatechange"; "track"] /\
  outcome (constructor resolve_path location (Primitive false))
    = inl (Error "Config is required") /\
  (created (constructor resolve_path location Undefined) = false /\
   outcome (constructor resolve_path location Undefined) = inl TypeError).
Proof.
  intros location config.
  assert (H : outcome (constructor resolve_path location config)
              = inr (constructed sample_endpoint [])) by reflexivity.
  assert (U : created (constructor resolve_path location Undefined) = false)
    by reflexivity.
  split; [exact H|].
  destruct (constructor_outcomes resolve_path location config)
    as (_ & _ & _ & _ & _ & _ & Hbuilt & _).
  split; [exact (proj2 (proj2 (proj2 (proj2 (Hbuilt _ H)))))|].
  destruct (constructor_outcomes resolve_path location (Primitive false))
    as (Hreq & _).
  split; [exact (proj2 Hreq eq_refl)|].
  destruct (constructor_outcomes resolve_path location Undefined)
    as (_ & _ & _ & Hearly & _).
  split; [exact U|exact (Hearly U)].
Defined.

(** [simulcastVideoCount] is [config.simulcastVideoCount || 1]: a count
    that is absent, zero or NaN becomes 1, and the count kept is never
    falsy.  If it is an array length, [start] asks for that many video
    transceivers, at least one, then for the audio one, and goes on to
    [sendOffer]; [DuplexClient.start] does so after the media request and
    before the local tracks, also when the media request failed.  If it is
    not (a negative, fractional or infinite count, or one of 2^32 or more)
    [Array] throws: [start] rejects, adds nothing to the peer connection
    and does not reach [sendOffer]; [DuplexClient.start] has by then made
    its media request.  A whole count from 1 to 2^32-1 is an array length
    of that many slots; a whole count outside is none. *)
Theorem start_requests_at_least_one_video :
  forall count container inDocument devices,
    let n := or_one count in
    let whep := WhepClient.start (WhepClient.constructor count container) in
    let duplex :=
      DuplexClient.start
        (DuplexClient.constructor count container inDocument) devices in
    (count = None \/ count = Some NaN \/ count = Some (integer 0) ->
     n = integer 1 /\ Array n = Some 1) /\
    (forall z, (1 <= z < 2 ^ 32)%Z ->
       count = Some (integer z) -> Array n = Some (Z.to_nat z)) /\
    (forall z, (z < 0 \/ 2 ^ 32 <= z)%Z ->
       count = Some (integer z) -> Array n = None) /\
    (forall negative, count = Some (Infinity negative) -> Array n = None) /\
    (forall slots, Array n = Some slots ->
       1 <= slots /\
       calls whep = repeat (AddTransceiver "video" "recvonly") slots
                    ++ [AddTransceiver "audio" "recvonly"] /\
       negotiates whep = true /\ settles whep = Fulfils undefined /\
       calls duplex =
         snd (requestAccess devices)
         ++ (repeat (AddTransceiver "video" "recvonly") slots
             ++ [AddTransceiver "audio" "recvonly"])
         ++ match fst (requestAccess devices) with
            | Some media => add_tracks media
            | None => []
            end /\
       negotiates duplex = true /\ settles duplex = Fulfils undefined) /\
    (Array n = None ->
       calls whep = [] /\ negotiates whep = false /\
       settles whep = Rejects "RangeError: Invalid array length" /\
       calls duplex = snd (requestAccess devices) /\
       negotiates duplex = false /\
       settles duplex = Rejects "RangeError: Invalid array length").
Proof.
  intros count container inDocument devices n whep duplex.
  split; [|split; [|split; [|split; [|split]]]].
  - intros [->|[->| ->]]; split; reflexivity.
  - intros z Hz ->. unfold n, or_one.
    assert (Ht : truthy (integer z) = true).
    { cbn [truthy integer]. apply negb_true_iff.
      destruct (QArith_base.Qeq_bool _ _) eqn:E; [|reflexivity].
      apply QArith_base.Qeq_bool_iff in E. unfold QArith_base.Qeq in E.
      cbn in E. lia. }
    rewrite Ht. apply Array_integer. lia.
  - intros z Hz ->. unfold n, or_one.
    destruct (truthy (integer z)) eqn:Ht.
    + now apply Array_integer_rejected.
    + cbn [truthy integer] in Ht. apply negb_false_iff in Ht.
      apply QArith_base.Qeq_bool_iff in Ht. unfold QArith_base.Qeq in Ht.
      cbn in Ht. lia.
  - intros negative ->. reflexivity.
  - intros slots Ha.
    split; [exact (Array_truthy n slots (or_one_truthy count) Ha)|].
    unfold whep, duplex, WhepClient.start, DuplexClient.start,
      WhepClient.constructor, DuplexClient.constructor.
    cbn [WhepClient.simulcastVideoCount DuplexClient.simulcastVideoCount
         DuplexClient.media].
    fold n. rewrite Ha.
    destruct (requestAccess devices) as [granted out].
    cbn [calls negotiates settles fst snd]. unfold add_transceivers.
    repeat split.
  - intros Ha.
    unfold whep, duplex, WhepClient.start, DuplexClient.start,
      WhepClient.constructor, DuplexClient.constructor.
    cbn [WhepClient.simulcastVideoCount DuplexClient.simulcastVideoCount
         DuplexClient.media].
    fold n. rewrite Ha.
    destruct (requestAccess devices) as [granted out].
    cbn [calls negotiates settles fst snd]. repeat split.
Qed.

(** The theorem on a count of three and on a count of one half. *)
Lemma start_requests_at_least_one_video_witness :
  let three := WhepClient.start (WhepClient.constructor (Some (integer 3)) None) in
  let half :=
    WhepClient.start
      (WhepClient.constructor
         (Some (Finite (QArith_base.Qmake 1 2))) None) in
  (Array (or_one (Some (integer 3))) = Some 3 /\
   Array (or_one (Some (Finite (QArith_base.Qmake 1 2)))) = None) /\
  calls three =
    [AddTransceiver "video" "recvonly"; AddTransceiver "video" "recvonly";
     AddTransceiver "video" "recvonly"; AddTransceiver "audio" "recvonly"] /\
  settles half = Rejects "RangeError: Invalid array length".
Proof.
  intros three half.
  assert (A3 : Array (or_one (Some (integer 3))) = Some 3) by reflexivity.
  assert (Ah : Array (or_one (Some (Finite (QArith_base.Qmake 1 2)))) = None)
    by reflexivity.
  split; [split; assumption|]. split.
  - destruct (start_requests_at_least_one_video (Some (integer 3)) None None
                NoMediaDevices) as (_ & _ & _ & _ & H & _).
    exact (proj1 (proj2 (H 3 A3))).
  - destruct (start_requests_at_least_one_video
                (Some (Finite (QArith_base.Qmake 1 2))) None None
                NoMediaDevices) as (_ & _ & _ & _ & _ & H).
    exact (proj1 (proj2 (proj2 (H Ah)))).
Defined.
